(** * x402 settlement flow (P06-Full)

    A shallow embedding of the Python sources
    - [x402_types.py]  (payment requirement builder, X-PAYMENT header),
    - [server.py]      (payment proof validation, the quote, the route),
    - [web3_utils.py]  (confirmation-count finality test),
    - [facilitator.py] (the settlement orchestrator and its polling loop),
    - [client.py]      (the buyer's budget, proof and submission),
    followed by the properties of the specification that concern them
    and by further properties of the code.

    Python [int] is [Z]; Python [float] is IEEE binary64, evaluated with
    the executable operations of [SpecFloat]; [str] and [bytes] are
    [string]; a raised exception is [None] in the option monad. *)

From Stdlib Require Import ZArith NArith List Ascii String.
From Stdlib Require Import Floats.SpecFloat.
From stdpp Require Import gmap strings list fin_maps pretty sorting.

Set Warnings "-register-all".
Local Open Scope Z_scope.

(* ===================================================================== *)
(** * Python floats *)
(* ===================================================================== *)

Module PyFloat.

Definition prec : Z := 53.
Definition emax : Z := 1024.

(** [float(n)] for an int [n]: the nearest double, ties to even;
    OverflowError when [n] is too large. *)
Definition of_int (n : Z) : option spec_float :=
  match binary_normalize prec emax n 0 false with
  | S754_infinity _ => None
  | f => Some f
  end.

(** [a / b] on two ints: the correctly rounded quotient;
    ZeroDivisionError for [b = 0], OverflowError when the quotient is
    too large for a double. *)
Definition int_truediv (a b : Z) : option spec_float :=
  let s := xorb (a <? 0) (b <? 0) in
  match Z.abs b, Z.abs a with
  | Zpos mb, Zpos ma =>
      match SFdiv prec emax (S754_finite s ma 0) (S754_finite false mb 0) with
      | S754_infinity _ => None
      | f => Some f
      end
  | Zpos _, _ => Some (S754_zero s)
  | _, _ => None
  end.

(** [x * y] on two floats. *)
Definition mul (x y : spec_float) : spec_float := SFmul prec emax x y.

(** [x * n] and [n * x] with an int [n]: the int is converted first. *)
Definition mul_int (x : spec_float) (n : Z) : option spec_float :=
  y ← of_int n; Some (mul x y).

Definition int_mul (n : Z) (x : spec_float) : option spec_float :=
  y ← of_int n; Some (mul y x).

(** [int(x)]: truncation towards zero; OverflowError on an infinity,
    ValueError on a NaN. *)
Definition to_int (x : spec_float) : option Z :=
  match x with
  | S754_zero _ => Some 0
  | S754_finite s m e =>
      let mag := if e <? 0 then Z.shiftr (Zpos m) (- e) else Z.shiftl (Zpos m) e in
      Some (if s then - mag else mag)
  | S754_infinity _ | S754_nan => None
  end.

(** The literals [1.10] and [1.1]: the double nearest to 11/10. *)
Definition lit_1_10 : spec_float := S754_finite false 4953959590107546 (-52).

(** The exact value of a finite double, as a fraction [num / den]. *)
Definition num (x : spec_float) : Z :=
  match x with
  | S754_finite s m e =>
      let n := if e <? 0 then Zpos m else Z.shiftl (Zpos m) e in
      if s then - n else n
  | _ => 0
  end.

Definition den (x : spec_float) : Z :=
  match x with
  | S754_finite _ _ e => if e <? 0 then Z.shiftl 1 (- e) else 1
  | _ => 1
  end.

End PyFloat.

(* ===================================================================== *)
(** * x402_types.py *)
(* ===================================================================== *)

(** Values that [json.loads] produces. *)
Inductive Json :=
| JNull
| JBool (b : bool)
| JInt (n : Z)
| JStr (s : string)
| JArr (items : list Json)
| JObj (members : list (string * Json)).

(** Values a field annotated [Any] may hold: the JSON-native values and
    tuples, which JSON serialisation writes as arrays. *)
Inductive PyVal :=
| VNone
| VBool (b : bool)
| VInt (n : Z)
| VStr (s : string)
| VList (items : list PyVal)
| VTuple (items : list PyVal)
| VDict (members : list (string * PyVal)).

(** The Python object [json.loads] builds for a JSON value. *)
Fixpoint of_json (j : Json) : PyVal :=
  match j with
  | JNull => VNone
  | JBool b => VBool b
  | JInt n => VInt n
  | JStr s => VStr s
  | JArr items => VList (map of_json items)
  | JObj members => VDict (map (fun kv => (fst kv, of_json (snd kv))) members)
  end.

(** The JSON value written for a Python object by [model_dump_json]. *)
Fixpoint to_json (v : PyVal) : Json :=
  match v with
  | VNone => JNull
  | VBool b => JBool b
  | VInt n => JInt n
  | VStr s => JStr s
  | VList items => JArr (map to_json items)
  | VTuple items => JArr (map to_json items)
  | VDict members => JObj (map (fun kv => (fst kv, to_json (snd kv))) members)
  end.

(** A value is JSON-native when it contains no tuple. *)
Fixpoint json_native (v : PyVal) : bool :=
  match v with
  | VList items => forallb json_native items
  | VTuple _ => false
  | VDict members => forallb (fun kv => json_native (snd kv)) members
  | _ => true
  end.

(** [d.get(k)] on a dict given as its list of items. *)
Fixpoint dict_get (k : string) (d : list (string * PyVal)) : option PyVal :=
  match d with
  | [] => None
  | (k', v) :: d' => if String.eqb k k' then Some v else dict_get k d'
  end.

(** [s[n:]] on a string. *)
Fixpoint str_from (n : nat) (s : string) : string :=
  match n, s with
  | O, _ => s
  | S n', String _ s' => str_from n' s'
  | S _, EmptyString => EmptyString
  end.

(** The text encodings used by the header and the conversions applied
    when a model is built come from the Python standard library and
    from pydantic; they are an interface of the model.  Text is kept
    as the byte string of its UTF-8 form, so [str.encode] and
    [bytes.decode] are the identity. *)
Class WireCodec := {
  (** [base64.b64encode(b).decode()] *)
  b64encode : string -> string;
  (** [base64.b64decode(s)]; [None] is binascii.Error *)
  b64decode : string -> option string;
  (** the JSON text [model_dump_json] writes *)
  json_dumps : Json -> string;
  (** [json.loads(b)]; [None] is a decoding error *)
  json_loads : string -> option Json;
  (** what pydantic, in its default lax mode, makes of a value that is
      not an int when the field is declared [int]: the int a numeric
      string or a bool stands for; [None] is a ValidationError *)
  lax_int : PyVal -> option Z }.

Module X402PaymentRequirement.
Record Metadata := {
  price_per_unit_usdc : spec_float;
  asset_decimals : Z;
  settlement_decimals : Z }.

Record t := {
  version : string;
  chain : string;
  chain_id : Z;
  settlement_token : string;
  settlement_token_symbol : string;
  required_amount : Z;
  settlement_vault : string;
  payment_deadline : Z;
  resource : string;
  asset_token : string;
  asset_amount : Z;
  seller : string;
  metadata : option Metadata }.
End X402PaymentRequirement.

Module X402PaymentProof.
Record t := {
  version : string;
  client_address : string;
  payment_token : string;
  payment_token_symbol : string;
  max_payment_amount : Z;
  permit_signature : list (string * PyVal);
  timestamp : Z;
  settlement_id : option string }.

(** [model_dump]: the fields in declaration order. *)
Definition model_dump (p : t) : PyVal :=
  VDict [ ("version", VStr (version p));
          ("client_address", VStr (client_address p));
          ("payment_token", VStr (payment_token p));
          ("payment_token_symbol", VStr (payment_token_symbol p));
          ("max_payment_amount", VInt (max_payment_amount p));
          ("permit_signature", VDict (permit_signature p));
          ("timestamp", VInt (timestamp p));
          ("settlement_id", match settlement_id p with
                            | Some s => VStr s
                            | None => VNone
                            end) ]%string.

Definition str_field (k : string) (d : list (string * PyVal)) : option string :=
  match dict_get k d with
  | Some (VStr s) => Some s
  | _ => None
  end.

Definition str_field_default (k dflt : string) (d : list (string * PyVal))
  : option string :=
  match dict_get k d with
  | None => Some dflt
  | Some (VStr s) => Some s
  | Some _ => None
  end.

(** [d.get(k)] when it is an int. *)
Definition int_field (k : string) (d : list (string * PyVal)) : option Z :=
  match dict_get k d with
  | Some (VInt n) => Some n
  | _ => None
  end.

(** A required field declared [int]: an int is taken as it is, any
    other value goes through pydantic's lax conversion. *)
Definition lax_int_field `{WireCodec} (k : string) (d : list (string * PyVal))
  : option Z :=
  match dict_get k d with
  | Some (VInt n) => Some n
  | Some v => lax_int v
  | None => None
  end.

Definition dict_field (k : string) (d : list (string * PyVal))
  : option (list (string * PyVal)) :=
  match dict_get k d with
  | Some (VDict m) => Some m
  | _ => None
  end.

Definition optional_str_field (k : string) (d : list (string * PyVal))
  : option (option string) :=
  match dict_get k d with
  | None | Some VNone => Some None
  | Some (VStr s) => Some (Some s)
  | Some _ => None
  end.

(** The constructor call on the unpacked [payment_data]: TypeError
    unless the data is a mapping, ValidationError unless every
    required field is present and has, or converts to, the declared
    type; absent fields take their defaults and unknown keys are
    ignored.  Among the values of [PyVal] a [str] field, the dict
    field and the optional field accept no value of another type; an
    [int] field accepts what pydantic's lax mode converts to an
    int. *)
Definition validate `{WireCodec} (payment_data : PyVal) : option t :=
  match payment_data with
  | VDict d =>
      v ← str_field_default "version" "1.0" d;
      c ← str_field "client_address" d;
      tok ← str_field "payment_token" d;
      sym ← str_field_default "payment_token_symbol" "MockEURC" d;
      amt ← lax_int_field "max_payment_amount" d;
      sig ← dict_field "permit_signature" d;
      ts ← lax_int_field "timestamp" d;
      sid ← optional_str_field "settlement_id" d;
      Some {| version := v; client_address := c; payment_token := tok;
              payment_token_symbol := sym; max_payment_amount := amt;
              permit_signature := sig; timestamp := ts;
              settlement_id := sid |}
  | _ => None
  end.

(** The permit deadline carried by the proof, when it has one. *)
Definition permit_deadline (p : t) : option Z :=
  int_field "deadline" (permit_signature p).
End X402PaymentProof.

Module SettlementResponse.
Record t := {
  settlement_id : string;
  status : string;
  message : string;
  required_usdc : Z;
  max_eurc : Z;
  asset_amount : Z;
  tx_hash : option string }.
End SettlementResponse.

(** The wall clock of the machine at the moment of a call, as the
    [datetime] module presents it.  [datetime.now()] is a naive local
    date; adding a [timedelta] moves it on the local calendar, and
    [timestamp()] converts the result back by the rules of the local
    time zone.  The sum is therefore [now + s] only while the local
    UTC offset is the same at both ends, and the expression raises
    OverflowError when the date leaves the years [datetime] supports. *)
Module Datetime.
Record Clock := {
  (** [int(datetime.now().timestamp())] *)
  now : Z;
  (** [int((datetime.now() + timedelta(seconds=s)).timestamp())];
      [None] when the expression raises *)
  now_plus : Z -> option Z }.
End Datetime.

Module X402Types.

(** [create_x402_payment_requirement]; [clock] is the wall clock the
    call reads on line 94. *)
Definition create_x402_payment_requirement
    (clock : Datetime.Clock) (asset_amount : Z) (price_per_unit_usdc : spec_float)
    (seller_address asset_token_address settlement_vault_address
     mock_usdc_address : string)
    (deadline_seconds : Z) : option X402PaymentRequirement.t :=
  asset_human ← PyFloat.int_truediv asset_amount (10 ^ 18);
  let required_usdc_human := PyFloat.mul asset_human price_per_unit_usdc in
  scaled ← PyFloat.mul_int required_usdc_human (10 ^ 6);
  required_usdc_smallest ← PyFloat.to_int scaled;
  deadline ← Datetime.now_plus clock deadline_seconds;
  Some {| X402PaymentRequirement.version := "1.0";
          X402PaymentRequirement.chain := "polygon-amoy";
          X402PaymentRequirement.chain_id := 80002;
          X402PaymentRequirement.settlement_token := mock_usdc_address;
          X402PaymentRequirement.settlement_token_symbol := "MockUSDC";
          X402PaymentRequirement.required_amount := required_usdc_smallest;
          X402PaymentRequirement.settlement_vault := settlement_vault_address;
          X402PaymentRequirement.payment_deadline := deadline;
          X402PaymentRequirement.resource :=
            ("/buy-asset?amount=" +:+ pretty asset_amount)%string;
          X402PaymentRequirement.asset_token := asset_token_address;
          X402PaymentRequirement.asset_amount := asset_amount;
          X402PaymentRequirement.seller := seller_address;
          X402PaymentRequirement.metadata :=
            Some {| X402PaymentRequirement.price_per_unit_usdc := price_per_unit_usdc;
                    X402PaymentRequirement.asset_decimals := 18;
                    X402PaymentRequirement.settlement_decimals := 6 |} |}.

(** [parse_x402_payment_header]: every exception of the decoding
    chain is caught and turned into [None]. *)
Definition parse_x402_payment_header `{WireCodec} (payment_header : string)
  : option X402PaymentProof.t :=
  if negb (String.prefix "x402 " payment_header) then None
  else
    let encoded_data := str_from 5 payment_header in
    decoded_data ← b64decode encoded_data;
    payment_data ← json_loads decoded_data;
    X402PaymentProof.validate (of_json payment_data).

(** [create_x402_payment_header]. *)
Definition create_x402_payment_header `{WireCodec} (payment_proof : X402PaymentProof.t)
  : string :=
  let json_data := json_dumps (to_json (X402PaymentProof.model_dump payment_proof)) in
  let encoded_data := b64encode json_data in
  ("x402 " +:+ encoded_data)%string.

End X402Types.

(* ===================================================================== *)
(** * server.py *)
(* ===================================================================== *)

Module Server.

(** An entry of the global [active_settlements]. *)
Record ActiveSettlement := {
  client : string;
  asset_amount : Z;
  required_usdc : Z;
  max_eurc : Z;
  status : string;
  created_at : Z }.

(** What the handler takes from outside: [create_settlement], which
    sends the creation transaction and reads the settlement id from
    its receipt ([None] when it raises), and [int(time.time())]. *)
Record Env := {
  create_settlement : string -> Z -> Z -> Z -> option string;
  time_time : Z }.

(** The answers of [handle_payment_submitted]. *)
Inductive Response :=
| InvalidHeader
    (** 400, error "Invalid X-PAYMENT header" *)
| InsufficientPayment (required_usdc max_eurc provided_eurc : Z)
    (** 400, error "Insufficient payment" with the three amounts *)
| SettlementCreated (r : SettlementResponse.t)
    (** 200 *)
| SettlementFailed
    (** 500, [create_settlement] raised *)
| Unhandled.
    (** an exception left the handler *)

Definition status_code (r : Response) : Z :=
  match r with
  | InvalidHeader | InsufficientPayment _ _ _ => 400
  | SettlementCreated _ => 200
  | SettlementFailed | Unhandled => 500
  end.

(** Lines 135-142: the required USDC and the EURC budget asked of the
    proof, or [None] when a float operation raises. *)
Definition required_amounts (asset_amount : Z) : option (Z * Z) :=
  let price_per_unit_usdc := PyFloat.lit_1_10 in
  asset_human ← PyFloat.int_truediv asset_amount (10 ^ 18);
  let required_usdc_human := PyFloat.mul asset_human price_per_unit_usdc in
  scaled ← PyFloat.mul_int required_usdc_human (10 ^ 6);
  required_usdc ← PyFloat.to_int scaled;
  with_rate ← PyFloat.int_mul required_usdc PyFloat.lit_1_10;
  max_eurc ← PyFloat.to_int (PyFloat.mul with_rate PyFloat.lit_1_10);
  Some (required_usdc, max_eurc).

Definition handle_payment_submitted `{WireCodec} (env : Env)
    (active_settlements : gmap string ActiveSettlement)
    (asset_amount : Z) (payment_header : string)
  : Response * gmap string ActiveSettlement :=
  match X402Types.parse_x402_payment_header payment_header with
  | None => (InvalidHeader, active_settlements)
  | Some payment_proof =>
      let provided := X402PaymentProof.max_payment_amount payment_proof in
      (* the log line divides the offered amount by 10**6 *)
      match PyFloat.int_truediv provided (10 ^ 6), required_amounts asset_amount with
      | Some _, Some (required_usdc, max_eurc) =>
          if provided <? max_eurc
          then (InsufficientPayment required_usdc max_eurc provided, active_settlements)
          else
            let client_address := X402PaymentProof.client_address payment_proof in
            match create_settlement env client_address asset_amount required_usdc max_eurc with
            | Some settlement_id =>
                (SettlementCreated
                   {| SettlementResponse.settlement_id := settlement_id;
                      SettlementResponse.status := "created";
                      SettlementResponse.message := "Settlement created successfully";
                      SettlementResponse.required_usdc := required_usdc;
                      SettlementResponse.max_eurc := max_eurc;
                      SettlementResponse.asset_amount := asset_amount;
                      SettlementResponse.tx_hash := None |},
                 <[settlement_id :=
                     {| client := client_address;
                        asset_amount := asset_amount;
                        required_usdc := required_usdc;
                        max_eurc := max_eurc;
                        status := "pending";
                        created_at := time_time env |}]> active_settlements)
            | None => (SettlementFailed, active_settlements)
            end
      | _, _ => (Unhandled, active_settlements)
      end
  end.

(** The proof is accepted when the handler goes on to create the
    settlement. *)
Definition accepted (r : Response) : bool :=
  match r with
  | SettlementCreated _ | SettlementFailed => true
  | _ => false
  end.

End Server.

(* ===================================================================== *)
(** * web3_utils.py *)
(* ===================================================================== *)

Module Web3Utils.

(** [is_block_finalized]; [FINALITY_CONFIRMATIONS] is the configured
    default and [current_block] the value [get_block_number()]
    returned. *)
Definition is_block_finalized (FINALITY_CONFIRMATIONS current_block : Z)
    (block_number : Z) (confirmations : option Z) : bool :=
  let confirmations := default FINALITY_CONFIRMATIONS confirmations in
  current_block - block_number >=? confirmations.

End Web3Utils.

(* ===================================================================== *)
(** * facilitator.py *)
(* ===================================================================== *)

Module Facilitator.

(** The four values the code assigns to a settlement's ['status']. *)
Inductive Status := created | funds_pulled | funded | settled.

#[export] Instance Status_eq_dec : EqDecision Status.
Proof. solve_decision. Defined.

(** A tracked settlement: the dict built by
    [_handle_settlement_created], with the two keys
    [_handle_vault_funded] adds later. *)
Record Settlement := {
  client : string;
  seller : string;
  asset_token : string;
  asset_amount : Z;
  required_usdc : Z;
  max_eurc : Z;
  status : Status;
  block : Z;
  funded_block : option Z;
  funded_at : option Z }.

Definition set_status (s : Status) (r : Settlement) : Settlement :=
  {| client := client r; seller := seller r; asset_token := asset_token r;
     asset_amount := asset_amount r; required_usdc := required_usdc r;
     max_eurc := max_eurc r; status := s; block := block r;
     funded_block := funded_block r; funded_at := funded_at r |}.

(** ** Log entries of the vault contract *)

Record SettlementCreatedArgs := {
  sc_settlementId : string;
  sc_client : string;
  sc_seller : string;
  sc_assetToken : string;
  sc_assetAmount : Z;
  sc_requiredUSDC : Z;
  sc_maxEURC : Z }.

Record FundsPulledArgs := {
  fp_settlementId : string;
  fp_eurcAmount : Z;
  fp_assetAmount : Z }.

Record VaultFundedArgs := {
  vf_settlementId : string;
  vf_client : string;
  vf_usdcAmount : Z;
  vf_blockNumber : Z }.

(** A decoded log entry: [event['args']], [event['blockNumber']] and
    [event['logIndex']]. *)
Record Entry (A : Type) := {
  args : A;
  blockNumber : Z;
  logIndex : Z }.
Arguments args {A} _.
Arguments blockNumber {A} _.
Arguments logIndex {A} _.

(** An entry of one of the three kinds the facilitator listens to. *)
Inductive Event :=
| SettlementCreated (event : Entry SettlementCreatedArgs)
| FundsPulled (event : Entry FundsPulledArgs)
| VaultFunded (event : Entry VaultFundedArgs).

Definition settlementId (e : Event) : string :=
  match e with
  | SettlementCreated event => sc_settlementId (args event)
  | FundsPulled event => fp_settlementId (args event)
  | VaultFunded event => vf_settlementId (args event)
  end.

(** The position of an entry on the chain. *)
Definition position (e : Event) : Z * Z :=
  match e with
  | SettlementCreated event => (blockNumber event, logIndex event)
  | FundsPulled event => (blockNumber event, logIndex event)
  | VaultFunded event => (blockNumber event, logIndex event)
  end.

(** ** The ledger gateway *)

(** The transactions the facilitator sends; the id stands for the
    bytes32 argument made from it. *)
Inductive Call :=
| executeSwap (settlement_id : string) (eurc_amount min_usdc_out : Z)
| confirmFinality (settlement_id : string)
| executeSettlement (settlement_id : string).

#[export] Instance Call_eq_dec : EqDecision Call.
Proof. solve_decision. Defined.

Definition call_id (c : Call) : string :=
  match c with
  | executeSwap i _ _ | confirmFinality i | executeSettlement i => i
  end.

(** What becomes of a call of [send_transaction] followed by
    [wait_for_transaction]. *)
Inductive TxResult :=
| SendRaised
| WaitRaised
| Receipt (status : Z).

#[export] Instance TxResult_eq_dec : EqDecision TxResult.
Proof. solve_decision. Defined.

(** The chain as the facilitator meets it.  [transact sent c] is the
    fate of call [c] made after the calls [sent]; [block_number k] is
    the answer to the [k]-th call of [get_block_number] ([None] when
    it raises) and [time_time k] the [k]-th reading of the clock; the
    three filters answer [get_all_entries] for a block range ([None]
    when the request raises). *)
Record Ledger := {
  FINALITY_CONFIRMATIONS : Z;
  transact : list Call -> Call -> TxResult;
  block_number : nat -> option Z;
  time_time : nat -> Z;
  settlement_created_entries : Z -> Z -> option (list (Entry SettlementCreatedArgs));
  funds_pulled_entries : Z -> Z -> option (list (Entry FundsPulledArgs));
  vault_funded_entries : Z -> Z -> option (list (Entry VaultFundedArgs)) }.

(** ** The facilitator's state *)

(** [funded_settlements] is iterated by [_check_finality], so its
    insertion order is kept beside its contents; [sent] lists the
    calls handed to [send_transaction], oldest first. *)
Record State := {
  pending_settlements : gmap string Settlement;
  funded_settlements : gmap string Settlement;
  funded_order : list string;
  sent : list Call;
  height_reads : nat;
  clock_reads : nat }.

(** [__init__] *)
Definition init : State :=
  {| pending_settlements := ∅; funded_settlements := ∅; funded_order := [];
     sent := []; height_reads := 0; clock_reads := 0 |}.

Definition with_pending (p : gmap string Settlement) (st : State) : State :=
  {| pending_settlements := p; funded_settlements := funded_settlements st;
     funded_order := funded_order st; sent := sent st;
     height_reads := height_reads st; clock_reads := clock_reads st |}.

Definition with_funded (f : gmap string Settlement) (st : State) : State :=
  {| pending_settlements := pending_settlements st; funded_settlements := f;
     funded_order := funded_order st; sent := sent st;
     height_reads := height_reads st; clock_reads := clock_reads st |}.

Definition with_height_reads (k : nat) (st : State) : State :=
  {| pending_settlements := pending_settlements st;
     funded_settlements := funded_settlements st;
     funded_order := funded_order st; sent := sent st;
     height_reads := k; clock_reads := clock_reads st |}.

(** [send_transaction] then [wait_for_transaction]: the call is
    recorded, and the receipt status comes back unless one of the two
    raised. *)
Definition send_and_wait (L : Ledger) (c : Call) (st : State) : State * option Z :=
  let st' :=
    {| pending_settlements := pending_settlements st;
       funded_settlements := funded_settlements st;
       funded_order := funded_order st; sent := sent st ++ [c];
       height_reads := height_reads st; clock_reads := clock_reads st |} in
  match transact L (sent st) c with
  | Receipt status => (st', Some status)
  | SendRaised | WaitRaised => (st', None)
  end.

(** The amounts in log entries are uint256 values; the divisions by
    a power of ten in the messages printed along the way cannot
    overflow on them, and the messages are left out. *)

Definition _handle_settlement_created (st : State)
    (event : Entry SettlementCreatedArgs) : State :=
  let a := args event in
  let settlement_id := sc_settlementId a in
  with_pending
    (<[settlement_id :=
         {| client := sc_client a; seller := sc_seller a;
            asset_token := sc_assetToken a; asset_amount := sc_assetAmount a;
            required_usdc := sc_requiredUSDC a; max_eurc := sc_maxEURC a;
            status := created; block := blockNumber event;
            funded_block := None; funded_at := None |}]>
       (pending_settlements st)) st.

Definition _execute_swap (L : Ledger) (st : State) (settlement_id : string) : State :=
  match pending_settlements st !! settlement_id with
  | None => st
  | Some settlement =>
      let eurc_amount := max_eurc settlement in
      let min_usdc_out := required_usdc settlement in
      (* success and failure of the swap are only reported *)
      fst (send_and_wait L (executeSwap settlement_id eurc_amount min_usdc_out) st)
  end.

Definition _handle_funds_pulled (L : Ledger) (st : State)
    (event : Entry FundsPulledArgs) : State :=
  let settlement_id := fp_settlementId (args event) in
  match pending_settlements st !! settlement_id with
  | Some settlement =>
      let st1 :=
        with_pending (<[settlement_id := set_status funds_pulled settlement]>
                        (pending_settlements st)) st in
      _execute_swap L st1 settlement_id
  | None => st
  end.

Definition _handle_vault_funded (L : Ledger) (st : State)
    (event : Entry VaultFundedArgs) : State :=
  let a := args event in
  let settlement_id := vf_settlementId a in
  match pending_settlements st !! settlement_id with
  | Some settlement =>
      let settlement' :=
        {| client := client settlement; seller := seller settlement;
           asset_token := asset_token settlement;
           asset_amount := asset_amount settlement;
           required_usdc := required_usdc settlement;
           max_eurc := max_eurc settlement; status := funded;
           block := block settlement;
           funded_block := Some (vf_blockNumber a);
           funded_at := Some (time_time L (clock_reads st)) |} in
      {| pending_settlements := delete settlement_id (pending_settlements st);
         funded_settlements := <[settlement_id := settlement']> (funded_settlements st);
         funded_order :=
           match funded_settlements st !! settlement_id with
           | Some _ => funded_order st
           | None => funded_order st ++ [settlement_id]
           end;
         sent := sent st;
         height_reads := height_reads st;
         clock_reads := S (clock_reads st) |}
  | None => st
  end.

(** [_process_blocks]: the three filters in turn, each entry given to
    its handler in the order the filter lists it; an exception ends
    the method where it occurs. *)
Definition _process_blocks (L : Ledger) (from_block to_block : Z) (st : State)
  : State :=
  match settlement_created_entries L from_block to_block with
  | None => st
  | Some created_entries =>
      let st1 := fold_left _handle_settlement_created created_entries st in
      match funds_pulled_entries L from_block to_block with
      | None => st1
      | Some pulled_entries =>
          let st2 := fold_left (_handle_funds_pulled L) pulled_entries st1 in
          match vault_funded_entries L from_block to_block with
          | None => st2
          | Some funded_entries =>
              fold_left (_handle_vault_funded L) funded_entries st2
          end
      end
  end.

(** [_finalize_settlement]: every exception is caught inside. *)
Definition _finalize_settlement (L : Ledger) (st : State) (settlement_id : string)
  : State :=
  match funded_settlements st !! settlement_id with
  | None => st
  | Some settlement =>
      let '(st1, receipt1) := send_and_wait L (confirmFinality settlement_id) st in
      match receipt1 with
      | Some status1 =>
          if decide (status1 = 1) then
            let '(st2, receipt2) :=
              send_and_wait L (executeSettlement settlement_id) st1 in
            match receipt2 with
            | Some status2 =>
                if decide (status2 = 1) then
                  with_funded (<[settlement_id := set_status settled settlement]>
                                 (funded_settlements st2)) st2
                else st2
            | None => st2
            end
          else st1
      | None => st1
      end
  end.

(** The first loop of [_check_finality] over the items of
    [funded_settlements]: the ids to finalize, or [None] when a
    lookup or the height request raises, and the number of height
    requests made so far. *)
Fixpoint settlements_to_finalize (L : Ledger) (fs : gmap string Settlement)
    (ids : list string) (k : nat) : option (list string) * nat :=
  match ids with
  | [] => (Some [], k)
  | settlement_id :: rest =>
      match fs !! settlement_id with
      | Some settlement =>
          if decide (status settlement = funded) then
            match funded_block settlement with
            | None => (None, k)
            | Some fb =>
                match block_number L k with
                | None => (None, S k)
                | Some current_block =>
                    let '(r, k') := settlements_to_finalize L fs rest (S k) in
                    if Web3Utils.is_block_finalized (FINALITY_CONFIRMATIONS L)
                         current_block fb None
                    then (cons settlement_id <$> r, k')
                    else (r, k')
                end
            end
          else settlements_to_finalize L fs rest k
      | None => settlements_to_finalize L fs rest k
      end
  end.

Definition _check_finality (L : Ledger) (st : State) : State :=
  let '(r, k) :=
    settlements_to_finalize L (funded_settlements st) (funded_order st)
      (height_reads st) in
  let st' := with_height_reads k st in
  match r with
  | None => st'
  | Some ids => fold_left (_finalize_settlement L) ids st'
  end.

(** ** Runs *)

(** What the facilitator does between two sleeps: it is given an
    entry, or it checks finality. *)
Inductive Step :=
| Observe (e : Event)
| CheckFinality.

Definition handle_event (L : Ledger) (st : State) (e : Event) : State :=
  match e with
  | SettlementCreated event => _handle_settlement_created st event
  | FundsPulled event => _handle_funds_pulled L st event
  | VaultFunded event => _handle_vault_funded L st event
  end.

Definition step (L : Ledger) (st : State) (s : Step) : State :=
  match s with
  | Observe e => handle_event L st e
  | CheckFinality => _check_finality L st
  end.

Definition run (L : Ledger) (steps : list Step) (st : State) : State :=
  fold_left (step L) steps st.

(** The status the facilitator holds for a settlement id. *)
Definition status_of (st : State) (settlement_id : string) : option Status :=
  match funded_settlements st !! settlement_id with
  | Some settlement => Some (status settlement)
  | None => status <$> pending_settlements st !! settlement_id
  end.

(** The place of a status along created, funds_pulled, funded, settled. *)
Definition rank (s : Status) : nat :=
  match s with
  | created => 0
  | funds_pulled => 1
  | funded => 2
  | settled => 3
  end%nat.

(** ** Notions used to state the properties *)

(** The calls of a log that concern one settlement. *)
Definition calls_for (settlement_id : string) (cs : list Call) : list Call :=
  filter (fun c => call_id c = settlement_id) cs.

(** What the facilitator keeps about settlements, apart from the
    record of calls and of readings. *)
Definition registry (st : State)
  : gmap string Settlement * gmap string Settlement * list string :=
  (pending_settlements st, funded_settlements st, funded_order st).

(** [o1] is not ahead of [o2]: an untracked settlement is behind
    everything, and a tracked one must stay tracked. *)
Definition status_le (o1 o2 : option Status) : Prop :=
  match o1, o2 with
  | None, _ => True
  | Some a, Some b => (rank a <= rank b)%nat
  | Some _, None => False
  end.

(** The ids whose creation a run observes, in order. *)
Fixpoint created_ids (steps : list Step) : list string :=
  match steps with
  | [] => []
  | Observe (SettlementCreated event) :: rest =>
      sc_settlementId (args event) :: created_ids rest
  | _ :: rest => created_ids rest
  end.

(** The stage of the lifecycle an entry belongs to. *)
Definition kind (e : Event) : nat :=
  match e with
  | SettlementCreated _ => 0
  | FundsPulled _ => 1
  | VaultFunded _ => 2
  end%nat.

(** The entries of each kind in a sequence, in its order. *)
Fixpoint created_of (w : list Event) : list (Entry SettlementCreatedArgs) :=
  match w with
  | [] => []
  | SettlementCreated event :: rest => event :: created_of rest
  | _ :: rest => created_of rest
  end.

Fixpoint pulled_of (w : list Event) : list (Entry FundsPulledArgs) :=
  match w with
  | [] => []
  | FundsPulled event :: rest => event :: pulled_of rest
  | _ :: rest => pulled_of rest
  end.

Fixpoint funded_of (w : list Event) : list (Entry VaultFundedArgs) :=
  match w with
  | [] => []
  | VaultFunded event :: rest => event :: funded_of rest
  | _ :: rest => funded_of rest
  end.

(** No entry of a settlement is followed, in the sequence, by an
    entry of the same settlement from an earlier stage. *)
Fixpoint lifecycle_ordered (w : list Event) : bool :=
  match w with
  | [] => true
  | e :: rest =>
      forallb (fun e' => (kind e <=? kind e')%nat
                         || negb (String.eqb (settlementId e') (settlementId e)))
              rest
      && lifecycle_ordered rest
  end.

(** What the first loop of [_check_finality] selects when nothing
    raises: the ids whose record has status [funded] and whose funded
    block has the required number of confirmations. *)
Definition eligible (N cur : Z) (fs : gmap string Settlement) (settlement_id : string)
  : bool :=
  match fs !! settlement_id with
  | Some r =>
      match funded_block r with
      | Some B => bool_decide (status r = funded) && bool_decide (cur - B >= N)
      | None => false
      end
  | None => false
  end.

End Facilitator.

(* ===================================================================== *)
(** * The specification's own wording of two computations *)
(* ===================================================================== *)

Module Spec.
Import Facilitator.

(** Modelled from the spec's words (sections 4.3 and 8.6): the events
    of a poll window are sorted by [(block_number, log_index)] and
    applied in that order. *)
Definition position_leb (p q : Z * Z) : bool :=
  (fst p <? fst q) || ((fst p =? fst q) && (snd p <=? snd q)).

Fixpoint insert_event (e : Event) (l : list Event) : list Event :=
  match l with
  | [] => [e]
  | x :: l' =>
      if position_leb (position e) (position x) then e :: l
      else x :: insert_event e l'
  end.

Definition sort_events (l : list Event) : list Event :=
  fold_right insert_event [] l.

Definition process_blocks_in_order (L : Ledger) (from_block to_block : Z)
    (st : State) : option State :=
  cs ← settlement_created_entries L from_block to_block;
  ps ← funds_pulled_entries L from_block to_block;
  vs ← vault_funded_entries L from_block to_block;
  Some (fold_left (handle_event L)
          (sort_events (map SettlementCreated cs ++ map FundsPulled ps
                        ++ map VaultFunded vs)) st).

(** Modelled from the spec's words (section 4.1): the asset quantity in
    whole units (18 decimals) times the price, rounded down to the
    smallest unit of the settlement currency (6 decimals); the price
    is the exact value of the double. *)
Definition required_amount_exact (asset_amount : Z) (price : spec_float) : Z :=
  (asset_amount * PyFloat.num price * 10 ^ 6) / (PyFloat.den price * 10 ^ 18).

End Spec.

(* ===================================================================== *)
(** * A reference instance of the text encodings *)
(* ===================================================================== *)

(** RFC 4648 base64 with padding, and compact JSON text for the values
    of [Json].  The instance is used to run the header functions on
    concrete headers. *)
Module RefCodec.
Local Open Scope N_scope.

Definition dquote : ascii := ascii_of_nat 34.
Definition backslash : ascii := ascii_of_nat 92.
Definition pad : ascii := "="%char.

(** ** base64 *)

Definition alphabet : string :=
  "ABCDEFGHIJKLMNOPQRSTUVWXYZabcdefghijklmnopqrstuvwxyz0123456789+/".

Definition sextet_char (n : N) : ascii :=
  match String.get (N.to_nat n) alphabet with
  | Some c => c
  | None => pad
  end.

Definition char_sextet (c : ascii) : option N :=
  let n := N_of_ascii c in
  if (65 <=? n) && (n <=? 90) then Some (n - 65)
  else if (97 <=? n) && (n <=? 122) then Some (n - 71)
  else if (48 <=? n) && (n <=? 57) then Some (n + 4)
  else if n =? 43 then Some 62
  else if n =? 47 then Some 63
  else None.

Fixpoint encode_bytes (bs : list N) : string :=
  match bs with
  | [] => EmptyString
  | [a] =>
      let n := a * 16 in
      String (sextet_char (n / 64)) (String (sextet_char (n mod 64))
        (String pad (String pad EmptyString)))
  | [a; b] =>
      let n := (a * 256 + b) * 4 in
      String (sextet_char (n / 4096)) (String (sextet_char (n / 64 mod 64))
        (String (sextet_char (n mod 64)) (String pad EmptyString)))
  | a :: b :: c :: rest =>
      let n := a * 65536 + b * 256 + c in
      String (sextet_char (n / 262144)) (String (sextet_char (n / 4096 mod 64))
        (String (sextet_char (n / 64 mod 64)) (String (sextet_char (n mod 64))
          (encode_bytes rest))))
  end.

Definition bytes_of (s : string) : list N := map N_of_ascii (list_ascii_of_string s).
Definition of_bytes (bs : list N) : string :=
  string_of_list_ascii (map ascii_of_N bs).

Definition encode (s : string) : string := encode_bytes (bytes_of s).

Definition is_pad (c : ascii) : bool := N_of_ascii c =? 61.

Fixpoint decode_quads (cs : list ascii) : option (list N) :=
  match cs with
  | [] => Some []
  | a :: b :: c :: d :: rest =>
      if is_pad d then
        match rest with
        | [] =>
            if is_pad c then
              x ← char_sextet a; y ← char_sextet b;
              Some [(x * 64 + y) / 16]
            else
              x ← char_sextet a; y ← char_sextet b; z ← char_sextet c;
              let n := x * 4096 + y * 64 + z in
              Some [n / 1024; n / 4 mod 256]
        | _ => None
        end
      else
        x ← char_sextet a; y ← char_sextet b; z ← char_sextet c;
        t ← char_sextet d;
        let n := x * 262144 + y * 4096 + z * 64 + t in
        tl ← decode_quads rest;
        Some (n / 65536 :: n / 256 mod 256 :: n mod 256 :: tl)
  | _ => None
  end.

(** Characters outside the alphabet are discarded before decoding. *)
Definition decode (s : string) : option string :=
  let cs := filter (fun c => is_Some (char_sextet c) ∨ is_pad c = true)
              (list_ascii_of_string s) in
  of_bytes <$> decode_quads cs.

(** ** JSON text *)

Definition hex_digit (n : N) : ascii :=
  if n <? 10 then ascii_of_N (48 + n) else ascii_of_N (87 + n).

Definition hex_value (c : ascii) : option N :=
  let n := N_of_ascii c in
  if (48 <=? n) && (n <=? 57) then Some (n - 48)
  else if (97 <=? n) && (n <=? 102) then Some (n - 87)
  else if (65 <=? n) && (n <=? 70) then Some (n - 55)
  else None.

Fixpoint escape (s : string) : string :=
  match s with
  | EmptyString => EmptyString
  | String c rest =>
      let n := N_of_ascii c in
      if (n =? 34) || (n =? 92) then String backslash (String c (escape rest))
      else if n <? 32 then
        (String backslash "u00" +:+
           String (hex_digit (n / 16)) (String (hex_digit (n mod 16)) (escape rest)))%string
      else String c (escape rest)
  end.

Definition quoted (s : string) : string :=
  String dquote (escape s +:+ String dquote EmptyString).

Definition join (sep : string) (parts : list string) : string :=
  match parts with
  | [] => EmptyString
  | p :: ps => fold_left (fun acc q => (acc +:+ sep +:+ q)%string) ps p
  end.

Fixpoint print (j : Json) : string :=
  match j with
  | JNull => "null"
  | JBool true => "true"
  | JBool false => "false"
  | JInt n => pretty n
  | JStr s => quoted s
  | JArr items => ("[" +:+ join "," (map print items) +:+ "]")%string
  | JObj members =>
      ("{" +:+ join "," (map (fun kv => (quoted (fst kv) +:+ ":" +:+ print (snd kv))%string)
                           members) +:+ "}")%string
  end.

Definition is_space (c : ascii) : bool :=
  let n := N_of_ascii c in (n =? 32) || (n =? 9) || (n =? 10) || (n =? 13).

Fixpoint skip_space (s : string) : string :=
  match s with
  | String c rest => if is_space c then skip_space rest else s
  | EmptyString => s
  end.

(** The text of a string after its opening quote: the string and the
    text after the closing quote. *)
Fixpoint read_string (s : string) : option (string * string) :=
  match s with
  | EmptyString => None
  | String c rest =>
      let n := N_of_ascii c in
      if n =? 34 then Some (EmptyString, rest)
      else if n =? 92 then
        match rest with
        | String e rest' =>
            let m := N_of_ascii e in
            if m =? 117 then
              match rest' with
              | String h1 (String h2 (String h3 (String h4 rest''))) =>
                  a ← hex_value h1; b ← hex_value h2;
                  c' ← hex_value h3; d ← hex_value h4;
                  let v := ((a * 16 + b) * 16 + c') * 16 + d in
                  if v <? 256 then
                    '(body, r) ← read_string rest'';
                    Some (String (ascii_of_N v) body, r)
                  else None
              | _ => None
              end
            else
              ch ← (if (m =? 34) || (m =? 92) || (m =? 47) then Some e
                    else if m =? 110 then Some (ascii_of_N 10)
                    else if m =? 116 then Some (ascii_of_N 9)
                    else if m =? 114 then Some (ascii_of_N 13)
                    else if m =? 98 then Some (ascii_of_N 8)
                    else if m =? 102 then Some (ascii_of_N 12)
                    else None);
              '(body, r) ← read_string rest';
              Some (String ch body, r)
        | EmptyString => None
        end
      else
        '(body, r) ← read_string rest;
        Some (String c body, r)
  end.

Definition is_digit (c : ascii) : bool :=
  let n := N_of_ascii c in (48 <=? n) && (n <=? 57).

Fixpoint read_digits (acc : N) (s : string) : N * string :=
  match s with
  | String c rest =>
      if is_digit c then read_digits (acc * 10 + (N_of_ascii c - 48)) rest
      else (acc, s)
  | EmptyString => (acc, s)
  end.

(** Only integers are read; a fraction or an exponent is refused. *)
Definition read_number (s : string) : option (Z * string) :=
  let '(neg, s1) :=
    match s with
    | String "-" rest => (true, rest)
    | _ => (false, s)
    end in
  match s1 with
  | String c _ =>
      if is_digit c then
        let '(n, rest) := read_digits 0 s1 in
        match rest with
        | String "." _ | String "e" _ | String "E" _ => None
        | _ => Some (if neg then (- Z.of_N n)%Z else Z.of_N n, rest)
        end
      else None
  | EmptyString => None
  end.

Definition expect (word : string) (s : string) : option string :=
  if String.prefix word s then Some (str_from (String.length word) s) else None.

Inductive Mode := Value | Elements | Members.

(** A recursive-descent reader, bounded by [fuel].  In mode
    [Elements] it reads the items of an array up to the closing
    bracket and returns them as a [JArr]; in mode [Members] the
    members of an object, as a [JObj]. *)
Fixpoint read (fuel : nat) (m : Mode) (s : string) : option (Json * string) :=
  match fuel with
  | O => None
  | S fuel' =>
      let s := skip_space s in
      match m with
      | Value =>
          match s with
          | String "n" _ => r ← expect "null" s; Some (JNull, r)
          | String "t" _ => r ← expect "true" s; Some (JBool true, r)
          | String "f" _ => r ← expect "false" s; Some (JBool false, r)
          | String "[" rest =>
              match skip_space rest with
              | String "]" r => Some (JArr [], r)
              | _ => read fuel' Elements rest
              end
          | String "{" rest =>
              match skip_space rest with
              | String "}" r => Some (JObj [], r)
              | _ => read fuel' Members rest
              end
          | String c rest =>
              if N_of_ascii c =? 34 then
                '(str, r) ← read_string rest; Some (JStr str, r)
              else
                '(n, r) ← read_number s; Some (JInt n, r)
          | EmptyString => None
          end
      | Elements =>
          '(v, r) ← read fuel' Value s;
          match skip_space r with
          | String "," r' =>
              '(tl, r'') ← read fuel' Elements r';
              match tl with
              | JArr items => Some (JArr (v :: items), r'')
              | _ => None
              end
          | String "]" r' => Some (JArr [v], r')
          | _ => None
          end
      | Members =>
          match s with
          | String c rest =>
              if N_of_ascii c =? 34 then
                '(key, r) ← read_string rest;
                match skip_space r with
                | String ":" r1 =>
                    '(v, r2) ← read fuel' Value r1;
                    match skip_space r2 with
                    | String "," r3 =>
                        '(tl, r4) ← read fuel' Members r3;
                        match tl with
                        | JObj members => Some (JObj ((key, v) :: members), r4)
                        | _ => None
                        end
                    | String "}" r3 => Some (JObj [(key, v)], r3)
                    | _ => None
                    end
                | _ => None
                end
              else None
          | EmptyString => None
          end
      end
  end.

(** One value and nothing but white space after it. *)
Definition parse (s : string) : option Json :=
  '(j, r) ← read (2 * String.length s + 2) Value s;
  match skip_space r with
  | EmptyString => Some j
  | _ => None
  end.

(** The int a string of decimal digits with an optional sign stands
    for. *)
Definition int_of_numeric (s : string) : option Z :=
  let '(neg, s1) :=
    match s with
    | String "-" rest => (true, rest)
    | String "+" rest => (false, rest)
    | _ => (false, s)
    end in
  match s1 with
  | String c _ =>
      if is_digit c then
        match read_digits 0 s1 with
        | (n, EmptyString) => Some (if neg then (- Z.of_N n)%Z else Z.of_N n)
        | _ => None
        end
      else None
  | EmptyString => None
  end.

(** The conversions to int the reference instance makes: a bool is 0
    or 1 and a string of decimal digits is its number; the other
    spellings pydantic reads (white space around the digits,
    underscores, a zero fraction) are refused. *)
Definition to_int (v : PyVal) : option Z :=
  match v with
  | VBool b => Some (if b then 1 else 0)%Z
  | VStr s => int_of_numeric s
  | _ => None
  end.

#[export] Instance codec : WireCodec :=
  {| b64encode := encode; b64decode := decode;
     json_dumps := print; json_loads := parse; lax_int := to_int |}.

End RefCodec.

(* ===================================================================== *)
(** * facilitator.py: the polling loop *)
(* ===================================================================== *)

Module EventLoop.
Import Facilitator.

(** The facilitator together with the local [last_block] of
    [_run_event_loop]. *)
Record Loop := {
  facilitator : State;
  last_block : Z }.

(** The first line of [_run_event_loop]; an exception of
    [get_block_number] here leaves [start]. *)
Definition enter (L : Ledger) (st : State) : option Loop :=
  match block_number L (height_reads st) with
  | Some current_block =>
      Some {| facilitator := with_height_reads (S (height_reads st)) st;
              last_block := current_block |}
  | None => None
  end.

(** One turn of the [while] loop, with the block range it hands to
    [_process_blocks], if any.  [_process_blocks] catches what its
    filters raise, so [last_block] moves whenever it was called; an
    exception of [get_block_number] or of [_check_finality] ends the
    turn where it occurs.  The two sleeps change nothing. *)
Definition iteration (L : Ledger) (lp : Loop) : Loop * option (Z * Z) :=
  let st := facilitator lp in
  let st0 := with_height_reads (S (height_reads st)) st in
  match block_number L (height_reads st) with
  | None => ({| facilitator := st0; last_block := last_block lp |}, None)
  | Some current_block =>
      if decide (current_block > last_block lp) then
        ({| facilitator :=
              _check_finality L
                (_process_blocks L (last_block lp + 1) current_block st0);
            last_block := current_block |},
         Some (last_block lp + 1, current_block))
      else
        ({| facilitator := _check_finality L st0; last_block := last_block lp |},
         None)
  end.

(** [n] turns of the loop, with the block ranges processed, oldest
    first. *)
Fixpoint iterations (L : Ledger) (n : nat) (lp : Loop) : Loop * list (Z * Z) :=
  match n with
  | O => (lp, [])
  | S n' =>
      let '(lp1, w) := iteration L lp in
      let '(lp2, ws) := iterations L n' lp1 in
      (lp2, match w with Some r => r :: ws | None => ws end)
  end.

End EventLoop.

(* ===================================================================== *)
(** * server.py: the quote, the route and the status lookup *)
(* ===================================================================== *)

Module ServerEndpoints.

(** The addresses the handlers read from [config] and from
    [seller_account], which [init_server] has set. *)
Record Config := {
  seller_address : string;
  YIELD_POOL_SHARE_ADDRESS : string;
  SETTLEMENT_VAULT_ADDRESS : string;
  MOCK_USDC_ADDRESS : string }.

(** The body [create_x402_response] builds. *)
Record PaymentRequiredBody := {
  error : string;
  message : string;
  payment_requirement : X402PaymentRequirement.t }.

(** [create_x402_response] of x402_types.py: body, status code and
    headers. *)
Definition create_x402_response (payment_requirement : X402PaymentRequirement.t)
  : PaymentRequiredBody * Z * list (string * string) :=
  let headers :=
    [ ("Content-Type", "application/json");
      ("WWW-Authenticate",
       "x402 realm=" +:+ String (ascii_of_nat 34)
         ("OTC Asset Purchase" +:+ String (ascii_of_nat 34) EmptyString));
      ("X-Payment-Required", "true") ]%string in
  let response_body :=
    {| error := "Payment Required";
       message := "Payment required to access this resource";
       payment_requirement := payment_requirement |} in
  (response_body, 402, headers).

(** [handle_payment_required]; [None] when a float operation of the
    quote or of the log line, or the date arithmetic of the deadline,
    raises, which leaves the handler. *)
Definition handle_payment_required (cfg : Config) (clock : Datetime.Clock)
    (asset_amount : Z)
  : option (PaymentRequiredBody * Z * list (string * string)) :=
  let price_per_unit_usdc := PyFloat.lit_1_10 in
  payment_req ←
    X402Types.create_x402_payment_requirement clock asset_amount price_per_unit_usdc
      (seller_address cfg) (YIELD_POOL_SHARE_ADDRESS cfg)
      (SETTLEMENT_VAULT_ADDRESS cfg) (MOCK_USDC_ADDRESS cfg) 3600;
  let '(response_body, status_code, headers) := create_x402_response payment_req in
  (* the log line divides the required amount by 10**6 *)
  _ ← PyFloat.int_truediv (X402PaymentRequirement.required_amount payment_req) (10 ^ 6);
  Some (response_body, status_code, headers).

(** [SettlementRequest], the body of a POST. *)
Record SettlementRequest := {
  sr_asset_amount : Z;
  sr_client_address : string;
  sr_max_eurc_payment : option Z }.

Inductive Method := GET | POST.

(** What [buy_asset] reads of a request: the method, the [amount]
    query parameter, the [X-PAYMENT] header and, for a POST, the body
    as the [SettlementRequest] built from [request.get_json()] ([None]
    when that raises). *)
Record Request := {
  method : Method;
  amount : option string;
  x_payment : option string;
  json_body : option SettlementRequest }.

(** The answers of [buy_asset]. *)
Inductive Answer :=
| MissingAmount
    (** 400, the amount parameter is missing *)
| InvalidAmount
    (** 400, the amount parameter is not an int *)
| InvalidRequest
    (** 400, the body is not a settlement request *)
| PaymentRequired
    (quote : option (PaymentRequiredBody * Z * list (string * string)))
    (** the answer of [handle_payment_required] *)
| PaymentSubmitted (r : Server.Response).
    (** the answer of [handle_payment_submitted] *)

(** Python's truth test on an optional string: [None] and the empty
    string are false. *)
Definition truthy (s : option string) : option string :=
  match s with
  | Some EmptyString | None => None
  | Some t => Some t
  end.

(** [buy_asset]; [int_of_str] is Python's [int] on a string, [None]
    for ValueError. *)
Definition buy_asset `{WireCodec} (int_of_str : string -> option Z)
    (cfg : Config) (env : Server.Env) (clock : Datetime.Clock)
    (active_settlements : gmap string Server.ActiveSettlement) (request : Request)
  : Answer * gmap string Server.ActiveSettlement :=
  match method request with
  | GET =>
      match truthy (amount request) with
      | None => (MissingAmount, active_settlements)
      | Some asset_amount_str =>
          match int_of_str asset_amount_str with
          | None => (InvalidAmount, active_settlements)
          | Some asset_amount =>
              match truthy (x_payment request) with
              | None =>
                  (PaymentRequired (handle_payment_required cfg clock asset_amount),
                   active_settlements)
              | Some payment_header =>
                  let '(r, store) :=
                    Server.handle_payment_submitted env active_settlements
                      asset_amount payment_header in
                  (PaymentSubmitted r, store)
              end
          end
      end
  | POST =>
      match json_body request with
      | None => (InvalidRequest, active_settlements)
      | Some settlement_request =>
          match truthy (x_payment request) with
          | None =>
              (PaymentRequired
                 (handle_payment_required cfg clock (sr_asset_amount settlement_request)),
               active_settlements)
          | Some payment_header =>
              let '(r, store) :=
                Server.handle_payment_submitted env active_settlements
                  (sr_asset_amount settlement_request) payment_header in
              (PaymentSubmitted r, store)
          end
      end
  end.

(** The answers of [get_settlement]. *)
Inductive Found (Data : Type) :=
| Stored (r : Server.ActiveSettlement)
    (** 200 with the entry of [active_settlements] *)
| OnChain (settlement_id : string) (data : Data)
    (** 200 with status "on-chain" and what the vault returned *)
| NotFound.
    (** 404, error "Settlement not found" *)
Arguments Stored {Data} _.
Arguments OnChain {Data} _ _.
Arguments NotFound {Data}.

(** [get_settlement]; [getSettlement] is the call of the vault on
    [bytes.fromhex(settlement_id[2:])], [None] when the conversion or
    the call raises. *)
Definition get_settlement {Data : Type} (getSettlement : string -> option Data)
    (active_settlements : gmap string Server.ActiveSettlement)
    (settlement_id : string) : Found Data :=
  match active_settlements !! settlement_id with
  | None =>
      match getSettlement (str_from 2 settlement_id) with
      | Some settlement_data => OnChain settlement_id settlement_data
      | None => NotFound
      end
  | Some r => Stored r
  end.

End ServerEndpoints.

(* ===================================================================== *)
(** * client.py *)
(* ===================================================================== *)

Module Client.

(** [x / y] on two floats: ZeroDivisionError for a zero divisor;
    otherwise the IEEE quotient, infinities and NaN included. *)
Definition truediv (x y : spec_float) : option spec_float :=
  match y with
  | S754_zero _ => None
  | _ => Some (SFdiv PyFloat.prec PyFloat.emax x y)
  end.

(** The literal [1.15]: the double nearest to 115/100. *)
Definition lit_1_15 : spec_float := S754_finite false 5179139571476070 (-52).

(** What [buy_asset] takes from outside: the account and the token
    address, the answer of [_request_payment_requirements] ([None]
    when no requirement came back), whether [datetime.fromtimestamp]
    accepts a timestamp, the rate [_get_eur_usd_rate] returns (a float,
    as the rate source and the default 1.10 give), the balance
    ([None] when the call raises), the wall clock read on line 88,
    the signature as [(v, r.hex(), s.hex())]
    ([None] when signing raises), [int(time.time())], and the HTTP
    request of [_submit_payment], which gives the JSON object of a 200
    answer and [None] for any other status or an exception. *)
Record Env := {
  address : string;
  MOCK_EURC_ADDRESS : string;
  request_payment_requirements : Z -> option X402PaymentRequirement.t;
  fromtimestamp_ok : Z -> bool;
  eur_usd_rate : spec_float;
  get_balance : option Z;
  clock : Datetime.Clock;
  create_permit_signature : Z -> Z -> option (Z * string * string);
  time_time : Z;
  http_get : Z -> string -> option (list (string * PyVal)) }.

(** Lines 69-74: the budget the client offers when the caller gives
    none; [None] when a float operation raises. *)
Definition default_budget (required_amount : Z) (eur_usd_rate : spec_float)
  : option Z :=
  required_usdc ← PyFloat.int_truediv required_amount (10 ^ 6);
  required_eurc ← truediv required_usdc eur_usd_rate;
  let max_eurc_with_buffer := PyFloat.mul required_eurc lit_1_15 in
  scaled ← PyFloat.mul_int max_eurc_with_buffer (10 ^ 6);
  PyFloat.to_int scaled.

(** [PermitSignature(deadline, v, r, s).model_dump()]. *)
Definition permit_signature_dump (deadline v : Z) (r s : string)
  : list (string * PyVal) :=
  [ ("deadline", VInt deadline); ("v", VInt v);
    ("r", VStr r); ("s", VStr s) ]%string.

(** Lines 110-117: the proof the client builds. *)
Definition payment_proof (env : Env) (max_eurc_budget deadline v : Z) (r s : string)
  : X402PaymentProof.t :=
  {| X402PaymentProof.version := "1.0";
     X402PaymentProof.client_address := address env;
     X402PaymentProof.payment_token := MOCK_EURC_ADDRESS env;
     X402PaymentProof.payment_token_symbol := "MockEURC";
     X402PaymentProof.max_payment_amount := max_eurc_budget;
     X402PaymentProof.permit_signature := permit_signature_dump deadline v r s;
     X402PaymentProof.timestamp := time_time env;
     X402PaymentProof.settlement_id := None |}.

(** [_submit_payment]: the header is built and sent; anything but a
    200 answer raises. *)
Definition _submit_payment `{WireCodec} (env : Env) (asset_amount : Z)
    (payment_proof : X402PaymentProof.t) : option (list (string * PyVal)) :=
  let payment_header := X402Types.create_x402_payment_header payment_proof in
  http_get env asset_amount payment_header.

(** Whether [d.get(k, 0) / 10**6] of the closing messages succeeds. *)
Definition amount_prints (k : string) (d : list (string * PyVal)) : bool :=
  match dict_get k d with
  | None | Some (VBool _) => true
  | Some (VInt n) => bool_decide (is_Some (PyFloat.int_truediv n (10 ^ 6)))
  | Some _ => false
  end.

(** [buy_asset]: the settlement result, or [None] when an exception
    leaves the method. *)
Definition buy_asset `{WireCodec} (env : Env) (asset_amount : Z)
    (max_eurc_budget : option Z) : option (list (string * PyVal)) :=
  _ ← PyFloat.int_truediv asset_amount (10 ^ 18);
  payment_req ← request_payment_requirements env asset_amount;
  let required_amount := X402PaymentRequirement.required_amount payment_req in
  required_usdc ← PyFloat.int_truediv required_amount (10 ^ 6);
  if negb (fromtimestamp_ok env (X402PaymentRequirement.payment_deadline payment_req))
  then None
  else
    required_eurc ← truediv required_usdc (eur_usd_rate env);
    let max_eurc_with_buffer := PyFloat.mul required_eurc lit_1_15 in
    max_eurc_budget ←
      match max_eurc_budget with
      | None => scaled ← PyFloat.mul_int max_eurc_with_buffer (10 ^ 6);
                PyFloat.to_int scaled
      | Some budget => Some budget
      end;
    _ ← PyFloat.int_truediv max_eurc_budget (10 ^ 6);
    eurc_balance ← get_balance env;
    _ ← PyFloat.int_truediv eurc_balance (10 ^ 6);
    if eurc_balance <? max_eurc_budget then None
    else
      (* timedelta(hours=1) is timedelta(seconds=3600) *)
      deadline ← Datetime.now_plus (clock env) 3600;
      '(v, r, s) ← create_permit_signature env max_eurc_budget deadline;
      if negb (fromtimestamp_ok env deadline) then None
      else
        let proof := payment_proof env max_eurc_budget deadline v r s in
        settlement_result ← _submit_payment env asset_amount proof;
        if amount_prints "required_usdc" settlement_result
           && amount_prints "max_eurc" settlement_result
        then Some settlement_result
        else None.

End Client.

(* ===================================================================== *)
(** * Concrete ledgers, entries and proofs used in the examples *)
(* ===================================================================== *)

Module Examples.
Import Facilitator.

(** A ledger on which every transaction gets the receipt status
    [status], the chain stands at block [height], ten confirmations are
    required and the three filters return the given entries. *)
Definition ledger (status height : Z)
    (cs : list (Entry SettlementCreatedArgs))
    (ps : list (Entry FundsPulledArgs))
    (vs : list (Entry VaultFundedArgs)) : Ledger :=
  {| FINALITY_CONFIRMATIONS := 10;
     transact := fun _ _ => Receipt status;
     block_number := fun _ => Some height;
     time_time := fun _ => 1700000000;
     settlement_created_entries := fun _ _ => Some cs;
     funds_pulled_entries := fun _ _ => Some ps;
     vault_funded_entries := fun _ _ => Some vs |}.

(** The same, except that every [executeSettlement] is mined and fails. *)
Definition ledger_settlement_reverts (height : Z) : Ledger :=
  {| FINALITY_CONFIRMATIONS := 10;
     transact := fun _ c => match c with
                            | executeSettlement _ => Receipt 0
                            | _ => Receipt 1
                            end;
     block_number := fun _ => Some height;
     time_time := fun _ => 1700000000;
     settlement_created_entries := fun _ _ => Some [];
     funds_pulled_entries := fun _ _ => Some [];
     vault_funded_entries := fun _ _ => Some [] |}.

(** The three entries of a settlement: 50 asset units for 55 USDC, at
    most 60 EURC. *)
Definition created_entry (settlement_id : string) (b i : Z)
  : Entry SettlementCreatedArgs :=
  {| args := {| sc_settlementId := settlement_id; sc_client := "0xc1";
                sc_seller := "0x5e"; sc_assetToken := "0xa5";
                sc_assetAmount := 50 * 10 ^ 18;
                sc_requiredUSDC := 55 * 10 ^ 6; sc_maxEURC := 60 * 10 ^ 6 |};
     blockNumber := b; logIndex := i |}.

Definition pulled_entry (settlement_id : string) (b i : Z) : Entry FundsPulledArgs :=
  {| args := {| fp_settlementId := settlement_id; fp_eurcAmount := 60 * 10 ^ 6;
                fp_assetAmount := 50 * 10 ^ 18 |};
     blockNumber := b; logIndex := i |}.

Definition funded_entry (settlement_id : string) (b i : Z) : Entry VaultFundedArgs :=
  {| args := {| vf_settlementId := settlement_id; vf_client := "0xc1";
                vf_usdcAmount := 55 * 10 ^ 6; vf_blockNumber := b |};
     blockNumber := b; logIndex := i |}.

Definition created_aa : Z -> Z -> Entry SettlementCreatedArgs := created_entry "0xaa".
Definition pulled_aa : Z -> Z -> Entry FundsPulledArgs := pulled_entry "0xaa".
Definition funded_aa : Z -> Z -> Entry VaultFundedArgs := funded_entry "0xaa".

(** The settlement record of [0xaa] as created at block [b]. *)
Definition settlement_aa (s : Status) (b : Z) : Settlement :=
  {| client := "0xc1"; seller := "0x5e"; asset_token := "0xa5";
     asset_amount := 50 * 10 ^ 18; required_usdc := 55 * 10 ^ 6;
     max_eurc := 60 * 10 ^ 6; status := s; block := b;
     funded_block := None; funded_at := None |}.

Definition swap_aa : Call := executeSwap "0xaa" (60 * 10 ^ 6) (55 * 10 ^ 6).

(** A payment proof offering [amount] EURC with a permit that expires
    at [deadline]. *)
Definition proof_of (amount deadline : Z) (sig_extra : list (string * PyVal))
  : X402PaymentProof.t :=
  {| X402PaymentProof.version := "1.0";
     X402PaymentProof.client_address := "0xc1";
     X402PaymentProof.payment_token := "0xe0";
     X402PaymentProof.payment_token_symbol := "MockEURC";
     X402PaymentProof.max_payment_amount := amount;
     X402PaymentProof.permit_signature :=
       [("deadline", VInt deadline); ("v", VInt 27);
        ("r", VStr "0xab"); ("s", VStr "0xcd")]%string ++ sig_extra;
     X402PaymentProof.timestamp := 1700000000;
     X402PaymentProof.settlement_id := None |}.

(** The double 1.0. *)
Definition float_one : spec_float := S754_finite false 4503599627370496 (-52).

(** The clock of a machine on UTC that stands at the whole second [t]:
    the UTC offset never changes, so the sum is exact; dates are
    supported from the second day of year 1 to the end of year 9999. *)
Definition utc_clock (t : Z) : Datetime.Clock :=
  {| Datetime.now := t;
     Datetime.now_plus := fun s =>
       if decide (-62135510400 <= t + s <= 253402300799) then Some (t + s)
       else None |}.

(** The JSON object of the proof [proof_of 133100000 1800000000 []]
    with the amount written as a string of digits. *)
Definition proof_with_string_amount : Json :=
  JObj [ ("version", JStr "1.0"); ("client_address", JStr "0xc1");
         ("payment_token", JStr "0xe0"); ("payment_token_symbol", JStr "MockEURC");
         ("max_payment_amount", JStr "133100000");
         ("permit_signature",
          JObj [ ("deadline", JInt 1800000000); ("v", JInt 27);
                 ("r", JStr "0xab"); ("s", JStr "0xcd") ]);
         ("timestamp", JInt 1700000000); ("settlement_id", JNull) ]%string.

(** The header a client sends for a JSON object of its own making. *)
Definition header_of_json (j : Json) : string :=
  ("x402 " +:+ RefCodec.encode (RefCodec.print j))%string.

(** A server whose settlement creation always yields the id [0xaa]. *)
Definition server_env : Server.Env :=
  {| Server.create_settlement := fun _ _ _ _ => Some "0xaa"%string;
     Server.time_time := 1700000000 |}.

End Examples.

Module Scenarios.

Definition config : ServerEndpoints.Config :=
  {| ServerEndpoints.seller_address := "0x5e";
     ServerEndpoints.YIELD_POOL_SHARE_ADDRESS := "0xa5";
     ServerEndpoints.SETTLEMENT_VAULT_ADDRESS := "0x7a";
     ServerEndpoints.MOCK_USDC_ADDRESS := "0xdc" |}.


(** A client holding 200 EURC that is quoted 110 USDC and gets the
    answer of the server for whatever it sends. *)
Definition client_env : Client.Env :=
  {| Client.address := "0xc1";
     Client.MOCK_EURC_ADDRESS := "0xe0";
     Client.request_payment_requirements := fun asset_amount =>
       X402Types.create_x402_payment_requirement (Examples.utc_clock 1700000000)
         asset_amount PyFloat.lit_1_10 "0x5e" "0xa5" "0x7a" "0xdc" 3600;
     Client.fromtimestamp_ok := fun _ => true;
     Client.eur_usd_rate := PyFloat.lit_1_10;
     Client.get_balance := Some (200 * 10 ^ 6);
     Client.clock := Examples.utc_clock 1700000000;
     Client.create_permit_signature := fun _ _ => Some (27, "ab", "cd")%string;
     Client.time_time := 1700000000;
     Client.http_get := fun _ _ =>
       Some [("settlement_id", VStr "0xaa"); ("status", VStr "created");
             ("required_usdc", VInt 110000000);
             ("max_eurc", VInt 133100000)]%string |}.

End Scenarios.

(* ===================================================================== *)
(** * Notions used in the proofs *)
(* ===================================================================== *)

Import Facilitator.

(** [finalizes ids st st']: from [st] to [st'] nothing moved but the
    status of settlements among [ids], set to [settled], and the calls
    sent, all about settlements among [ids]. *)
Definition finalizes (ids : list string) (st st' : State) : Prop :=
  pending_settlements st' = pending_settlements st /\
  funded_order st' = funded_order st /\
  clock_reads st' = clock_reads st /\
  (forall i,
      funded_settlements st' !! i = funded_settlements st !! i \/
      (i ∈ ids /\ exists r, funded_settlements st !! i = Some r /\
                           funded_settlements st' !! i = Some (set_status settled r))) /\
  exists cs, sent st' = sent st ++ cs /\ Forall (fun c => call_id c ∈ ids) cs.

(** What holds of the registry after a run that has seen the creation
    of the settlements [seen]: a pending settlement is at [created] or
    [funds_pulled], a funded one at [funded] or [settled], no id is in
    both maps, and every id held was seen created. *)
Record well_tracked (seen : list string) (st : State) : Prop := {
  wt_pending : forall i r, pending_settlements st !! i = Some r ->
                           (rank (status r) <= 1)%nat /\ i ∈ seen;
  wt_funded : forall i r, funded_settlements st !! i = Some r ->
                          (2 <= rank (status r))%nat /\ i ∈ seen;
  wt_disjoint : forall i r, pending_settlements st !! i = Some r ->
                            funded_settlements st !! i = None }.

(** The creation entries a run observes for settlement [i]. *)
Definition creations_of (i : string) (steps : list Step) : list string :=
  filter (fun j => j = i) (created_ids steps).

(** What holds of settlement [i] after a run that has observed [n]
    creation entries for it, [n] being 0 or 1: held pending, it is at
    [created] or [funds_pulled] and not held funded; held funded, it
    is at [funded] or [settled]; and it is held only once its creation
    has been observed. *)
Record tracked_once (i : string) (n : nat) (st : State) : Prop := {
  to_pending : forall r, pending_settlements st !! i = Some r ->
                         (rank (status r) <= 1)%nat /\
                         funded_settlements st !! i = None /\ (1 <= n)%nat;
  to_funded : forall r, funded_settlements st !! i = Some r ->
                        (2 <= rank (status r))%nat /\ (1 <= n)%nat }.

(** Two entries commute when the order in which they are handled makes
    no difference to the state. *)
Definition commute (L : Ledger) (e e' : Event) : Prop :=
  forall st, handle_event L (handle_event L st e) e'
             = handle_event L (handle_event L st e') e.

(** The entries of a sequence with the creations first, then the funds
    pulled, then the vault fundings, each kind in the order of the
    sequence. *)
Definition grouped (w : list Event) : list Event :=
  map SettlementCreated (created_of w) ++ map FundsPulled (pulled_of w)
  ++ map VaultFunded (funded_of w).

(** The entries of one stage of the lifecycle. *)
Definition of_kind (n : nat) (e : Event) : bool := (kind e =? n)%nat.

(** [e] is not after [e'] on the chain. *)
Definition not_after (e e' : Event) : Prop :=
  Spec.position_leb (position e) (position e') = true.

(** A sequence is in position order when sorting it changes nothing. *)
Definition in_position_order (l : list Event) : Prop := Spec.sort_events l = l.

(** Lines 90-92 of [create_x402_payment_requirement]. *)
Definition required_usdc_smallest (asset_amount : Z) (price : spec_float) : option Z :=
  asset_human ← PyFloat.int_truediv asset_amount (10 ^ 18);
  scaled ← PyFloat.mul_int (PyFloat.mul asset_human price) (10 ^ 6);
  PyFloat.to_int scaled.

(** The requirement for [k] whole units at price 1.10 is the exact
    amount, [k * 1.10 * 10^6]. *)
Definition whole_units_exact (k : Z) : bool :=
  match required_usdc_smallest (k * 10 ^ 18) PyFloat.lit_1_10 with
  | Some n =>
      (n =? 1100000 * k)
      && (n =? Spec.required_amount_exact (k * 10 ^ 18) PyFloat.lit_1_10)
  | None => false
  end.

(** The block ranges [ws] follow one another without gap or overlap
    from just after block [from] up to block [to]. *)
Fixpoint chained (from : Z) (ws : list (Z * Z)) (to : Z) : Prop :=
  match ws with
  | [] => to = from
  | (a, b) :: rest => a = from + 1 /\ a <= b /\ chained b rest to
  end.

(** The ranges of [ws] that hold block [h]. *)
Definition covering (h : Z) (ws : list (Z * Z)) : list (Z * Z) :=
  filter (fun w => fst w <= h <= snd w) ws.

(** [finality_calls L s s']: the log [s'] is [s] followed by calls of
    [_finalize_settlement] only: a [confirmFinality], or a
    [confirmFinality] mined with status 1 and then the
    [executeSettlement] of the same settlement. *)
Inductive finality_calls (L : Ledger) (s : list Call) : list Call -> Prop :=
| finality_calls_none : finality_calls L s s
| finality_calls_confirm s' i :
    finality_calls L s s' ->
    finality_calls L s (s' ++ [confirmFinality i])
| finality_calls_settle s' i :
    finality_calls L s s' ->
    transact L s' (confirmFinality i) = Receipt 1 ->
    finality_calls L s ((s' ++ [confirmFinality i]) ++ [executeSettlement i]).

(** Every [executeSettlement] of the log comes right after a
    [confirmFinality] of the same settlement that was mined with
    status 1. *)
Definition settlement_guarded (L : Ledger) (s : list Call) : Prop :=
  forall before i after,
    s = before ++ executeSettlement i :: after ->
    exists l0, before = l0 ++ [confirmFinality i] /\
               transact L l0 (confirmFinality i) = Receipt 1.

(** The bounds of a swap are those of a creation entry the run has
    observed for the same settlement. *)
Definition swap_of_creation (steps : list Step) (c : Call) : Prop :=
  match c with
  | executeSwap i eurc_amount min_usdc_out =>
      exists event,
        Observe (SettlementCreated event) ∈ steps /\
        sc_settlementId (args event) = i /\
        eurc_amount = sc_maxEURC (args event) /\
        min_usdc_out = sc_requiredUSDC (args event)
  | _ => True
  end.

(** What holds of the facilitator's state after the run [steps] from
    [init], whatever the ledger answers. *)
Record traced (L : Ledger) (steps : list Step) (st : State) : Prop := {
  tr_pending : forall i r, pending_settlements st !! i = Some r ->
    (rank (status r) <= 1)%nat /\ funded_block r = None /\
    exists event,
      Observe (SettlementCreated event) ∈ steps /\
      sc_settlementId (args event) = i /\
      max_eurc r = sc_maxEURC (args event) /\
      required_usdc r = sc_requiredUSDC (args event);
  tr_funded : forall i r, funded_settlements st !! i = Some r ->
    (2 <= rank (status r))%nat /\ is_Some (funded_block r) /\
    i ∈ created_ids steps;
  tr_order : NoDup (funded_order st) /\
    forall i, i ∈ funded_order st <-> is_Some (funded_settlements st !! i);
  tr_ids : Forall (fun c => call_id c ∈ created_ids steps) (sent st);
  tr_swaps : Forall (swap_of_creation steps) (sent st);
  tr_guarded : settlement_guarded L (sent st) }.

(** For [k] whole units bought at the fallback rate 1.10: the budget
    the client computes from the server's quote is below the amount
    the server asks of a proof. *)
Definition default_budget_falls_short (k : Z) : bool :=
  match Server.required_amounts (k * 10 ^ 18) with
  | Some (required_usdc, max_eurc) =>
      match Client.default_budget required_usdc PyFloat.lit_1_10 with
      | Some budget =>
          (budget <? max_eurc)
          && bool_decide (is_Some (PyFloat.int_truediv budget (10 ^ 6)))
      | None => false
      end
  | None => false
  end.







(* ===================================================================== *)
(** * Properties *)
(* ===================================================================== *)

(** ** Finality gating *)

Lemma is_block_finalized_spec N cur B c :
  Web3Utils.is_block_finalized N cur B c = true <-> cur - B >= default N c.
Proof.
  unfold Web3Utils.is_block_finalized. rewrite Z.geb_le. lia.
Qed.

Lemma settlements_to_finalize_steady L fs cur ids k :
  (forall n, block_number L n = Some cur) ->
  (forall i r, i ∈ ids -> fs !! i = Some r -> status r = funded ->
               is_Some (funded_block r)) ->
  exists k', settlements_to_finalize L fs ids k
             = (Some (filter (fun i => eligible (FINALITY_CONFIRMATIONS L) cur fs i = true) ids), k').
Proof.
  intros Hcur. revert k. induction ids as [|i ids IH]; intros k Hwf.
  - exists k. reflexivity.
  - assert (Hwf' : forall j r, j ∈ ids -> fs !! j = Some r -> status r = funded ->
                               is_Some (funded_block r)).
    { intros j r Hj. apply Hwf. by right. }
    cbn [settlements_to_finalize]. rewrite filter_cons.
    destruct (fs !! i) as [r|] eqn:Hi.
    + destruct (decide (status r = funded)) as [Hs|Hs].
      * destruct (Hwf i r ltac:(by left) Hi Hs) as [B HB]. rewrite HB, Hcur.
        destruct (IH (S k) Hwf') as [k' ->]. exists k'.
        assert (He : eligible (FINALITY_CONFIRMATIONS L) cur fs i
                     = (cur - B >=? FINALITY_CONFIRMATIONS L)).
        { unfold eligible. rewrite Hi, HB, (bool_decide_eq_true_2 _ Hs). cbn [andb].
          destruct (cur - B >=? FINALITY_CONFIRMATIONS L) eqn:Hge.
          - apply bool_decide_eq_true. apply Z.geb_le in Hge. lia.
          - apply bool_decide_eq_false. intros Hc.
            apply Z.ge_le, Z.geb_le in Hc. congruence. }
        unfold Web3Utils.is_block_finalized. cbn [default]. rewrite He.
        destruct (cur - B >=? FINALITY_CONFIRMATIONS L).
        -- rewrite decide_True by done. reflexivity.
        -- rewrite decide_False by done. reflexivity.
      * destruct (IH k Hwf') as [k' ->]. exists k'.
        assert (He : eligible (FINALITY_CONFIRMATIONS L) cur fs i = false).
        { unfold eligible. rewrite Hi. destruct (funded_block r); [|done].
          by rewrite (bool_decide_eq_false_2 _ Hs). }
        rewrite He. rewrite decide_False by done. reflexivity.
    + destruct (IH k Hwf') as [k' ->]. exists k'.
      assert (He : eligible (FINALITY_CONFIRMATIONS L) cur fs i = false).
      { unfold eligible. by rewrite Hi. }
      rewrite He. rewrite decide_False by done. reflexivity.
Qed.

(** C5.  A block [B] counts as final exactly when
    [current_block - B >= N]: not while the difference is below [N],
    and from the moment it equals [N]; and when the height stands at
    [cur] during a check, [_check_finality] selects exactly the funded
    settlements whose funded block meets that test. *)
Theorem finality_gating (L : Ledger) (fs : gmap string Settlement)
    (ids : list string) (k : nat) (cur B : Z) :
  let N := FINALITY_CONFIRMATIONS L in
  (Web3Utils.is_block_finalized N cur B None = true <-> cur - B >= N) /\
  (cur - B < N -> Web3Utils.is_block_finalized N cur B None = false) /\
  (cur - B = N -> Web3Utils.is_block_finalized N cur B None = true) /\
  ((forall n, block_number L n = Some cur) ->
   (forall i r, i ∈ ids -> fs !! i = Some r -> status r = funded ->
                is_Some (funded_block r)) ->
   forall i, i ∈ default [] (fst (settlements_to_finalize L fs ids k)) <->
             i ∈ ids /\ exists r b, fs !! i = Some r /\ status r = funded /\
                                   funded_block r = Some b /\ cur - b >= N).
Proof.
  intros N. split; [|split; [|split]].
  - apply (is_block_finalized_spec N cur B None).
  - intros Hlt. apply not_true_is_false. rewrite is_block_finalized_spec.
    cbn [default]. lia.
  - intros Heq. rewrite is_block_finalized_spec. cbn [default]. lia.
  - subst N. intros Hcur Hwf i.
    destruct (settlements_to_finalize_steady L fs cur ids k Hcur Hwf) as [k' ->].
    cbn [fst from_option id]. rewrite list_elem_of_filter. unfold eligible.
    split.
    + intros [He Hi]. split; [done|].
      destruct (fs !! i) as [r|] eqn:Hr; [|done].
      destruct (funded_block r) as [b|] eqn:Hb; [|done].
      apply andb_true_iff in He as [H1 H2].
      apply bool_decide_eq_true in H1, H2. by exists r, b.
    + intros [Hi (r & b & Hr & Hs & Hb & Hge)]. split; [|done].
      rewrite Hr, Hb. apply andb_true_iff.
      split; by apply bool_decide_eq_true.
Qed.

(** ** The funds-pulled handler *)

Lemma funds_pulled_pending L st event r :
  pending_settlements st !! fp_settlementId (args event) = Some r ->
  _handle_funds_pulled L st event =
  {| pending_settlements :=
       <[fp_settlementId (args event) := set_status funds_pulled r]>
         (pending_settlements st);
     funded_settlements := funded_settlements st;
     funded_order := funded_order st;
     sent := sent st ++ [executeSwap (fp_settlementId (args event))
                           (max_eurc r) (required_usdc r)];
     height_reads := height_reads st;
     clock_reads := clock_reads st |}.
Proof.
  intros Hr. unfold _handle_funds_pulled, _execute_swap. rewrite Hr.
  cbn [with_pending pending_settlements]. rewrite lookup_insert_eq.
  unfold send_and_wait. cbn.
  destruct (transact L (sent st) _); reflexivity.
Qed.

Lemma funds_pulled_absent L st event :
  pending_settlements st !! fp_settlementId (args event) = None ->
  _handle_funds_pulled L st event = st.
Proof. intros Hr. unfold _handle_funds_pulled. by rewrite Hr. Qed.

Lemma vault_funded_absent L st event :
  pending_settlements st !! vf_settlementId (args event) = None ->
  _handle_vault_funded L st event = st.
Proof. intros Hr. unfold _handle_vault_funded. by rewrite Hr. Qed.

Lemma vault_funded_pending L st event r :
  pending_settlements st !! vf_settlementId (args event) = Some r ->
  _handle_vault_funded L st event =
  {| pending_settlements := delete (vf_settlementId (args event)) (pending_settlements st);
     funded_settlements :=
       <[vf_settlementId (args event) :=
           {| client := client r; seller := seller r; asset_token := asset_token r;
              asset_amount := asset_amount r; required_usdc := required_usdc r;
              max_eurc := max_eurc r; status := funded; block := block r;
              funded_block := Some (vf_blockNumber (args event));
              funded_at := Some (time_time L (clock_reads st)) |}]>
         (funded_settlements st);
     funded_order :=
       match funded_settlements st !! vf_settlementId (args event) with
       | Some _ => funded_order st
       | None => funded_order st ++ [vf_settlementId (args event)]
       end;
     sent := sent st;
     height_reads := height_reads st;
     clock_reads := S (clock_reads st) |}.
Proof. intros Hr. unfold _handle_vault_funded. by rewrite Hr. Qed.

Lemma created_ids_app t1 t2 : created_ids (t1 ++ t2) = created_ids t1 ++ created_ids t2.
Proof.
  induction t1 as [|[[e|e|e]|] t1 IH]; cbn; by rewrite ?IH.
Qed.

(** C9.  Reacting to the funds-pulled entry of a settlement it holds as
    pending, the facilitator sends exactly one transaction, the swap of
    that settlement, with the settlement's [max_eurc] as the amount to
    spend and its [required_usdc] as the least amount to receive. *)
Theorem swap_carries_settlement_bounds (L : Ledger) (st : State)
    (event : Entry FundsPulledArgs) (r : Settlement) :
  pending_settlements st !! fp_settlementId (args event) = Some r ->
  sent (_handle_funds_pulled L st event) =
  sent st ++ [executeSwap (fp_settlementId (args event)) (max_eurc r) (required_usdc r)].
Proof. intros Hr. by rewrite (funds_pulled_pending L st event r Hr). Qed.

Lemma swap_carries_settlement_bounds_witness :
  sent (_handle_funds_pulled (Examples.ledger 1 100 [] [] [])
          (_handle_settlement_created init (Examples.created_aa 5 0))
          (Examples.pulled_aa 6 0))
  = [executeSwap "0xaa" (60 * 10 ^ 6) (55 * 10 ^ 6)].
Proof.
  apply (swap_carries_settlement_bounds (Examples.ledger 1 100 [] [] [])
           (_handle_settlement_created init (Examples.created_aa 5 0))
           (Examples.pulled_aa 6 0) (Examples.settlement_aa created 5)).
  reflexivity.
Defined.

(** C1, as stated, fails: the funds-pulled entry of settlement [0xaa]
    given twice to [_handle_funds_pulled] leaves the status at
    [funds_pulled] but sends the swap a second time. *)
Lemma funds_pulled_twice_swaps_twice :
  let L := Examples.ledger 1 100 [] [] [] in
  let st1 := _handle_funds_pulled L
               (_handle_settlement_created init (Examples.created_aa 5 0))
               (Examples.pulled_aa 6 0) in
  let st2 := _handle_funds_pulled L st1 (Examples.pulled_aa 6 0) in
  status_of st1 "0xaa" = Some funds_pulled /\
  sent st1 = [Examples.swap_aa] /\
  status_of st2 "0xaa" = Some funds_pulled /\
  sent st2 = [Examples.swap_aa; Examples.swap_aa].
Proof. vm_compute. repeat split; reflexivity. Qed.

(** C1, amended.  Giving the same funds-pulled entry to
    [_handle_funds_pulled] a second time leaves the registry as the
    first handling left it, with the settlement at [funds_pulled], and
    sends the swap of the settlement once more with the same bounds;
    a funds-pulled or vault-funded entry for a settlement that is not
    pending (never created, or already funded) changes nothing and
    sends nothing. *)
Theorem funds_pulled_replay (L : Ledger) (st : State) (event : Entry FundsPulledArgs) :
  let settlement_id := fp_settlementId (args event) in
  let st1 := _handle_funds_pulled L st event in
  let st2 := _handle_funds_pulled L st1 event in
  registry st2 = registry st1 /\
  match pending_settlements st !! settlement_id with
  | Some r =>
      pending_settlements st2 !! settlement_id = Some (set_status funds_pulled r) /\
      sent st2 = sent st1 ++ [executeSwap settlement_id (max_eurc r) (required_usdc r)]
  | None =>
      st2 = st /\
      forall e, settlementId e = settlement_id ->
                kind e <> 0%nat -> handle_event L st e = st
  end.
Proof.
  intros id st1 st2. subst st1 st2.
  destruct (pending_settlements st !! id) as [r|] eqn:Hr.
  - rewrite (funds_pulled_pending L st event r Hr).
    rewrite (funds_pulled_pending L _ event (set_status funds_pulled r))
      by (cbn; apply lookup_insert_eq).
    cbn. rewrite insert_insert_eq, lookup_insert_eq. done.
  - rewrite !(funds_pulled_absent L st event Hr). split; [done|]. split; [done|].
    intros [e|e|e] He Hk; cbn in *.
    + done.
    + apply funds_pulled_absent. by rewrite He.
    + apply vault_funded_absent. by rewrite He.
Qed.

(** ** What a finality check can change *)

Lemma set_status_twice s r : set_status s (set_status s r) = set_status s r.
Proof. reflexivity. Qed.

Lemma finalizes_refl ids st : finalizes ids st st.
Proof.
  repeat split; try done; [by left|].
  exists []. split; [by rewrite app_nil_r | constructor].
Qed.

Lemma finalizes_weaken ids ids' st st' :
  ids ⊆ ids' -> finalizes ids st st' -> finalizes ids' st st'.
Proof.
  intros Hsub (Hp & Ho & Hc & Hf & cs & Hs & Hcs).
  repeat split; try done.
  - intros i. destruct (Hf i) as [H|(Hi & r & H1 & H2)]; [by left|].
    right. split; [by apply Hsub|]. by exists r.
  - exists cs. split; [done|]. eapply Forall_impl; [exact Hcs|].
    intros c Hc'. by apply Hsub.
Qed.

Lemma finalizes_trans ids st1 st2 st3 :
  finalizes ids st1 st2 -> finalizes ids st2 st3 -> finalizes ids st1 st3.
Proof.
  intros (Hp & Ho & Hc & Hf & cs & Hs & Hcs) (Hp' & Ho' & Hc' & Hf' & cs' & Hs' & Hcs').
  repeat split; try congruence.
  - intros i.
    destruct (Hf' i) as [H|(Hi & r & H1 & H2)].
    + rewrite H. apply Hf.
    + destruct (Hf i) as [H|(_ & r0 & H3 & H4)].
      * right. split; [done|]. exists r. by rewrite <- H.
      * right. split; [done|]. exists r0. split; [done|].
        rewrite H2. rewrite H4 in H1. by injection H1 as <-.
  - exists (cs ++ cs'). split.
    + by rewrite Hs', Hs, app_assoc.
    + by apply Forall_app.
Qed.

Lemma finalize_settlement_finalizes L st i :
  finalizes [i] st (_finalize_settlement L st i).
Proof.
  assert (Hin : i ∈ [i]) by (by left).
  assert (Hone : forall st', pending_settlements st' = pending_settlements st ->
            funded_order st' = funded_order st -> clock_reads st' = clock_reads st ->
            funded_settlements st' = funded_settlements st ->
            (sent st' = sent st ++ [confirmFinality i] \/
             sent st' = sent st ++ [confirmFinality i; executeSettlement i]) ->
            finalizes [i] st st').
  { intros st' Hp Ho Hc Hf Hs. repeat split; try done.
    - intros j. left. by rewrite Hf.
    - destruct Hs as [Hs|Hs]; eexists; (split; [exact Hs|]); by repeat constructor. }
  unfold _finalize_settlement.
  destruct (funded_settlements st !! i) as [r|] eqn:Hr; [|apply finalizes_refl].
  unfold send_and_wait.
  destruct (transact L (sent st) (confirmFinality i)) as [| |s1];
    [apply Hone; try done; by left..|].
  destruct (decide (s1 = 1)) as [->|]; [|apply Hone; try done; by left].
  cbn [sent].
  destruct (transact L (sent st ++ [confirmFinality i]) (executeSettlement i))
    as [| |s2];
    [apply Hone; try done; right; cbn; by rewrite <- app_assoc..|].
  destruct (decide (s2 = 1)) as [->|];
    [|apply Hone; try done; right; cbn; by rewrite <- app_assoc].
  repeat split; try done.
  - intros j. cbn. destruct (decide (i = j)) as [<-|Hne].
    + right. split; [done|]. exists r. by rewrite lookup_insert_eq.
    + left. by rewrite lookup_insert_ne.
  - exists [confirmFinality i; executeSettlement i].
    split; [by cbn; rewrite <- app_assoc|]. by repeat constructor.
Qed.

Lemma fold_finalize_finalizes L ids st :
  finalizes ids st (fold_left (_finalize_settlement L) ids st).
Proof.
  revert st. induction ids as [|i ids IH]; intros st; [apply finalizes_refl|].
  cbn [fold_left]. eapply finalizes_trans.
  - apply (finalizes_weaken [i]); [|apply finalize_settlement_finalizes].
    intros x Hx. apply list_elem_of_singleton in Hx as ->. by left.
  - apply (finalizes_weaken ids); [|apply IH]. intros x Hx. by right.
Qed.

(** The ids the first loop selects are held with status [funded]. *)
Lemma settlements_to_finalize_funded L fs ids k sel k' :
  settlements_to_finalize L fs ids k = (Some sel, k') ->
  forall i, i ∈ sel -> exists r, fs !! i = Some r /\ status r = funded.
Proof.
  revert k sel k'. induction ids as [|j ids IH]; intros k sel k' H i Hi.
  - cbn in H. injection H as <- <-. by apply not_elem_of_nil in Hi.
  - cbn [settlements_to_finalize] in H.
    destruct (fs !! j) as [r|] eqn:Hj; [|by eapply IH].
    destruct (decide (status r = funded)) as [Hs|]; [|by eapply IH].
    destruct (funded_block r) as [B|]; [|done].
    destruct (block_number L k) as [cur|]; [|done].
    destruct (settlements_to_finalize L fs ids (S k)) as [o k''] eqn:Hrec.
    destruct (Web3Utils.is_block_finalized _ cur B None).
    + destruct o as [sel'|]; [|done]. cbn in H. injection H as <- <-.
      apply elem_of_cons in Hi as [->|Hi]; [by exists r|]. by eapply IH.
    + injection H as -> <-. by eapply IH.
Qed.

Lemma check_finality_finalizes L st :
  exists sel,
    (forall i, i ∈ sel ->
               exists r, funded_settlements st !! i = Some r /\ status r = funded) /\
    finalizes sel st (_check_finality L st).
Proof.
  unfold _check_finality.
  destruct (settlements_to_finalize L (funded_settlements st) (funded_order st)
              (height_reads st)) as [[sel|] k] eqn:Hscan.
  - exists sel. split; [by eapply settlements_to_finalize_funded|].
    eapply finalizes_trans; [|apply fold_finalize_finalizes].
    repeat split; try done; [by left|].
    exists []. split; [by rewrite app_nil_r | constructor].
  - exists []. split; [intros i Hi; by apply not_elem_of_nil in Hi|].
    repeat split; try done; [by left|].
    exists []. split; [by rewrite app_nil_r | constructor].
Qed.

(** ** Finalization happens once it has succeeded *)

Lemma calls_for_none (i : string) (sel : list string) (cs : list Call) :
  i ∉ sel -> Forall (fun c => call_id c ∈ sel) cs -> calls_for i cs = [].
Proof.
  intros Hi. induction 1 as [|c cs Hc _ IH]; [done|].
  unfold calls_for in *. rewrite filter_cons, IH.
  rewrite decide_False; [done|]. intros <-. done.
Qed.

Lemma check_finality_settled L st i r :
  funded_settlements st !! i = Some r -> status r = settled ->
  funded_settlements (_check_finality L st) !! i = Some r /\
  calls_for i (sent (_check_finality L st)) = calls_for i (sent st).
Proof.
  intros Hr Hs.
  destruct (check_finality_finalizes L st)
    as (sel & Hsel & _ & _ & _ & Hf & cs & Hsent & Hcs).
  assert (Hi : i ∉ sel).
  { intros Hi. destruct (Hsel i Hi) as (r' & Hr' & Hs'). congruence. }
  split.
  - destruct (Hf i) as [H|(Hi' & _)]; [congruence|done].
  - rewrite Hsent. unfold calls_for. rewrite filter_app.
    fold (calls_for i cs). rewrite (calls_for_none i sel cs Hi Hcs).
    by rewrite app_nil_r.
Qed.

(** A settled settlement that is no longer pending stays as it is, and
    nothing more is sent for it, through every step that is not a new
    observation of its creation. *)
Lemma step_after_settled L st s i r :
  i ∉ created_ids [s] ->
  pending_settlements st !! i = None ->
  funded_settlements st !! i = Some r -> status r = settled ->
  pending_settlements (step L st s) !! i = None /\
  funded_settlements (step L st s) !! i = Some r /\
  calls_for i (sent (step L st s)) = calls_for i (sent st).
Proof.
  intros Hnew Hp Hr Hs. destruct s as [[c|p|v]|]; cbn [step handle_event].
  - assert (Hne : sc_settlementId (args c) <> i).
    { intros Heq. apply Hnew. cbn. rewrite Heq. by left. }
    cbn. by rewrite lookup_insert_ne.
  - destruct (pending_settlements st !! fp_settlementId (args p)) as [r'|] eqn:Hr'.
    + assert (Hne : fp_settlementId (args p) <> i) by congruence.
      rewrite (funds_pulled_pending L st p r' Hr'). cbn.
      rewrite lookup_insert_ne by done. split; [done|]. split; [done|].
      unfold calls_for. rewrite filter_app, filter_cons, filter_nil. cbn.
      rewrite decide_False by done. by rewrite app_nil_r.
    + by rewrite (funds_pulled_absent L st p Hr').
  - destruct (pending_settlements st !! vf_settlementId (args v)) as [r'|] eqn:Hr'.
    + assert (Hne : vf_settlementId (args v) <> i) by congruence.
      rewrite (vault_funded_pending L st v r' Hr'). cbn.
      by rewrite lookup_delete_ne, lookup_insert_ne.
    + by rewrite (vault_funded_absent L st v Hr').
  - destruct (check_finality_settled L st i r Hr Hs) as [H1 H2].
    split; [|done].
    destruct (check_finality_finalizes L st) as (sel & _ & Hpe & _). by rewrite Hpe.
Qed.

Lemma run_after_settled L steps st i r :
  i ∉ created_ids steps ->
  pending_settlements st !! i = None ->
  funded_settlements st !! i = Some r -> status r = settled ->
  funded_settlements (run L steps st) !! i = Some r /\
  calls_for i (sent (run L steps st)) = calls_for i (sent st).
Proof.
  revert st. induction steps as [|s steps IH]; intros st Hnew Hp Hr Hs; [done|].
  change (s :: steps) with ([s] ++ steps) in Hnew.
  rewrite created_ids_app in Hnew. apply not_elem_of_app in Hnew as [Hnew1 Hnew2].
  destruct (step_after_settled L st s i r Hnew1 Hp Hr Hs) as (Hp' & Hr' & Hc').
  destruct (IH (step L st s) Hnew2 Hp' Hr' Hs) as [H1 H2].
  split; [exact H1|]. cbn [run fold_left]. fold (run L steps (step L st s)).
  by rewrite H2.
Qed.

Lemma finalize_settlement_success L st i r :
  funded_settlements st !! i = Some r ->
  transact L (sent st) (confirmFinality i) = Receipt 1 ->
  transact L (sent st ++ [confirmFinality i]) (executeSettlement i) = Receipt 1 ->
  _finalize_settlement L st i =
  {| pending_settlements := pending_settlements st;
     funded_settlements := <[i := set_status settled r]> (funded_settlements st);
     funded_order := funded_order st;
     sent := (sent st ++ [confirmFinality i]) ++ [executeSettlement i];
     height_reads := height_reads st;
     clock_reads := clock_reads st |}.
Proof.
  intros Hr H1 H2. unfold _finalize_settlement, send_and_wait.
  rewrite Hr, H1. cbn. rewrite H2. reflexivity.
Qed.

Lemma finalize_settlement_failure L st i :
  (transact L (sent st) (confirmFinality i) <> Receipt 1 \/
   transact L (sent st ++ [confirmFinality i]) (executeSettlement i) <> Receipt 1) ->
  registry (_finalize_settlement L st i) = registry st.
Proof.
  intros H. unfold _finalize_settlement, send_and_wait.
  destruct (funded_settlements st !! i) as [r|]; [|done].
  destruct (transact L (sent st) (confirmFinality i)) as [| |s1] eqn:H1; try done.
  destruct (decide (s1 = 1)) as [->|]; [|done]. cbn [sent].
  destruct (transact L (sent st ++ [confirmFinality i]) (executeSettlement i))
    as [| |s2] eqn:H2; try done.
  destruct (decide (s2 = 1)) as [->|]; [|done].
  destruct H; done.
Qed.

(** A call of [_finalize_settlement] for a settlement held funded
    sends its [confirmFinality], and its [executeSettlement] next when
    the first is mined with status 1. *)
Lemma finalize_settlement_sends L st i r :
  funded_settlements st !! i = Some r ->
  exists tail,
    sent (_finalize_settlement L st i) = sent st ++ confirmFinality i :: tail /\
    (transact L (sent st) (confirmFinality i) = Receipt 1 ->
     tail = [executeSettlement i]).
Proof.
  intros Hr. unfold _finalize_settlement, send_and_wait. rewrite Hr.
  destruct (transact L (sent st) (confirmFinality i)) as [| |s1] eqn:H1;
    [by exists []..|].
  destruct (decide (s1 = 1)) as [->|Hne];
    [|exists []; split; [done|]; intros [= ?]; done].
  cbn [sent]. exists [executeSettlement i]. split; [|done].
  destruct (transact L (sent st ++ [confirmFinality i]) (executeSettlement i))
    as [| |s2]; [by cbn; rewrite <- app_assoc..|].
  destruct (decide (s2 = 1)); by cbn; rewrite <- app_assoc.
Qed.

(** The second loop of [_check_finality] reaches every selected
    settlement that is held funded: before its [confirmFinality],
    only calls about other settlements are sent. *)
Lemma fold_finalize_reaches L ids st i r :
  i ∈ ids -> funded_settlements st !! i = Some r ->
  exists before after,
    sent (fold_left (_finalize_settlement L) ids st)
    = sent st ++ before ++ confirmFinality i :: after /\
    Forall (fun c => call_id c <> i) before /\
    (transact L (sent st ++ before) (confirmFinality i) = Receipt 1 ->
     exists after', after = executeSettlement i :: after').
Proof.
  revert st. induction ids as [|j ids IH]; intros st Hin Hr.
  - by apply not_elem_of_nil in Hin.
  - cbn [fold_left]. destruct (decide (j = i)) as [->|Hne].
    + destruct (finalize_settlement_sends L st i r Hr) as (tail & Hs & Hok).
      destruct (fold_finalize_finalizes L ids (_finalize_settlement L st i))
        as (_ & _ & _ & _ & cs & Hcs & _).
      exists [], (tail ++ cs). split; [|split].
      * rewrite Hcs, Hs. cbn. by rewrite <- app_assoc.
      * constructor.
      * rewrite app_nil_r. intros H1. rewrite (Hok H1). by eexists.
    + apply elem_of_cons in Hin as [->|Hin]; [done|].
      destruct (finalize_settlement_finalizes L st j)
        as (_ & _ & _ & Hf & cs & Hcs & Hids).
      assert (Hr' : funded_settlements (_finalize_settlement L st j) !! i = Some r).
      { destruct (Hf i) as [H|(Hi & _)]; [congruence|].
        apply list_elem_of_singleton in Hi. congruence. }
      destruct (IH _ Hin Hr') as (before & after & Hs & Hb & Hok).
      exists (cs ++ before), after. split; [|split].
      * rewrite Hs, Hcs. by rewrite <- !app_assoc.
      * apply Forall_app. split; [|done].
        eapply Forall_impl; [exact Hids|]. intros c Hc.
        apply list_elem_of_singleton in Hc. congruence.
      * rewrite app_assoc, <- Hcs. exact Hok.
Qed.

(** A check of finality, made while the chain height reads [cur],
    sends the finalization sequence of every settlement it holds
    funded and eligible, whatever was sent for it before. *)
Lemma check_finality_sends L st i r cur B :
  (forall n, block_number L n = Some cur) ->
  (forall j rj, j ∈ funded_order st -> funded_settlements st !! j = Some rj ->
                status rj = funded -> is_Some (funded_block rj)) ->
  i ∈ funded_order st ->
  funded_settlements st !! i = Some r -> status r = funded ->
  funded_block r = Some B -> cur - B >= FINALITY_CONFIRMATIONS L ->
  exists before after,
    sent (_check_finality L st) = sent st ++ before ++ confirmFinality i :: after /\
    Forall (fun c => call_id c <> i) before /\
    (transact L (sent st ++ before) (confirmFinality i) = Receipt 1 ->
     exists after', after = executeSettlement i :: after').
Proof.
  intros Hcur Hwf Hin Hr Hs HB Hge. unfold _check_finality.
  destruct (settlements_to_finalize_steady L (funded_settlements st) cur
              (funded_order st) (height_reads st) Hcur Hwf) as [k ->].
  apply (fold_finalize_reaches L _ (with_height_reads k st) i r); [|exact Hr].
  apply list_elem_of_filter. split; [|exact Hin].
  unfold eligible. rewrite Hr, HB. apply andb_true_iff.
  split; by apply bool_decide_eq_true.
Qed.

(** C3, as stated, fails: with settlement [0xaa] funded at block 50,
    the chain at block 100 and every [executeSettlement] failing, two
    checks of finality send the finalization sequence twice, with the
    same arguments, and the settlement is still [funded]. *)
Lemma reverted_finalization_is_retried :
  let L := Examples.ledger_settlement_reverts 100 in
  let st0 := run L [Observe (SettlementCreated (Examples.created_aa 50 0));
                    Observe (FundsPulled (Examples.pulled_aa 50 1));
                    Observe (VaultFunded (Examples.funded_aa 50 2))] init in
  let st1 := _check_finality L st0 in
  let st2 := _check_finality L st1 in
  status_of st0 "0xaa" = Some funded /\
  calls_for "0xaa" (sent st1)
  = [Examples.swap_aa; confirmFinality "0xaa"; executeSettlement "0xaa"] /\
  calls_for "0xaa" (sent st2)
  = [Examples.swap_aa; confirmFinality "0xaa"; executeSettlement "0xaa";
     confirmFinality "0xaa"; executeSettlement "0xaa"] /\
  status_of st2 "0xaa" = Some funded.
Proof. vm_compute. repeat split; reflexivity. Qed.

(** C3, amended.  When both transactions of the finalization of a
    funded settlement are mined with status 1, the two calls are sent,
    the settlement becomes [settled], and in every later run of event
    handling and finality checks in which its creation entry is not
    observed anew, nothing is sent for it again.  When one of the two
    fails or raises, the registry stays as it was, and the sequence is
    issued again: at the next check of finality, made while the chain
    height reads a value at which the settlement, still [funded], is
    eligible, [confirmFinality] is sent for it once more, after calls
    about other settlements only, and [executeSettlement] follows when
    that [confirmFinality] is mined with status 1. *)
Theorem finalization_succeeds_once (L : Ledger) (st : State) (i : string)
    (r : Settlement) :
  funded_settlements st !! i = Some r ->
  pending_settlements st !! i = None ->
  let st1 := _finalize_settlement L st i in
  let ok1 := transact L (sent st) (confirmFinality i) = Receipt 1 in
  let ok2 := transact L (sent st ++ [confirmFinality i]) (executeSettlement i)
             = Receipt 1 in
  (ok1 /\ ok2 ->
   sent st1 = sent st ++ [confirmFinality i; executeSettlement i] /\
   forall steps, i ∉ created_ids steps ->
                 status_of (run L steps st1) i = Some settled /\
                 calls_for i (sent (run L steps st1)) = calls_for i (sent st1)) /\
  (~ (ok1 /\ ok2) ->
   registry st1 = registry st /\
   forall cur B,
     (forall n, block_number L n = Some cur) ->
     (forall j rj, j ∈ funded_order st -> funded_settlements st !! j = Some rj ->
                   status rj = funded -> is_Some (funded_block rj)) ->
     i ∈ funded_order st -> status r = funded ->
     funded_block r = Some B -> cur - B >= FINALITY_CONFIRMATIONS L ->
     exists before after,
       sent (_check_finality L st1) = sent st1 ++ before ++ confirmFinality i :: after /\
       Forall (fun c => call_id c <> i) before /\
       (transact L (sent st1 ++ before) (confirmFinality i) = Receipt 1 ->
        exists after', after = executeSettlement i :: after')).
Proof.
  intros Hr Hp st1 ok1 ok2. subst st1 ok1 ok2. split.
  - intros [H1 H2]. rewrite (finalize_settlement_success L st i r Hr H1 H2).
    split; [by cbn; rewrite <- app_assoc|].
    intros steps Hnew.
    destruct (run_after_settled L steps
                {| pending_settlements := pending_settlements st;
                   funded_settlements := <[i := set_status settled r]> (funded_settlements st);
                   funded_order := funded_order st;
                   sent := (sent st ++ [confirmFinality i]) ++ [executeSettlement i];
                   height_reads := height_reads st;
                   clock_reads := clock_reads st |} i (set_status settled r) Hnew)
      as [H3 H4]; [exact Hp|apply lookup_insert_eq|done|].
    split; [|done]. unfold status_of. by rewrite H3.
  - intros Hno.
    assert (Hreg : registry (_finalize_settlement L st i) = registry st).
    { apply finalize_settlement_failure.
      destruct (decide (transact L (sent st) (confirmFinality i) = Receipt 1));
        [|by left].
      right. intros H2. by apply Hno. }
    split; [exact Hreg|].
    intros cur B Hcur Hwf Hin Hs HB Hge.
    unfold registry in Hreg. injection Hreg as Hpe Hfu Hor.
    apply (check_finality_sends L _ i r cur B); rewrite ?Hfu, ?Hor; done.
Qed.

Lemma finalization_succeeds_once_witness :
  let L := Examples.ledger 1 100 [] [] [] in
  let st0 := run L [Observe (SettlementCreated (Examples.created_aa 50 0));
                    Observe (FundsPulled (Examples.pulled_aa 50 1));
                    Observe (VaultFunded (Examples.funded_aa 50 2))] init in
  let st1 := _finalize_settlement L st0 "0xaa" in
  let later := [CheckFinality;
                Observe (VaultFunded (Examples.funded_aa 50 2));
                Observe (FundsPulled (Examples.pulled_aa 50 1));
                CheckFinality] in
  let L' := Examples.ledger_settlement_reverts 100 in
  let st1' := _finalize_settlement L' st0 "0xaa" in
  funded_settlements st0 !! "0xaa"
  = Some {| client := "0xc1"; seller := "0x5e"; asset_token := "0xa5";
            asset_amount := 50 * 10 ^ 18; required_usdc := 55 * 10 ^ 6;
            max_eurc := 60 * 10 ^ 6; status := funded; block := 50;
            funded_block := Some 50; funded_at := Some 1700000000 |} /\
  sent st1 = sent st0 ++ [confirmFinality "0xaa"; executeSettlement "0xaa"] /\
  status_of (run L later st1) "0xaa" = Some settled /\
  calls_for "0xaa" (sent (run L later st1)) = calls_for "0xaa" (sent st1) /\
  registry st1' = registry st0 /\
  exists before after,
    sent (_check_finality L' st1')
    = sent st1' ++ before ++ confirmFinality "0xaa" :: executeSettlement "0xaa" :: after.
Proof.
  intros L st0 st1 later L' st1'.
  assert (Hr : funded_settlements st0 !! "0xaa"
               = Some {| client := "0xc1"; seller := "0x5e"; asset_token := "0xa5";
                         asset_amount := 50 * 10 ^ 18; required_usdc := 55 * 10 ^ 6;
                         max_eurc := 60 * 10 ^ 6; status := funded; block := 50;
                         funded_block := Some 50; funded_at := Some 1700000000 |}).
  { vm_compute. reflexivity. }
  split; [exact Hr|].
  destruct (finalization_succeeds_once L st0 "0xaa" _ Hr) as [Hok _];
    [vm_compute; reflexivity|].
  destruct Hok as [Hsent Hlater]; [split; reflexivity|].
  split; [exact Hsent|].
  split; [apply (Hlater later); vm_compute; apply not_elem_of_nil|].
  split; [apply (Hlater later); vm_compute; apply not_elem_of_nil|].
  destruct (finalization_succeeds_once L' st0 "0xaa" _ Hr) as [_ Hfail];
    [vm_compute; reflexivity|].
  destruct Hfail as [Hreg Hretry]; [intros [_ H2]; vm_compute in H2; discriminate H2|].
  split; [exact Hreg|].
  destruct (Hretry 100 50) as (before & after & Hs & _ & Hexec).
  - reflexivity.
  - intros j rj Hj Hrj _.
    assert (j = "0xaa") as -> by (vm_compute in Hj; by apply list_elem_of_singleton in Hj).
    rewrite Hr in Hrj. injection Hrj as <-. by eexists.
  - vm_compute. by left.
  - reflexivity.
  - reflexivity.
  - vm_compute. discriminate.
  - destruct Hexec as [after' ->]; [reflexivity|].
    exists before, after'. exact Hs.
Defined.

(** ** Statuses only move forward *)

Lemma status_le_refl o : status_le o o.
Proof. destruct o; cbn; lia. Qed.

Lemma status_le_trans o1 o2 o3 : status_le o1 o2 -> status_le o2 o3 -> status_le o1 o3.
Proof. destruct o1, o2, o3; cbn; try done; lia. Qed.

Lemma well_tracked_init : well_tracked [] init.
Proof. split; intros i r H; cbn in H; by rewrite lookup_empty in H. Qed.

Lemma well_tracked_untracked seen st i :
  well_tracked seen st -> i ∉ seen -> status_of st i = None.
Proof.
  intros [Hp Hf _] Hi. unfold status_of.
  destruct (funded_settlements st !! i) as [r|] eqn:Hr.
  - destruct (Hf i r Hr) as [_ ?]. done.
  - destruct (pending_settlements st !! i) as [r|] eqn:Hr'; [|done].
    destruct (Hp i r Hr') as [_ ?]. done.
Qed.

Lemma created_step seen st event :
  well_tracked seen st -> sc_settlementId (args event) ∉ seen ->
  well_tracked (seen ++ [sc_settlementId (args event)])
    (_handle_settlement_created st event) /\
  forall i, status_le (status_of st i)
              (status_of (_handle_settlement_created st event) i).
Proof.
  intros Hwt Hnew. pose proof Hwt as [Hp Hf Hd].
  set (id := sc_settlementId (args event)) in *.
  split.
  - split; cbn.
    + intros i r. rewrite lookup_insert. case_decide as Hi.
      * intros [= <-]. cbn. split; [lia|]. subst i. apply elem_of_app. right. by left.
      * intros Hr. destruct (Hp i r Hr). split; [done|]. apply elem_of_app. by left.
    + intros i r Hr. destruct (Hf i r Hr). split; [done|]. apply elem_of_app. by left.
    + intros i r. rewrite lookup_insert. case_decide as Hi.
      * intros _. subst i.
        destruct (funded_settlements st !! id) as [r'|] eqn:Hr'; [|done].
        destruct (Hf id r' Hr'). done.
      * apply Hd.
  - intros i. destruct (decide (i = id)) as [->|Hne].
    + by rewrite (well_tracked_untracked seen st id Hwt Hnew).
    + unfold status_of. cbn. rewrite lookup_insert_ne by done. apply status_le_refl.
Qed.

Lemma pulled_step L seen st event :
  well_tracked seen st ->
  well_tracked seen (_handle_funds_pulled L st event) /\
  forall i, status_le (status_of st i)
              (status_of (_handle_funds_pulled L st event) i).
Proof.
  intros Hwt. pose proof Hwt as [Hp Hf Hd].
  set (id := fp_settlementId (args event)).
  destruct (pending_settlements st !! id) as [r|] eqn:Hr.
  - rewrite (funds_pulled_pending L st event r Hr). fold id. split.
    + split; cbn.
      * intros i r'. rewrite lookup_insert. case_decide as Hi.
        -- intros [= <-]. cbn. split; [lia|]. subst i. by destruct (Hp id r Hr).
        -- apply Hp.
      * apply Hf.
      * intros i r'. rewrite lookup_insert. case_decide as Hi.
        -- intros _. subst i. by apply (Hd id r).
        -- apply Hd.
    + intros i. unfold status_of. cbn.
      destruct (funded_settlements st !! i) as [r'|]; [cbn; lia|].
      rewrite lookup_insert. case_decide as Hi.
      * subst i. rewrite Hr. cbn. by destruct (Hp id r Hr).
      * apply status_le_refl.
  - rewrite (funds_pulled_absent L st event Hr). split; [done|].
    intros i. apply status_le_refl.
Qed.

Lemma funded_step L seen st event :
  well_tracked seen st ->
  well_tracked seen (_handle_vault_funded L st event) /\
  forall i, status_le (status_of st i)
              (status_of (_handle_vault_funded L st event) i).
Proof.
  intros Hwt. pose proof Hwt as [Hp Hf Hd].
  unfold _handle_vault_funded.
  set (id := vf_settlementId (args event)).
  destruct (pending_settlements st !! id) as [r|] eqn:Hr.
  - destruct (Hp id r Hr) as [Hrank Hseen]. pose proof (Hd id r Hr) as Hnone. split.
    + split; cbn.
      * intros i r'. rewrite lookup_delete. case_decide as Hi; [done|]. apply Hp.
      * intros i r'. rewrite lookup_insert. case_decide as Hi.
        -- intros [= <-]. cbn. subst i. split; [lia|done].
        -- apply Hf.
      * intros i r'. rewrite lookup_delete. case_decide as Hi; [done|].
        intros Hr'. rewrite lookup_insert_ne by done. by apply (Hd i r').
    + intros i. unfold status_of. cbn. rewrite lookup_insert. case_decide as Hi.
      * subst i. rewrite Hnone, Hr. cbn. lia.
      * destruct (funded_settlements st !! i) as [r'|]; [cbn; lia|].
        rewrite lookup_delete_ne by done. apply status_le_refl.
  - split; [done|]. intros i. apply status_le_refl.
Qed.

Lemma finalizes_step seen sel st st' :
  finalizes sel st st' -> well_tracked seen st ->
  well_tracked seen st' /\ forall i, status_le (status_of st i) (status_of st' i).
Proof.
  intros (Hpe & _ & _ & Hfu & _) [Hp Hf Hd]. split.
  - split.
    + rewrite Hpe. apply Hp.
    + intros i r Hr. destruct (Hfu i) as [H|(_ & r0 & H1 & H2)].
      * apply Hf. congruence.
      * rewrite H2 in Hr. injection Hr as <-. cbn. split; [lia|].
        by destruct (Hf i r0 H1).
    + rewrite Hpe. intros i r Hr. pose proof (Hd i r Hr) as Hnone.
      destruct (Hfu i) as [H|(_ & r0 & H1 & H2)]; congruence.
  - intros i. unfold status_of. rewrite Hpe.
    destruct (Hfu i) as [H|(_ & r0 & H1 & H2)].
    + rewrite H. apply status_le_refl.
    + rewrite H1, H2. cbn. destruct (status r0); cbn; lia.
Qed.

Lemma step_forward L seen st s :
  well_tracked seen st ->
  (forall i, i ∈ created_ids [s] -> i ∉ seen) ->
  well_tracked (seen ++ created_ids [s]) (step L st s) /\
  forall i, status_le (status_of st i) (status_of (step L st s) i).
Proof.
  intros Hwt Hnew. destruct s as [[event|event|event]|]; cbn [step handle_event created_ids].
  - apply created_step; [done|]. apply Hnew. cbn. by left.
  - rewrite app_nil_r. by apply pulled_step.
  - rewrite app_nil_r. by apply funded_step.
  - rewrite app_nil_r. destruct (check_finality_finalizes L st) as (sel & _ & Hfin).
    by eapply finalizes_step.
Qed.

Lemma run_forward L steps seen st :
  well_tracked seen st -> NoDup (seen ++ created_ids steps) ->
  well_tracked (seen ++ created_ids steps) (run L steps st) /\
  forall i, status_le (status_of st i) (status_of (run L steps st) i).
Proof.
  revert seen st. induction steps as [|s steps IH]; intros seen st Hwt Hnd.
  - cbn. rewrite app_nil_r. split; [done|]. intros i. apply status_le_refl.
  - change (s :: steps) with ([s] ++ steps) in *.
    rewrite created_ids_app, app_assoc in *.
    destruct (step_forward L seen st s Hwt) as [Hwt' Hle].
    { intros i Hi Hseen. apply NoDup_app in Hnd as [Hnd _].
      apply NoDup_app in Hnd as (_ & Hdis & _). by apply (Hdis i). }
    destruct (IH _ _ Hwt' Hnd) as [Hwt'' Hle'].
    split; [done|]. intros i. eapply status_le_trans; [apply Hle|apply Hle'].
Qed.

(** C2, as stated, fails: the creation entry of settlement [0xaa] seen
    again after its funds-pulled entry takes the status from
    [funds_pulled] back to [created]. *)
Lemma created_replay_regresses :
  let L := Examples.ledger 1 100 [] [] [] in
  let early := [Observe (SettlementCreated (Examples.created_aa 5 0));
                Observe (FundsPulled (Examples.pulled_aa 6 0))] in
  let replay := [Observe (SettlementCreated (Examples.created_aa 5 0))] in
  status_of (run L early init) "0xaa" = Some funds_pulled /\
  status_of (run L (early ++ replay) init) "0xaa" = Some created.
Proof. vm_compute. split; reflexivity. Qed.

Lemma creations_of_app i t1 t2 :
  creations_of i (t1 ++ t2) = creations_of i t1 ++ creations_of i t2.
Proof. unfold creations_of. by rewrite created_ids_app, filter_app. Qed.

Lemma tracked_once_init i : tracked_once i 0 init.
Proof. split; intros r H; cbn in H; by rewrite lookup_empty in H. Qed.

(** One step keeps what is known of settlement [i] and does not move
    its status backwards, unless it is a second creation entry of [i]. *)
Lemma step_forward_once L i n st s :
  tracked_once i n st ->
  (n + length (creations_of i [s]) <= 1)%nat ->
  tracked_once i (n + length (creations_of i [s])) (step L st s) /\
  status_le (status_of st i) (status_of (step L st s) i).
Proof.
  intros [Hp Hf] Hn. destruct s as [[event|event|event]|]; cbn [step handle_event].
  - unfold creations_of in *. cbn [created_ids] in *.
    rewrite filter_cons, filter_nil in *.
    destruct (decide (sc_settlementId (args event) = i)) as [<-|Hne].
    + set (i := sc_settlementId (args event)) in *.
      cbn [length] in *. assert (n = 0%nat) as -> by lia.
      assert (Hpi : pending_settlements st !! i = None).
      { destruct (pending_settlements st !! i) as [r|] eqn:Hr; [|done].
        destruct (Hp r eq_refl) as (_ & _ & ?). lia. }
      assert (Hfi : funded_settlements st !! i = None).
      { destruct (funded_settlements st !! i) as [r|] eqn:Hr; [|done].
        destruct (Hf r eq_refl) as (_ & ?). lia. }
      split.
      * split; cbn; fold i.
        -- rewrite lookup_insert_eq. intros r [= <-]. cbn. split; [lia|]. split; [done|lia].
        -- rewrite Hfi. done.
      * unfold status_of at 1. by rewrite Hfi, Hpi.
    + cbn [length] in *. rewrite Nat.add_0_r. split.
      * split; cbn; rewrite ?lookup_insert_ne by done; [apply Hp|apply Hf].
      * unfold status_of. cbn. rewrite lookup_insert_ne by done. apply status_le_refl.
  - unfold creations_of. cbn [created_ids]. rewrite filter_nil. cbn [length].
    rewrite Nat.add_0_r.
    destruct (pending_settlements st !! fp_settlementId (args event)) as [r|] eqn:Hr.
    + rewrite (funds_pulled_pending L st event r Hr).
      destruct (decide (fp_settlementId (args event) = i)) as [Heq|Hne].
      * rewrite Heq in *. destruct (Hp r Hr) as (Hrank & Hfi & Hn1). split.
        -- split; cbn.
           ++ rewrite lookup_insert_eq. intros r' [= <-]. cbn. split; [lia|done].
           ++ rewrite Hfi. done.
        -- unfold status_of. cbn. rewrite Hfi, Hr, lookup_insert_eq. cbn. lia.
      * split.
        -- split; cbn; rewrite ?lookup_insert_ne by done; [apply Hp|apply Hf].
        -- unfold status_of. cbn. rewrite lookup_insert_ne by done. apply status_le_refl.
    + rewrite (funds_pulled_absent L st event Hr). split; [by split|apply status_le_refl].
  - unfold creations_of. cbn [created_ids]. rewrite filter_nil. cbn [length].
    rewrite Nat.add_0_r.
    destruct (pending_settlements st !! vf_settlementId (args event)) as [r|] eqn:Hr.
    + rewrite (vault_funded_pending L st event r Hr).
      destruct (decide (vf_settlementId (args event) = i)) as [Heq|Hne].
      * rewrite Heq in *. destruct (Hp r Hr) as (Hrank & Hfi & Hn1). split.
        -- split; cbn.
           ++ rewrite lookup_delete_eq. done.
           ++ rewrite lookup_insert_eq. intros r' [= <-]. cbn. split; [lia|done].
        -- unfold status_of. cbn. rewrite Hfi, Hr, lookup_insert_eq. cbn. lia.
      * split.
        -- split; cbn; rewrite ?lookup_delete_ne, ?lookup_insert_ne by done;
             [apply Hp|apply Hf].
        -- unfold status_of. cbn. rewrite lookup_delete_ne, lookup_insert_ne by done.
           apply status_le_refl.
    + rewrite (vault_funded_absent L st event Hr). split; [by split|apply status_le_refl].
  - unfold creations_of. cbn [created_ids]. rewrite filter_nil. cbn [length].
    rewrite Nat.add_0_r.
    destruct (check_finality_finalizes L st) as (sel & _ & Hpe & _ & _ & Hfu & _).
    split.
    + split; rewrite ?Hpe.
      * intros r Hr. destruct (Hp r Hr) as (Hrank & Hfi & Hn1).
        split; [done|]. split; [|done].
        destruct (Hfu i) as [H|(_ & r0 & H1 & _)]; congruence.
      * intros r Hr. destruct (Hfu i) as [H|(_ & r0 & H1 & H2)].
        -- apply Hf. congruence.
        -- rewrite H2 in Hr. injection Hr as <-. cbn. split; [lia|].
           by destruct (Hf r0 H1).
    + unfold status_of. rewrite Hpe.
      destruct (Hfu i) as [H|(_ & r0 & H1 & H2)].
      * rewrite H. apply status_le_refl.
      * rewrite H1, H2. cbn. destruct (status r0); cbn; lia.
Qed.

Lemma run_forward_once L i steps n st :
  tracked_once i n st ->
  (n + length (creations_of i steps) <= 1)%nat ->
  tracked_once i (n + length (creations_of i steps)) (run L steps st) /\
  status_le (status_of st i) (status_of (run L steps st) i).
Proof.
  revert n st. induction steps as [|s steps IH]; intros n st Htr Hn.
  - cbn. rewrite Nat.add_0_r. split; [done|apply status_le_refl].
  - change (s :: steps) with ([s] ++ steps) in *.
    rewrite creations_of_app, length_app, Nat.add_assoc in *.
    destruct (step_forward_once L i n st s Htr ltac:(lia)) as [Htr' Hle].
    destruct (IH _ _ Htr' Hn) as [Htr'' Hle'].
    split; [done|]. eapply status_le_trans; [apply Hle|apply Hle'].
Qed.

(** C2, amended.  In every run from the initial state in which the
    creation entry of a settlement is observed at most once, whatever
    the other entries, their repetitions, the replays of the creation
    entries of other settlements and the finality checks in between,
    the status held for that settlement never moves backwards along
    created, funds_pulled, funded, settled: the status after any
    prefix of the run is not ahead of the status after the whole
    run. *)
Theorem status_is_monotonic (L : Ledger) (before after : list Step) (i : string) :
  (length (creations_of i (before ++ after)) <= 1)%nat ->
  status_le (status_of (run L before init) i)
            (status_of (run L (before ++ after) init) i).
Proof.
  intros Hn. rewrite creations_of_app, length_app in Hn.
  unfold run at 2. rewrite fold_left_app. fold (run L before init).
  fold (run L after (run L before init)).
  destruct (run_forward_once L i before 0 init (tracked_once_init i)) as [Htr _];
    [cbn; lia|].
  destruct (run_forward_once L i after _ _ Htr) as [_ Hle]; [cbn in *; lia|].
  apply Hle.
Qed.

Lemma status_is_monotonic_witness :
  let L := Examples.ledger 1 100 [] [] [] in
  let before := [Observe (SettlementCreated (Examples.created_entry "0xbb" 49 0));
                 Observe (SettlementCreated (Examples.created_aa 50 0));
                 Observe (FundsPulled (Examples.pulled_entry "0xbb" 50 1));
                 Observe (FundsPulled (Examples.pulled_aa 50 2))] in
  let after := [Observe (SettlementCreated (Examples.created_entry "0xbb" 49 0));
                Observe (FundsPulled (Examples.pulled_aa 50 2));
                Observe (VaultFunded (Examples.funded_aa 50 3));
                CheckFinality;
                Observe (SettlementCreated (Examples.created_entry "0xbb" 49 0));
                Observe (VaultFunded (Examples.funded_aa 50 3));
                Observe (FundsPulled (Examples.pulled_aa 50 2))] in
  status_of (run L before init) "0xaa" = Some funds_pulled /\
  status_of (run L (before ++ after) init) "0xaa" = Some settled /\
  status_le (status_of (run L before init) "0xaa")
            (status_of (run L (before ++ after) init) "0xaa").
Proof.
  intros L before after.
  split; [vm_compute; reflexivity|]. split; [vm_compute; reflexivity|].
  apply (status_is_monotonic L before after "0xaa").
  vm_compute. lia.
Defined.

(** ** The order of application inside a poll window *)

Lemma created_pulled_commute L c p :
  sc_settlementId (args c) <> fp_settlementId (args p) ->
  commute L (FundsPulled p) (SettlementCreated c).
Proof.
  intros Hne st. cbn [handle_event].
  destruct (pending_settlements st !! fp_settlementId (args p)) as [r|] eqn:Hr.
  - rewrite (funds_pulled_pending L st p r Hr).
    rewrite (funds_pulled_pending L (_handle_settlement_created st c) p r)
      by (cbn; by rewrite lookup_insert_ne).
    unfold _handle_settlement_created, with_pending. cbn. f_equal.
    by apply insert_insert_ne.
  - rewrite (funds_pulled_absent L st p Hr).
    rewrite (funds_pulled_absent L (_handle_settlement_created st c) p)
      by (cbn; by rewrite lookup_insert_ne).
    reflexivity.
Qed.

Lemma created_funded_commute L c v :
  sc_settlementId (args c) <> vf_settlementId (args v) ->
  commute L (VaultFunded v) (SettlementCreated c).
Proof.
  intros Hne st. cbn [handle_event].
  destruct (pending_settlements st !! vf_settlementId (args v)) as [r|] eqn:Hr.
  - rewrite (vault_funded_pending L st v r Hr).
    rewrite (vault_funded_pending L (_handle_settlement_created st c) v r)
      by (cbn; by rewrite lookup_insert_ne).
    unfold _handle_settlement_created, with_pending. cbn. f_equal.
    by rewrite delete_insert_ne.
  - rewrite (vault_funded_absent L st v Hr).
    rewrite (vault_funded_absent L (_handle_settlement_created st c) v)
      by (cbn; by rewrite lookup_insert_ne).
    reflexivity.
Qed.

Lemma pulled_funded_commute L p v :
  fp_settlementId (args p) <> vf_settlementId (args v) ->
  commute L (VaultFunded v) (FundsPulled p).
Proof.
  intros Hne st. cbn [handle_event].
  destruct (pending_settlements st !! fp_settlementId (args p)) as [r|] eqn:Hp;
    destruct (pending_settlements st !! vf_settlementId (args v)) as [r'|] eqn:Hv.
  - rewrite (vault_funded_pending L st v r' Hv), (funds_pulled_pending L st p r Hp).
    rewrite (funds_pulled_pending L _ p r) by (cbn; by rewrite lookup_delete_ne).
    rewrite (vault_funded_pending L _ v r') by (cbn; by rewrite lookup_insert_ne).
    cbn. f_equal. by rewrite delete_insert_ne.
  - rewrite (vault_funded_absent L st v Hv), (funds_pulled_pending L st p r Hp).
    rewrite (vault_funded_absent L _ v) by (cbn; by rewrite lookup_insert_ne).
    reflexivity.
  - rewrite (funds_pulled_absent L st p Hp), (vault_funded_pending L st v r' Hv).
    rewrite (funds_pulled_absent L _ p) by (cbn; by rewrite lookup_delete_ne).
    reflexivity.
  - rewrite (vault_funded_absent L st v Hv), (funds_pulled_absent L st p Hp).
    by rewrite (vault_funded_absent L st v Hv).
Qed.

(** An entry moves across a run of entries it commutes with. *)
Lemma handle_after_commuting L e l :
  Forall (commute L e) l ->
  forall st, fold_left (handle_event L) l (handle_event L st e)
             = handle_event L (fold_left (handle_event L) l st) e.
Proof.
  induction 1 as [|e' l He _ IH]; intros st; [done|].
  cbn [fold_left]. rewrite He. apply IH.
Qed.

Lemma created_of_elem w c : c ∈ created_of w -> SettlementCreated c ∈ w.
Proof.
  induction w as [|[e|e|e] w IH]; cbn; intros H; try (right; by apply IH).
  - by apply not_elem_of_nil in H.
  - apply elem_of_cons in H as [->|H]; [by left|right; by apply IH].
Qed.

Lemma pulled_of_elem w p : p ∈ pulled_of w -> FundsPulled p ∈ w.
Proof.
  induction w as [|[e|e|e] w IH]; cbn; intros H; try (right; by apply IH).
  - by apply not_elem_of_nil in H.
  - apply elem_of_cons in H as [->|H]; [by left|right; by apply IH].
Qed.

Lemma earlier_stage_commutes L e rest :
  forallb (fun e' => (kind e <=? kind e')%nat
                     || negb (String.eqb (settlementId e') (settlementId e))) rest = true ->
  forall e', e' ∈ rest -> (kind e' < kind e)%nat -> commute L e e'.
Proof.
  intros Hall e' He' Hk.
  rewrite forallb_forall in Hall. apply list_elem_of_In in He'.
  specialize (Hall e' He'). apply orb_true_iff in Hall as [Hle|Hne].
  { apply Nat.leb_le in Hle. lia. }
  apply negb_true_iff, String.eqb_neq in Hne.
  destruct e as [c|p|v], e' as [c'|p'|v']; cbn in Hk, Hne; try lia.
  - by apply created_pulled_commute.
  - by apply created_funded_commute.
  - by apply pulled_funded_commute.
Qed.

Lemma grouped_same_result L w :
  lifecycle_ordered w = true ->
  forall st, fold_left (handle_event L) (grouped w) st
             = fold_left (handle_event L) w st.
Proof.
  induction w as [|e rest IH]; intros Hord st; [done|].
  cbn [lifecycle_ordered] in Hord. apply andb_true_iff in Hord as [Hall Hord].
  pose proof (earlier_stage_commutes L e rest Hall) as Hcomm.
  cbn [fold_left]. rewrite <- (IH Hord). unfold grouped.
  destruct e as [c|p|v]; cbn [created_of pulled_of funded_of map].
  - reflexivity.
  - rewrite !fold_left_app. cbn [fold_left].
    rewrite (handle_after_commuting L (FundsPulled p)
               (map SettlementCreated (created_of rest))); [reflexivity|].
    apply Forall_forall. intros e' He'.
    apply list_elem_of_fmap in He' as (c' & -> & Hc').
    apply Hcomm; [by apply created_of_elem|cbn; lia].
  - rewrite !fold_left_app. cbn [fold_left].
    rewrite (handle_after_commuting L (VaultFunded v)
               (map SettlementCreated (created_of rest))).
    + rewrite (handle_after_commuting L (VaultFunded v)
                 (map FundsPulled (pulled_of rest))); [reflexivity|].
      apply Forall_forall. intros e' He'.
      apply list_elem_of_fmap in He' as (p' & -> & Hp').
      apply Hcomm; [by apply pulled_of_elem|cbn; lia].
    + apply Forall_forall. intros e' He'.
      apply list_elem_of_fmap in He' as (c' & -> & Hc').
      apply Hcomm; [by apply created_of_elem|cbn; lia].
Qed.

Lemma fold_created L cs st :
  fold_left (handle_event L) (map SettlementCreated cs) st
  = fold_left _handle_settlement_created cs st.
Proof. revert st. induction cs as [|c cs IH]; intros st; [done|]. apply IH. Qed.

Lemma fold_pulled L ps st :
  fold_left (handle_event L) (map FundsPulled ps) st
  = fold_left (_handle_funds_pulled L) ps st.
Proof. revert st. induction ps as [|p ps IH]; intros st; [done|]. apply IH. Qed.

Lemma fold_funded L vs st :
  fold_left (handle_event L) (map VaultFunded vs) st
  = fold_left (_handle_vault_funded L) vs st.
Proof. revert st. induction vs as [|v vs IH]; intros st; [done|]. apply IH. Qed.

Lemma process_blocks_by_kind L from_block to_block st cs ps vs :
  settlement_created_entries L from_block to_block = Some cs ->
  funds_pulled_entries L from_block to_block = Some ps ->
  vault_funded_entries L from_block to_block = Some vs ->
  _process_blocks L from_block to_block st
  = fold_left (handle_event L)
      (map SettlementCreated cs ++ map FundsPulled ps ++ map VaultFunded vs) st.
Proof.
  intros Hc Hp Hv. unfold _process_blocks. rewrite Hc, Hp, Hv.
  by rewrite !fold_left_app, fold_created, fold_pulled, fold_funded.
Qed.

(** C4, as stated, fails: with the funds-pulled entry of [0xaa] at
    (6, 0) and its creation entry at (7, 0) in one window, the code
    handles the creation first and ends at [funds_pulled] with a swap
    sent, while handling in position order ends at [created] with
    nothing sent. *)
Lemma window_is_not_sorted :
  let L := Examples.ledger 1 100 [Examples.created_aa 7 0] [Examples.pulled_aa 6 0] [] in
  status_of (_process_blocks L 6 7 init) "0xaa" = Some funds_pulled /\
  sent (_process_blocks L 6 7 init) = [Examples.swap_aa] /\
  Spec.process_blocks_in_order L 6 7 init
  = Some (_handle_settlement_created init (Examples.created_aa 7 0)) /\
  status_of (_handle_settlement_created init (Examples.created_aa 7 0)) "0xaa"
  = Some created /\
  sent (_handle_settlement_created init (Examples.created_aa 7 0)) = [].
Proof. vm_compute. repeat split; reflexivity. Qed.

Lemma position_leb_true p q :
  Spec.position_leb p q = true <-> fst p < fst q \/ (fst p = fst q /\ snd p <= snd q).
Proof.
  unfold Spec.position_leb.
  rewrite orb_true_iff, andb_true_iff, Z.ltb_lt, Z.eqb_eq, Z.leb_le. tauto.
Qed.

Lemma not_after_total e e' : ~ not_after e e' -> not_after e' e.
Proof.
  unfold not_after. rewrite !position_leb_true. lia.
Qed.

Lemma not_after_trans e1 e2 e3 : not_after e1 e2 -> not_after e2 e3 -> not_after e1 e3.
Proof.
  unfold not_after. rewrite !position_leb_true. lia.
Qed.

Lemma insert_event_elem e l x : x ∈ Spec.insert_event e l -> x = e \/ x ∈ l.
Proof.
  induction l as [|y l IH]; cbn.
  - intros Hx. apply list_elem_of_singleton in Hx. by left.
  - destruct (Spec.position_leb (position e) (position y)).
    + intros Hx. apply elem_of_cons in Hx as [->|Hx]; [by left|by right].
    + intros Hx. apply elem_of_cons in Hx as [->|Hx]; [right; by left|].
      destruct (IH Hx) as [->|Hl]; [by left|right; by right].
Qed.

Lemma insert_event_sorted e l :
  StronglySorted not_after l -> StronglySorted not_after (Spec.insert_event e l).
Proof.
  induction 1 as [|y l Hl IH Hy]; cbn.
  - repeat constructor.
  - destruct (Spec.position_leb (position e) (position y)) eqn:Hle.
    + constructor; [by constructor|]. constructor; [exact Hle|].
      eapply Forall_impl; [exact Hy|]. intros z Hz.
      by apply (not_after_trans e y z).
    + constructor; [exact IH|]. apply Forall_forall. intros z Hz.
      destruct (insert_event_elem e l z Hz) as [->|Hzl].
      * apply not_after_total. unfold not_after. by rewrite Hle.
      * rewrite Forall_forall in Hy. by apply Hy.
Qed.

Lemma sort_events_cons e l :
  Spec.sort_events (e :: l) = Spec.insert_event e (Spec.sort_events l).
Proof. reflexivity. Qed.

Lemma sort_events_sorted l : StronglySorted not_after (Spec.sort_events l).
Proof.
  induction l as [|e l IH]; [constructor|].
  rewrite sort_events_cons. by apply insert_event_sorted.
Qed.

Lemma sort_events_fixed l : StronglySorted not_after l -> Spec.sort_events l = l.
Proof.
  induction 1 as [|e l Hl IH He]; [done|].
  rewrite sort_events_cons, IH. destruct l as [|y l]; [done|].
  cbn. apply Forall_cons in He as [Hey _]. unfold not_after in Hey. by rewrite Hey.
Qed.

Lemma in_position_order_sorted l : in_position_order l -> StronglySorted not_after l.
Proof. intros <-. apply sort_events_sorted. Qed.

(** Keeping the entries of one kind and sorting can be done in either
    order. *)
Lemma filter_insert_event P e l :
  StronglySorted not_after l ->
  List.filter P (Spec.insert_event e l)
  = if P e then Spec.insert_event e (List.filter P l) else List.filter P l.
Proof.
  induction 1 as [|y l Hl IH Hy]; cbn.
  - by destruct (P e).
  - destruct (Spec.position_leb (position e) (position y)) eqn:Hle; cbn.
    + destruct (P e) eqn:He; [|done].
      destruct (P y) eqn:Hpy; cbn; [by rewrite Hle|].
      assert (Hall : Forall (not_after e) l).
      { eapply Forall_impl; [exact Hy|]. intros z Hz.
        by apply (not_after_trans e y z). }
      clear -Hall. induction l as [|z l IH]; cbn; [done|].
      apply Forall_cons in Hall as [Hz Hall].
      destruct (P z); cbn; [|by apply IH].
      unfold not_after in Hz. by rewrite Hz.
    + rewrite IH. destruct (P y) eqn:Hpy; cbn.
      * destruct (P e); cbn; [by rewrite Hle|done].
      * done.
Qed.

Lemma filter_sort_events P l :
  List.filter P (Spec.sort_events l) = Spec.sort_events (List.filter P l).
Proof.
  induction l as [|e l IH]; [done|].
  rewrite sort_events_cons, filter_insert_event by apply sort_events_sorted.
  rewrite IH. cbn [List.filter]. by destruct (P e).
Qed.

Lemma created_of_filter w :
  map SettlementCreated (created_of w) = List.filter (of_kind 0) w.
Proof. induction w as [|[c|p|v] w IH]; cbn; by rewrite ?IH. Qed.

Lemma pulled_of_filter w :
  map FundsPulled (pulled_of w) = List.filter (of_kind 1) w.
Proof. induction w as [|[c|p|v] w IH]; cbn; by rewrite ?IH. Qed.

Lemma funded_of_filter w :
  map VaultFunded (funded_of w) = List.filter (of_kind 2) w.
Proof. induction w as [|[c|p|v] w IH]; cbn; by rewrite ?IH. Qed.

Lemma filter_of_kind_same {A} (f : A -> Event) (n : nat) (l : list A) :
  (forall x, kind (f x) = n) -> List.filter (of_kind n) (map f l) = map f l.
Proof.
  intros Hk. induction l as [|x l IH]; cbn; [done|].
  unfold of_kind at 1. rewrite Hk, Nat.eqb_refl. by rewrite IH.
Qed.

Lemma filter_of_kind_other {A} (f : A -> Event) (n m : nat) (l : list A) :
  (forall x, kind (f x) = m) -> m <> n -> List.filter (of_kind n) (map f l) = [].
Proof.
  intros Hk Hne. induction l as [|x l IH]; cbn; [done|].
  unfold of_kind at 1. rewrite Hk. by rewrite (proj2 (Nat.eqb_neq m n) Hne).
Qed.

Lemma sorted_window_by_kind cs ps vs :
  let delivered := map SettlementCreated cs ++ map FundsPulled ps
                   ++ map VaultFunded vs in
  in_position_order (map SettlementCreated cs) ->
  in_position_order (map FundsPulled ps) ->
  in_position_order (map VaultFunded vs) ->
  grouped (Spec.sort_events delivered) = delivered.
Proof.
  intros delivered Hcs Hps Hvs. unfold grouped.
  rewrite created_of_filter, pulled_of_filter, funded_of_filter.
  rewrite !filter_sort_events. unfold delivered. rewrite !List.filter_app.
  rewrite (filter_of_kind_same SettlementCreated 0) by done.
  rewrite (filter_of_kind_other FundsPulled 0 1) by done.
  rewrite (filter_of_kind_other VaultFunded 0 2) by done.
  rewrite (filter_of_kind_other SettlementCreated 1 0) by done.
  rewrite (filter_of_kind_same FundsPulled 1) by done.
  rewrite (filter_of_kind_other VaultFunded 1 2) by done.
  rewrite (filter_of_kind_other SettlementCreated 2 0) by done.
  rewrite (filter_of_kind_other FundsPulled 2 1) by done.
  rewrite (filter_of_kind_same VaultFunded 2) by done.
  cbn [app]. rewrite !app_nil_r. by rewrite Hcs, Hps, Hvs.
Qed.

(** C4, amended.  For every poll window the facilitator handles the
    entries by kind, all creations, then all funds-pulled entries, then
    all vault fundings, each kind in the order its filter returns, and
    sorts nothing.  The result is that of handling the window in
    [(block_number, log_index)] order whenever each filter returns its
    entries in that order and, in that order, no entry of a settlement
    comes before an entry of the same settlement from an earlier stage
    of its lifecycle. *)
Theorem process_blocks_order (L : Ledger) (from_block to_block : Z) (st : State)
    (cs : list (Entry SettlementCreatedArgs)) (ps : list (Entry FundsPulledArgs))
    (vs : list (Entry VaultFundedArgs)) :
  settlement_created_entries L from_block to_block = Some cs ->
  funds_pulled_entries L from_block to_block = Some ps ->
  vault_funded_entries L from_block to_block = Some vs ->
  let delivered := map SettlementCreated cs ++ map FundsPulled ps
                   ++ map VaultFunded vs in
  _process_blocks L from_block to_block st
  = fold_left (handle_event L) delivered st /\
  (in_position_order (map SettlementCreated cs) ->
   in_position_order (map FundsPulled ps) ->
   in_position_order (map VaultFunded vs) ->
   lifecycle_ordered (Spec.sort_events delivered) = true ->
   Spec.process_blocks_in_order L from_block to_block st
   = Some (_process_blocks L from_block to_block st)).
Proof.
  intros Hc Hp Hv delivered.
  pose proof (process_blocks_by_kind L from_block to_block st cs ps vs Hc Hp Hv) as Hcode.
  split; [exact Hcode|].
  intros Hcs Hps Hvs Hord.
  unfold Spec.process_blocks_in_order. rewrite Hc, Hp, Hv. cbn. f_equal.
  fold delivered. rewrite Hcode.
  rewrite <- (grouped_same_result L (Spec.sort_events delivered) Hord).
  pose proof (sorted_window_by_kind cs ps vs Hcs Hps Hvs) as Hg.
  cbv zeta in Hg. fold delivered in Hg. by rewrite Hg.
Qed.

Lemma process_blocks_order_witness :
  let cs := [Examples.created_entry "0xaa" 5 0; Examples.created_entry "0xbb" 6 0] in
  let ps := [Examples.pulled_entry "0xaa" 5 1; Examples.pulled_entry "0xbb" 7 0] in
  let vs := [Examples.funded_entry "0xaa" 6 1] in
  let L := Examples.ledger 1 100 cs ps vs in
  Spec.sort_events (map SettlementCreated cs ++ map FundsPulled ps ++ map VaultFunded vs)
  = [SettlementCreated (Examples.created_entry "0xaa" 5 0);
     FundsPulled (Examples.pulled_entry "0xaa" 5 1);
     SettlementCreated (Examples.created_entry "0xbb" 6 0);
     VaultFunded (Examples.funded_entry "0xaa" 6 1);
     FundsPulled (Examples.pulled_entry "0xbb" 7 0)] /\
  Spec.process_blocks_in_order L 5 7 init = Some (_process_blocks L 5 7 init).
Proof.
  intros cs ps vs L. split; [vm_compute; reflexivity|].
  destruct (process_blocks_order L 5 7 init cs ps vs eq_refl eq_refl eq_refl)
    as [_ Hsame].
  apply Hsame; vm_compute; reflexivity.
Defined.

(** ** The payment requirement *)

Lemma requirement_fields clock q price s a v u offset :
  match X402Types.create_x402_payment_requirement clock q price s a v u offset with
  | Some req =>
      required_usdc_smallest q price = Some (X402PaymentRequirement.required_amount req) /\
      Datetime.now_plus clock offset = Some (X402PaymentRequirement.payment_deadline req) /\
      X402PaymentRequirement.asset_amount req = q /\
      X402PaymentRequirement.seller req = s /\
      X402PaymentRequirement.asset_token req = a /\
      X402PaymentRequirement.settlement_vault req = v /\
      X402PaymentRequirement.settlement_token req = u
  | None => required_usdc_smallest q price = None \/ Datetime.now_plus clock offset = None
  end.
Proof.
  unfold X402Types.create_x402_payment_requirement, required_usdc_smallest.
  destruct (PyFloat.int_truediv q (10 ^ 18)) as [h|]; cbn; [|by left].
  destruct (PyFloat.mul_int (PyFloat.mul h price) (10 ^ 6)) as [x|]; cbn; [|by left].
  destruct (PyFloat.to_int x) as [n|]; cbn; [|by left].
  destruct (Datetime.now_plus clock offset) as [d|]; cbn; [done|by right].
Qed.

Lemma requirement_returns clock q price s a v u offset n d :
  required_usdc_smallest q price = Some n ->
  Datetime.now_plus clock offset = Some d ->
  exists req,
    X402Types.create_x402_payment_requirement clock q price s a v u offset = Some req /\
    X402PaymentRequirement.required_amount req = n /\
    X402PaymentRequirement.payment_deadline req = d.
Proof.
  intros Hn Hd.
  pose proof (requirement_fields clock q price s a v u offset) as Hf.
  destruct (X402Types.create_x402_payment_requirement _ _ _ _ _ _ _ _) as [req|].
  - exists req. destruct Hf as (Hf1 & Hf2 & _). split; [done|]. split; congruence.
  - destruct Hf; congruence.
Qed.

Lemma whole_units_checked :
  forallb whole_units_exact (map Z.of_nat (seq 1 1000)) = true.
Proof. vm_compute. reflexivity. Qed.

Lemma whole_units_in_range k :
  1 <= k <= 1000 ->
  required_usdc_smallest (k * 10 ^ 18) PyFloat.lit_1_10 = Some (1100000 * k) /\
  Spec.required_amount_exact (k * 10 ^ 18) PyFloat.lit_1_10 = 1100000 * k.
Proof.
  intros Hk. pose proof whole_units_checked as Hall.
  rewrite forallb_forall in Hall.
  assert (Hin : In k (map Z.of_nat (seq 1 1000))).
  { apply in_map_iff. exists (Z.to_nat k). split; [lia|]. apply in_seq. lia. }
  specialize (Hall k Hin). unfold whole_units_exact in Hall.
  destruct (required_usdc_smallest (k * 10 ^ 18) PyFloat.lit_1_10) as [n|]; [|done].
  apply andb_true_iff in Hall as [H1 H2].
  apply Z.eqb_eq in H1, H2. split; congruence.
Qed.

(** C8, as stated, fails: for the quantity [2 * 10^18 - 1] at price 1.0
    the builder asks 2 000 000, while the quantity in whole units times
    the price, rounded down, is 1 999 999. *)
Lemma requirement_rounds_up :
  X402PaymentRequirement.required_amount <$>
    X402Types.create_x402_payment_requirement (Examples.utc_clock 1700000000)
      (2 * 10 ^ 18 - 1) Examples.float_one "0x5e" "0xa5" "0x7a" "0x0c" 3600
  = Some 2000000 /\
  Spec.required_amount_exact (2 * 10 ^ 18 - 1) Examples.float_one = 1999999.
Proof. vm_compute. split; reflexivity. Qed.

(** C8, amended.  The builder returns exactly when the float
    operations of the amount and the date arithmetic of the deadline
    both succeed; it raises when the date arithmetic raises, as for an
    offset that leaves the supported years.  Whenever it returns, the
    deadline is the value the wall clock gives for the local date moved
    by the offset, which is now plus the offset when the clock's
    arithmetic is exact for that offset; the requirement echoes the
    asset quantity, and its required amount is the quantity divided by
    10^18, times the price, times 10^6, each operation rounded to the
    nearest double and the result truncated to an integer.  For every
    whole number of units from 1 to 1000 at price 1.10, when the date
    arithmetic succeeds, the builder returns and the amount is exactly
    the quantity in whole units times the price; in particular
    100 * 10^18 at 1.10 yields 110 * 10^6. *)
Theorem requirement_builder (clock : Datetime.Clock) (q : Z) (price : spec_float)
    (s a v u : string) (offset : Z) :
  (is_Some (X402Types.create_x402_payment_requirement clock q price s a v u offset) <->
   is_Some (required_usdc_smallest q price) /\
   is_Some (Datetime.now_plus clock offset)) /\
  (forall req,
      X402Types.create_x402_payment_requirement clock q price s a v u offset = Some req ->
      Datetime.now_plus clock offset = Some (X402PaymentRequirement.payment_deadline req) /\
      (Datetime.now_plus clock offset = Some (Datetime.now clock + offset) ->
       X402PaymentRequirement.payment_deadline req = Datetime.now clock + offset) /\
      X402PaymentRequirement.asset_amount req = q /\
      required_usdc_smallest q price = Some (X402PaymentRequirement.required_amount req)) /\
  (forall k d, 1 <= k <= 1000 ->
      Datetime.now_plus clock offset = Some d ->
      exists req,
        X402Types.create_x402_payment_requirement clock (k * 10 ^ 18) PyFloat.lit_1_10
          s a v u offset = Some req /\
        X402PaymentRequirement.required_amount req
        = Spec.required_amount_exact (k * 10 ^ 18) PyFloat.lit_1_10 /\
        X402PaymentRequirement.payment_deadline req = d) /\
  (forall d, Datetime.now_plus clock offset = Some d ->
      X402PaymentRequirement.required_amount <$>
        X402Types.create_x402_payment_requirement clock (100 * 10 ^ 18) PyFloat.lit_1_10
          s a v u offset
      = Some (110 * 10 ^ 6)).
Proof.
  assert (Hk : forall k d, 1 <= k <= 1000 ->
             Datetime.now_plus clock offset = Some d ->
             exists req,
               X402Types.create_x402_payment_requirement clock (k * 10 ^ 18)
                 PyFloat.lit_1_10 s a v u offset = Some req /\
               X402PaymentRequirement.required_amount req = 1100000 * k /\
               X402PaymentRequirement.payment_deadline req = d).
  { intros k d Hk Hd. destruct (whole_units_in_range k Hk) as [H1 _].
    apply requirement_returns; done. }
  pose proof (requirement_fields clock q price s a v u offset) as Hf.
  split; [|split; [|split]].
  - destruct (X402Types.create_x402_payment_requirement _ _ _ _ _ _ _ _) as [req|].
    + destruct Hf as (Hf1 & Hf2 & _). rewrite Hf1, Hf2. split; [|done].
      intros _. split; by eexists.
    + split; [by intros [? ?]|]. intros [[n Hn] [d Hd]].
      destruct Hf; congruence.
  - intros req Hreq. rewrite Hreq in Hf. destruct Hf as (Hf1 & Hf2 & Hf3 & _).
    split; [done|]. split; [|done]. intros Hex. congruence.
  - intros k d Hr Hd. destruct (Hk k d Hr Hd) as (req & H1 & H2 & H3).
    exists req. split; [done|]. split; [|done].
    destruct (whole_units_in_range k Hr) as [_ ->]. done.
  - intros d Hd. destruct (Hk 100 d ltac:(lia) Hd) as (req & -> & H2 & _).
    cbn. by rewrite H2.
Qed.

(** ** Validation of a payment proof *)

Lemma required_amounts_spec q r m :
  Server.required_amounts q = Some (r, m) ->
  required_usdc_smallest q PyFloat.lit_1_10 = Some r /\
  exists f, PyFloat.of_int r = Some f /\
            PyFloat.to_int (PyFloat.mul (PyFloat.mul f PyFloat.lit_1_10) PyFloat.lit_1_10)
            = Some m.
Proof.
  unfold Server.required_amounts, required_usdc_smallest, PyFloat.int_mul.
  destruct (PyFloat.int_truediv q (10 ^ 18)) as [h|]; cbn; [|done].
  destruct (PyFloat.mul_int (PyFloat.mul h PyFloat.lit_1_10) (10 ^ 6)) as [x|]; cbn; [|done].
  destruct (PyFloat.to_int x) as [n|]; cbn; [|done].
  destruct (PyFloat.of_int n) as [f|] eqn:Hf; cbn; [|done].
  destruct (PyFloat.to_int (PyFloat.mul (PyFloat.mul f PyFloat.lit_1_10) PyFloat.lit_1_10))
    as [m'|] eqn:Hm; cbn; [|done].
  intros [= <- <-]. split; [done|]. exists f. by rewrite Hf.
Qed.

(** The answer of the handler once the header has been parsed and the
    amounts computed. *)
Lemma handle_payment_validated `{WireCodec} env active q header p r m :
  X402Types.parse_x402_payment_header header = Some p ->
  is_Some (PyFloat.int_truediv (X402PaymentProof.max_payment_amount p) (10 ^ 6)) ->
  Server.required_amounts q = Some (r, m) ->
  fst (Server.handle_payment_submitted env active q header) =
  if X402PaymentProof.max_payment_amount p <? m
  then Server.InsufficientPayment r m (X402PaymentProof.max_payment_amount p)
  else match Server.create_settlement env (X402PaymentProof.client_address p) q r m with
       | Some settlement_id =>
           Server.SettlementCreated
             {| SettlementResponse.settlement_id := settlement_id;
                SettlementResponse.status := "created";
                SettlementResponse.message := "Settlement created successfully";
                SettlementResponse.required_usdc := r;
                SettlementResponse.max_eurc := m;
                SettlementResponse.asset_amount := q;
                SettlementResponse.tx_hash := None |}
       | None => Server.SettlementFailed
       end.
Proof.
  intros Hp [x Hx] Hq. unfold Server.handle_payment_submitted.
  rewrite Hp, Hx, Hq.
  destruct (X402PaymentProof.max_payment_amount p <? m); [done|].
  by destruct (Server.create_settlement env _ q r m).
Qed.

(** C7.  Once the header is parsed and the amounts are computed, the
    proof is accepted exactly when its maximum payment amount is at
    least [max_eurc], the required USDC amount times the rate 1.10
    times the buffer 1.1; a proof offering exactly [max_eurc] is
    accepted, and one offering less, in particular one unit less, is
    answered with the insufficient-payment error carrying the required
    amounts and the amount provided. *)
Theorem proof_validation_boundary `{WireCodec} (env : Server.Env)
    (active : gmap string Server.ActiveSettlement) (q : Z) (header : string)
    (p : X402PaymentProof.t) (r m : Z) :
  X402Types.parse_x402_payment_header header = Some p ->
  is_Some (PyFloat.int_truediv (X402PaymentProof.max_payment_amount p) (10 ^ 6)) ->
  Server.required_amounts q = Some (r, m) ->
  let provided := X402PaymentProof.max_payment_amount p in
  let answer := fst (Server.handle_payment_submitted env active q header) in
  (Server.accepted answer = true <-> provided >= m) /\
  (provided = m -> Server.accepted answer = true) /\
  (provided = m - 1 -> answer = Server.InsufficientPayment r m (m - 1)) /\
  (provided < m -> answer = Server.InsufficientPayment r m provided) /\
  (exists f, PyFloat.of_int r = Some f /\
             PyFloat.to_int (PyFloat.mul (PyFloat.mul f PyFloat.lit_1_10) PyFloat.lit_1_10)
             = Some m).
Proof.
  intros Hp Hx Hq provided answer.
  assert (Hans : answer =
            if provided <? m then Server.InsufficientPayment r m provided
            else match Server.create_settlement env (X402PaymentProof.client_address p) q r m with
                 | Some settlement_id =>
                     Server.SettlementCreated
                       {| SettlementResponse.settlement_id := settlement_id;
                          SettlementResponse.status := "created";
                          SettlementResponse.message := "Settlement created successfully";
                          SettlementResponse.required_usdc := r;
                          SettlementResponse.max_eurc := m;
                          SettlementResponse.asset_amount := q;
                          SettlementResponse.tx_hash := None |}
                 | None => Server.SettlementFailed
                 end).
  { apply (handle_payment_validated env active q header p r m Hp Hx Hq). }
  assert (Hlt : provided < m -> answer = Server.InsufficientPayment r m provided).
  { intros Hlt. rewrite Hans. by rewrite (proj2 (Z.ltb_lt _ _) Hlt). }
  assert (Hge : provided >= m -> Server.accepted answer = true).
  { intros Hge. rewrite Hans. rewrite (proj2 (Z.ltb_ge _ _)) by lia.
    by destruct (Server.create_settlement env _ q r m). }
  split; [|split; [|split; [|split]]].
  - split; [|exact Hge]. intros Hacc.
    destruct (Z_lt_ge_dec provided m) as [Hlt'|]; [|done].
    rewrite (Hlt Hlt') in Hacc. done.
  - intros ->. apply Hge. lia.
  - intros Heq. rewrite (Hlt ltac:(lia)). by rewrite Heq.
  - exact Hlt.
  - by destruct (required_amounts_spec q r m Hq) as [_ ?].
Qed.

Lemma proof_validation_boundary_witness :
  let at_minimum :=
    X402Types.create_x402_payment_header (H := RefCodec.codec)
      (Examples.proof_of 133100000 1800000000 []) in
  let one_below :=
    X402Types.create_x402_payment_header (H := RefCodec.codec)
      (Examples.proof_of 133099999 1800000000 []) in
  Server.required_amounts (100 * 10 ^ 18) = Some (110000000, 133100000) /\
  Server.accepted
    (fst (Server.handle_payment_submitted (H := RefCodec.codec)
            Examples.server_env ∅ (100 * 10 ^ 18) at_minimum)) = true /\
  fst (Server.handle_payment_submitted (H := RefCodec.codec)
         Examples.server_env ∅ (100 * 10 ^ 18) one_below)
  = Server.InsufficientPayment 110000000 133100000 133099999.
Proof.
  intros at_minimum one_below.
  assert (Hq : Server.required_amounts (100 * 10 ^ 18) = Some (110000000, 133100000)).
  { vm_compute. reflexivity. }
  split; [exact Hq|]. split.
  - destruct (proof_validation_boundary (H := RefCodec.codec) Examples.server_env ∅
                (100 * 10 ^ 18) at_minimum
                (Examples.proof_of 133100000 1800000000 []) 110000000 133100000)
      as (_ & Hmin & _); [vm_compute; reflexivity|vm_compute; eauto|exact Hq|].
    apply Hmin. reflexivity.
  - destruct (proof_validation_boundary (H := RefCodec.codec) Examples.server_env ∅
                (100 * 10 ^ 18) one_below
                (Examples.proof_of 133099999 1800000000 []) 110000000 133100000)
      as (_ & _ & Hbelow & _); [vm_compute; reflexivity|vm_compute; eauto|exact Hq|].
    apply Hbelow. reflexivity.
Defined.

(** C6, as stated, fails: a proof whose permit expired at second 0,
    offering the full amount for 100 units, is validated at second
    1 700 000 000 and answered 200. *)
Lemma expired_permit_is_accepted :
  let p := Examples.proof_of 133100000 0 [] in
  let header := X402Types.create_x402_payment_header (H := RefCodec.codec) p in
  X402Types.parse_x402_payment_header (H := RefCodec.codec) header = Some p /\
  X402PaymentProof.permit_deadline p = Some 0 /\
  0 < Server.time_time Examples.server_env /\
  Server.status_code
    (fst (Server.handle_payment_submitted (H := RefCodec.codec)
            Examples.server_env ∅ (100 * 10 ^ 18) header)) = 200.
Proof. vm_compute. repeat split; reflexivity. Qed.

(** C6, amended.  The handler never reads the permit deadline: two
    proofs with the same client address and the same maximum payment
    amount get the same answer whatever their permit signatures and
    time stamps, so a proof whose permit deadline lies in the past is
    accepted or refused on its amount alone. *)
Theorem deadline_is_not_checked `{WireCodec} (env : Server.Env)
    (active : gmap string Server.ActiveSettlement) (q : Z) (header header' : string)
    (p p' : X402PaymentProof.t) :
  X402Types.parse_x402_payment_header header = Some p ->
  X402Types.parse_x402_payment_header header' = Some p' ->
  X402PaymentProof.client_address p = X402PaymentProof.client_address p' ->
  X402PaymentProof.max_payment_amount p = X402PaymentProof.max_payment_amount p' ->
  Server.handle_payment_submitted env active q header
  = Server.handle_payment_submitted env active q header'.
Proof.
  intros Hp Hp' Hc Ha. unfold Server.handle_payment_submitted.
  by rewrite Hp, Hp', Hc, Ha.
Qed.

Lemma deadline_is_not_checked_witness :
  let expired :=
    X402Types.create_x402_payment_header (H := RefCodec.codec)
      (Examples.proof_of 133100000 0 []) in
  let valid :=
    X402Types.create_x402_payment_header (H := RefCodec.codec)
      (Examples.proof_of 133100000 1800000000 []) in
  Server.handle_payment_submitted (H := RefCodec.codec)
    Examples.server_env ∅ (100 * 10 ^ 18) expired
  = Server.handle_payment_submitted (H := RefCodec.codec)
      Examples.server_env ∅ (100 * 10 ^ 18) valid.
Proof.
  intros expired valid.
  apply (deadline_is_not_checked (H := RefCodec.codec) Examples.server_env ∅
           (100 * 10 ^ 18) expired valid
           (Examples.proof_of 133100000 0 [])
           (Examples.proof_of 133100000 1800000000 []));
    vm_compute; reflexivity.
Defined.

(** ** The X-PAYMENT header *)

Lemma of_to_json v : json_native v = true -> of_json (to_json v) = v.
Proof.
  revert v. fix IH 1. intros [| | | |items|items|members] Hn; cbn in *; try reflexivity.
  - f_equal. induction items as [|x xs IHxs]; cbn in *; [reflexivity|].
    apply andb_true_iff in Hn as [Hx Hxs]. by rewrite (IH x Hx), (IHxs Hxs).
  - discriminate.
  - f_equal. induction members as [|[k x] xs IHxs]; cbn in *; [reflexivity|].
    apply andb_true_iff in Hn as [Hx Hxs]. by rewrite (IH x Hx), (IHxs Hxs).
Qed.

Lemma validate_model_dump `{WireCodec} p :
  X402PaymentProof.validate (X402PaymentProof.model_dump p) = Some p.
Proof. destruct p as [v c tok sym amt sig ts [sid|]]; reflexivity. Qed.

Lemma header_prefix s : String.prefix "x402 " ("x402 " +:+ s) = true.
Proof. destruct s; reflexivity. Qed.

Lemma header_payload s : str_from 5 ("x402 " +:+ s) = s.
Proof. reflexivity. Qed.

(** *** Strings *)







(** *** Decimal digits *)








(** *** Strings with escapes *)






(** *** Joined parts *)




(** *** The reader on printed values *)




















(** *** base64 of the reference codec *)






Section arithmetic.
Local Open Scope N_scope.





End arithmetic.



(** *** The header *)






(** A header whose JSON gives the amount as a numeric string is read
    as the proof offering that amount, and the handler answers 200. *)
Lemma numeric_string_amount_is_read :
  let header := Examples.header_of_json Examples.proof_with_string_amount in
  X402Types.parse_x402_payment_header (H := RefCodec.codec) header
  = Some (Examples.proof_of 133100000 1800000000 []) /\
  Server.status_code
    (fst (Server.handle_payment_submitted (H := RefCodec.codec) Examples.server_env ∅
            (100 * 10 ^ 18) header)) = 200.
Proof. vm_compute. split; reflexivity. Qed.



(* ===================================================================== *)
(** * Further properties of the code *)
(* ===================================================================== *)


Lemma iterations_chained L n lp :
  chained (EventLoop.last_block lp) (snd (EventLoop.iterations L n lp))
          (EventLoop.last_block (fst (EventLoop.iterations L n lp))).
Proof.
  revert lp. induction n as [|n IH]; intros lp; [reflexivity|].
  cbn [EventLoop.iterations].
  destruct (EventLoop.iteration L lp) as [lp1 w] eqn:Hit.
  specialize (IH lp1).
  destruct (EventLoop.iterations L n lp1) as [lp2 ws] eqn:Hrest.
  cbn [fst snd] in *.
  unfold EventLoop.iteration in Hit.
  destruct (block_number L _) as [cur|].
  - destruct (decide (cur > EventLoop.last_block lp)) as [Hgt|Hle];
      inversion Hit; subst; cbn [EventLoop.last_block] in *.
    + cbn [chained]. repeat split; [lia|exact IH].
    + exact IH.
  - inversion Hit; subst. exact IH.
Qed.

Lemma chained_le from ws to : chained from ws to -> from <= to.
Proof.
  revert from. induction ws as [|[a b] ws IH]; intros from; cbn [chained].
  - lia.
  - intros (-> & Hab & Hrest). apply IH in Hrest. lia.
Qed.

Lemma chained_covering from ws to h :
  chained from ws to ->
  length (covering h ws) = if decide (from < h <= to) then 1%nat else 0%nat.
Proof.
  revert from. induction ws as [|[a b] ws IH]; intros from; cbn [chained].
  - intros ->. cbn. destruct (decide _); [lia|done].
  - intros (-> & Hab & Hrest).
    pose proof (chained_le _ _ _ Hrest) as Hle.
    specialize (IH _ Hrest).
    unfold covering in *. rewrite filter_cons. cbn [fst snd].
    destruct (decide (from + 1 <= h <= b)) as [Hin|Hout]; cbn [length];
      rewrite IH; repeat destruct (decide _); lia.
Qed.

(** X1. However the chain height and the filters answer, the polling
    loop hands every block after its starting block and up to its
    current [last_block] to [_process_blocks] in exactly one range, and
    no other block in any range: no block is read twice or skipped. *)
Theorem every_block_is_read_once (L : Ledger) (n : nat) (lp : EventLoop.Loop)
    (h : Z) :
  let '(lp', ws) := EventLoop.iterations L n lp in
  length (covering h ws)
  = if decide (EventLoop.last_block lp < h <= EventLoop.last_block lp')
    then 1%nat else 0%nat.
Proof.
  pose proof (iterations_chained L n lp) as Hch.
  destruct (EventLoop.iterations L n lp) as [lp' ws]. cbn [fst snd] in Hch.
  by apply chained_covering.
Qed.

(** X2. When the creation filter raises for the range of a turn of the
    loop, the turn does nothing but check finality and leaves
    [pending_settlements] as it was, yet [last_block] moves to the
    current block, so no later turn reads a block of that range again:
    the events of the range are lost. *)
Theorem failed_range_is_skipped (L : Ledger) (lp : EventLoop.Loop) (cur : Z)
    (n : nat) (h : Z) :
  block_number L (height_reads (EventLoop.facilitator lp)) = Some cur ->
  cur > EventLoop.last_block lp ->
  settlement_created_entries L (EventLoop.last_block lp + 1) cur = None ->
  h <= cur ->
  let lp1 := fst (EventLoop.iteration L lp) in
  snd (EventLoop.iteration L lp) = Some (EventLoop.last_block lp + 1, cur) /\
  EventLoop.facilitator lp1
  = _check_finality L
      (with_height_reads (S (height_reads (EventLoop.facilitator lp)))
         (EventLoop.facilitator lp)) /\
  pending_settlements (EventLoop.facilitator lp1)
  = pending_settlements (EventLoop.facilitator lp) /\
  EventLoop.last_block lp1 = cur /\
  covering h (snd (EventLoop.iterations L n lp1)) = [].
Proof.
  intros Hcur Hgt Hraise Hh lp1.
  assert (Hit : EventLoop.iteration L lp
                = ({| EventLoop.facilitator :=
                        _check_finality L
                          (with_height_reads
                             (S (height_reads (EventLoop.facilitator lp)))
                             (EventLoop.facilitator lp));
                      EventLoop.last_block := cur |},
                   Some (EventLoop.last_block lp + 1, cur))).
  { unfold EventLoop.iteration. rewrite Hcur.
    destruct (decide (cur > EventLoop.last_block lp)); [|done].
    unfold _process_blocks. by rewrite Hraise. }
  subst lp1. rewrite Hit. cbn [fst snd EventLoop.facilitator EventLoop.last_block].
  split; [done|]. split; [done|]. split.
  - destruct (check_finality_finalizes L
                (with_height_reads (S (height_reads (EventLoop.facilitator lp)))
                   (EventLoop.facilitator lp))) as (sel & _ & Hp & _).
    by rewrite Hp.
  - split; [done|].
    match goal with |- covering h (snd (EventLoop.iterations L n ?l)) = [] =>
      pose proof (iterations_chained L n l) as Hch;
      destruct (EventLoop.iterations L n l) as [lp' ws] end.
    cbn [fst snd EventLoop.last_block] in *.
    pose proof (chained_covering _ _ _ h Hch) as Hlen.
    destruct (decide (cur < h <= EventLoop.last_block lp')); [lia|].
    by apply length_zero_iff_nil.
Qed.

Lemma failed_range_is_skipped_witness :
  let L := {| FINALITY_CONFIRMATIONS := 10;
              transact := fun _ _ => Receipt 1;
              block_number := fun k => Some (100 + Z.of_nat k);
              time_time := fun _ => 1700000000;
              settlement_created_entries := fun a _ =>
                if a =? 100 then None else Some [Examples.created_aa a 0];
              funds_pulled_entries := fun _ _ => Some [];
              vault_funded_entries := fun _ _ => Some [] |} in
  let lp := {| EventLoop.facilitator := init; EventLoop.last_block := 99 |} in
  let lp1 := fst (EventLoop.iteration L lp) in
  snd (EventLoop.iteration L lp) = Some (100, 100) /\
  pending_settlements (EventLoop.facilitator lp1) = ∅ /\
  EventLoop.last_block lp1 = 100 /\
  snd (EventLoop.iterations L 3 lp1) = [(101, 101); (102, 102); (103, 103)] /\
  covering 100 (snd (EventLoop.iterations L 3 lp1)) = [].
Proof.
  intros L lp lp1.
  destruct (failed_range_is_skipped L lp 100 3 100)
    as (Hw & _ & Hp & Hl & Hc); try reflexivity; try lia.
  split; [exact Hw|]. split; [exact Hp|]. split; [exact Hl|].
  split; [vm_compute; reflexivity|exact Hc].
Defined.

Lemma created_ids_observed steps event :
  Observe (SettlementCreated event) ∈ steps ->
  sc_settlementId (args event) ∈ created_ids steps.
Proof.
  induction steps as [|s steps IH]; [by intros ?%elem_of_nil|].
  intros [<-|Hin]%elem_of_cons.
  - cbn. apply elem_of_cons. by left.
  - specialize (IH Hin). destruct s as [[?|?|?]|]; cbn; try done.
    apply elem_of_cons. by right.
Qed.

Lemma swap_of_creation_app steps more c :
  swap_of_creation steps c -> swap_of_creation (steps ++ more) c.
Proof.
  destruct c as [i a b| |]; cbn; [|done..].
  intros (event & Hin & ?). exists event. split; [|done].
  apply elem_of_app. by left.
Qed.

Lemma settlement_guarded_nil L : settlement_guarded L [].
Proof. intros before i after H. by destruct before. Qed.

Lemma snoc_split (c d : Call) (s before after : list Call) :
  s ++ [c] = before ++ d :: after ->
  (after = [] /\ s = before /\ c = d) \/
  (exists after', after = after' ++ [c] /\ s = before ++ d :: after').
Proof.
  induction after as [|c' after' _] using rev_ind.
  - intros H. left. apply app_inj_tail in H as [? ?]. done.
  - intros H. right. exists after'.
    rewrite app_comm_cons, app_assoc in H. apply app_inj_tail in H as [? ?].
    by subst.
Qed.

Lemma settlement_guarded_other L s c :
  (forall i, c <> executeSettlement i) ->
  settlement_guarded L s -> settlement_guarded L (s ++ [c]).
Proof.
  intros Hc Hs before i after
    [(-> & -> & Heq)|(after' & -> & ->)]%snoc_split.
  - by destruct (Hc i).
  - by apply (Hs before i after').
Qed.

Lemma settlement_guarded_settle L s i :
  transact L s (confirmFinality i) = Receipt 1 ->
  settlement_guarded L s ->
  settlement_guarded L ((s ++ [confirmFinality i]) ++ [executeSettlement i]).
Proof.
  intros Hok Hs before j after
    [(-> & <- & [= <-])|(after' & -> & Heq)]%snoc_split.
  - by exists s.
  - apply (settlement_guarded_other L s (confirmFinality i)) in Hs; [|done].
    by apply (Hs before j after').
Qed.

Lemma finality_calls_guarded L s s' :
  finality_calls L s s' -> settlement_guarded L s -> settlement_guarded L s'.
Proof.
  induction 1 as [|s' i _ IH|s' i _ IH Hok]; intros Hs; [done| |].
  - by apply settlement_guarded_other; [|apply IH].
  - by apply settlement_guarded_settle; [|apply IH].
Qed.

Lemma finality_calls_forall (P : Call -> Prop) L s s' :
  (forall i, P (confirmFinality i)) -> (forall i, P (executeSettlement i)) ->
  finality_calls L s s' -> Forall P s -> Forall P s'.
Proof.
  intros Hc He. induction 1 as [|s' i _ IH|s' i _ IH Hok]; intros Hs; [done| |].
  - apply Forall_app. split; [by apply IH|]. by constructor.
  - rewrite <- app_assoc. apply Forall_app. split; [by apply IH|].
    by repeat constructor.
Qed.

Lemma finalize_settlement_calls L s st i :
  finality_calls L s (sent st) ->
  finality_calls L s (sent (_finalize_settlement L st i)).
Proof.
  intros Hs. unfold _finalize_settlement, send_and_wait.
  destruct (funded_settlements st !! i) as [r|]; [|done].
  destruct (transact L (sent st) (confirmFinality i)) as [| |s1] eqn:H1;
    cbn [sent]; try by constructor.
  destruct (decide (s1 = 1)) as [->|]; cbn [sent]; [|by constructor].
  destruct (transact L (sent st ++ [confirmFinality i]) (executeSettlement i))
    as [| |s2]; cbn [sent]; try by constructor.
  destruct (decide (s2 = 1)); cbn [sent with_funded]; by constructor.
Qed.

Lemma check_finality_calls L st :
  finality_calls L (sent st) (sent (_check_finality L st)).
Proof.
  unfold _check_finality.
  destruct (settlements_to_finalize L _ _ _) as [[ids|] k]; [|constructor].
  assert (Hs : finality_calls L (sent st) (sent (with_height_reads k st)))
    by constructor.
  revert Hs. generalize (with_height_reads k st) as st0.
  induction ids as [|i ids IH]; intros st0 Hs; [done|].
  cbn [fold_left]. by apply IH, finalize_settlement_calls.
Qed.

Lemma traced_init L : traced L [] init.
Proof.
  split; cbn.
  - intros i r H. by rewrite lookup_empty in H.
  - intros i r H. by rewrite lookup_empty in H.
  - split; [constructor|]. intros i. rewrite lookup_empty. split.
    + by intros ?%elem_of_nil.
    + by intros [? ?].
  - constructor.
  - constructor.
  - apply settlement_guarded_nil.
Qed.

Lemma traced_more L steps s st :
  traced L steps st -> traced L (steps ++ [s]) st.
Proof.
  intros [Hp Hf Ho Hi Hs Hg]. split; try done.
  - intros i r Hir. destruct (Hp i r Hir) as (? & ? & event & Hin & ?).
    split; [done|]. split; [done|]. exists event. split; [|done].
    apply elem_of_app. by left.
  - intros i r Hir. destruct (Hf i r Hir) as (? & ? & Hin).
    split; [done|]. split; [done|]. rewrite created_ids_app.
    apply elem_of_app. by left.
  - eapply Forall_impl; [exact Hi|]. intros c Hc. cbn in Hc.
    rewrite created_ids_app. apply elem_of_app. by left.
  - eapply Forall_impl; [exact Hs|]. intros c. apply swap_of_creation_app.
Qed.

Lemma traced_created L steps st event :
  traced L steps st ->
  traced L (steps ++ [Observe (SettlementCreated event)])
    (_handle_settlement_created st event).
Proof.
  intros Ht.
  apply (traced_more L steps (Observe (SettlementCreated event))) in Ht.
  destruct Ht as [Hp Hf Ho Hi Hs Hg]. split; try done.
  intros i r. unfold _handle_settlement_created. cbn [pending_settlements with_pending].
  destruct (decide (sc_settlementId (args event) = i)) as [<-|Hne].
  - rewrite lookup_insert_eq. intros [= <-]. cbn.
    split; [lia|]. split; [done|]. exists event. split; [|done].
    apply elem_of_app. right. by apply list_elem_of_singleton.
  - rewrite lookup_insert_ne by done. apply Hp.
Qed.

Lemma traced_pulled L steps st event :
  traced L steps st ->
  traced L (steps ++ [Observe (FundsPulled event)]) (_handle_funds_pulled L st event).
Proof.
  intros Ht.
  apply (traced_more L steps (Observe (FundsPulled event))) in Ht.
  destruct (pending_settlements st !! fp_settlementId (args event)) as [r|] eqn:Hr;
    [|by rewrite funds_pulled_absent].
  rewrite (funds_pulled_pending L st event r Hr).
  destruct Ht as [Hp Hf Ho Hi Hs Hg].
  destruct (Hp _ _ Hr) as (Hrank & Hblock & ev & Hin & Hid & Hmax & Hreq).
  split; cbn [pending_settlements funded_settlements funded_order sent]; try done.
  - intros i r'.
    destruct (decide (fp_settlementId (args event) = i)) as [<-|Hne].
    + rewrite lookup_insert_eq. intros [= <-]. cbn.
      split; [lia|]. split; [done|]. by exists ev.
    + rewrite lookup_insert_ne by done. apply Hp.
  - apply Forall_app. split; [done|]. constructor; [|constructor]. cbn.
    rewrite <- Hid. by apply created_ids_observed.
  - apply Forall_app. split; [done|]. constructor; [|constructor]. cbn.
    by exists ev.
  - by apply settlement_guarded_other.
Qed.

Lemma traced_funded L steps st event :
  traced L steps st ->
  traced L (steps ++ [Observe (VaultFunded event)]) (_handle_vault_funded L st event).
Proof.
  intros Ht.
  apply (traced_more L steps (Observe (VaultFunded event))) in Ht.
  destruct (pending_settlements st !! vf_settlementId (args event)) as [r|] eqn:Hr;
    [|by rewrite vault_funded_absent].
  rewrite (vault_funded_pending L st event r Hr).
  destruct Ht as [Hp Hf [Hnd Ho] Hi Hs Hg].
  destruct (Hp _ _ Hr) as (Hrank & Hblock & ev & Hin & Hid & Hmax & Hreq).
  split; cbn [pending_settlements funded_settlements funded_order sent]; try done.
  - intros i r'.
    destruct (decide (vf_settlementId (args event) = i)) as [<-|Hne].
    + by rewrite lookup_delete_eq.
    + rewrite lookup_delete_ne by done. apply Hp.
  - intros i r'.
    destruct (decide (vf_settlementId (args event) = i)) as [<-|Hne].
    + rewrite lookup_insert_eq. intros [= <-]. cbn.
      split; [lia|]. split; [by eexists|].
      rewrite <- Hid. by apply created_ids_observed.
    + rewrite lookup_insert_ne by done. apply Hf.
  - destruct (funded_settlements st !! vf_settlementId (args event)) as [r0|] eqn:Hr0.
    + split; [done|]. intros i.
      destruct (decide (vf_settlementId (args event) = i)) as [<-|Hne].
      * rewrite lookup_insert_eq. rewrite Ho, Hr0. split; by eexists.
      * rewrite lookup_insert_ne by done. apply Ho.
    + split.
      * apply NoDup_app. split; [done|]. split; [|apply NoDup_singleton].
        intros i Hi1 ->%list_elem_of_singleton.
        apply Ho in Hi1 as [? Hi1]. by rewrite Hr0 in Hi1.
      * intros i. rewrite elem_of_app, list_elem_of_singleton.
        destruct (decide (vf_settlementId (args event) = i)) as [<-|Hne].
        -- rewrite lookup_insert_eq. split; [by eexists|by right].
        -- rewrite lookup_insert_ne by done. rewrite Ho. split; [|by left].
           by intros [?|?].
Qed.

Lemma traced_checked L steps st :
  traced L steps st -> traced L (steps ++ [CheckFinality]) (_check_finality L st).
Proof.
  intros Ht. apply (traced_more L steps CheckFinality) in Ht.
  destruct Ht as [Hp Hf [Hnd Ho] Hi Hs Hg].
  destruct (check_finality_finalizes L st)
    as (sel & Hsel & Hpe & Hor & _ & Hfu & cs & Hcs & Hids).
  pose proof (check_finality_calls L st) as Hcalls.
  split.
  - rewrite Hpe. apply Hp.
  - intros i r. destruct (Hfu i) as [Heq|(_ & r0 & Hr0 & Hr1)].
    + rewrite Heq. apply Hf.
    + rewrite Hr1. intros [= <-]. destruct (Hf i r0 Hr0) as (_ & ? & ?).
      split; [cbn; lia|]. done.
  - rewrite Hor. split; [done|]. intros i. rewrite Ho.
    destruct (Hfu i) as [Heq|(_ & r0 & Hr0 & Hr1)].
    + by rewrite Heq.
    + rewrite Hr0, Hr1. split; by eexists.
  - rewrite Hcs. apply Forall_app. split; [done|].
    eapply Forall_impl; [exact Hids|]. intros c Hc. cbn in Hc.
    destruct (Hsel _ Hc) as (r & Hr & _). by destruct (Hf _ _ Hr) as (_ & _ & ?).
  - by apply (finality_calls_forall _ L (sent st)).
  - by apply (finality_calls_guarded L (sent st)).
Qed.

Lemma traced_step L steps st s :
  traced L steps st -> traced L (steps ++ [s]) (step L st s).
Proof.
  destruct s as [[event|event|event]|]; cbn [step handle_event].
  - apply traced_created.
  - apply traced_pulled.
  - apply traced_funded.
  - apply traced_checked.
Qed.

Lemma run_traced L steps : traced L steps (run L steps init).
Proof.
  induction steps as [|s steps IH] using rev_ind; [apply traced_init|].
  unfold run. rewrite fold_left_app. cbn [fold_left].
  by apply traced_step.
Qed.

Lemma filter_none {A} (P : A -> Prop) `{forall x, Decision (P x)} (l : list A) :
  (forall x, x ∈ l -> ~ P x) -> filter P l = [].
Proof.
  induction l as [|x l IH]; intros Hl; [done|].
  rewrite filter_cons. destruct (decide (P x)) as [Hx|_].
  - destruct (Hl x); [apply elem_of_cons; by left|done].
  - apply IH. intros y Hy. apply Hl, elem_of_cons. by right.
Qed.

Lemma fold_finalize_all_succeed L ids st :
  (forall s i, transact L s (confirmFinality i) = Receipt 1 /\
               transact L s (executeSettlement i) = Receipt 1) ->
  (forall i, i ∈ ids -> is_Some (funded_settlements st !! i)) ->
  let st' := fold_left (_finalize_settlement L) ids st in
  sent st' = sent st
             ++ concat (map (fun i => [confirmFinality i; executeSettlement i]) ids) /\
  pending_settlements st' = pending_settlements st /\
  forall i, funded_settlements st' !! i
            = if decide (i ∈ ids)
              then set_status settled <$> funded_settlements st !! i
              else funded_settlements st !! i.
Proof.
  intros Hok. revert st. induction ids as [|j ids IH]; intros st Hsome st'.
  - subst st'. cbn. rewrite app_nil_r. split; [done|]. split; [done|].
    intros i. destruct (decide (i ∈ [])) as [Hin|]; [|done].
    by apply elem_of_nil in Hin.
  - subst st'. cbn [fold_left].
    destruct (Hsome j) as [r Hr]; [apply elem_of_cons; by left|].
    rewrite (finalize_settlement_success L st j r Hr);
      [|apply Hok|apply Hok].
    match goal with |- context [fold_left _ ids ?s] => set (st1 := s) end.
    destruct (IH st1) as (Hsent & Hpend & Hfund).
    { intros i Hi. subst st1. cbn [funded_settlements].
      destruct (decide (j = i)) as [<-|Hne].
      - rewrite lookup_insert_eq. by eexists.
      - rewrite lookup_insert_ne by done. apply Hsome, elem_of_cons. by right. }
    split; [|split].
    + rewrite Hsent. subst st1. cbn [sent map concat].
      rewrite <- !app_assoc. done.
    + rewrite Hpend. done.
    + intros i. rewrite Hfund. subst st1. cbn [funded_settlements].
      destruct (decide (j = i)) as [<-|Hne].
      * rewrite lookup_insert_eq, Hr.
        destruct (decide (j ∈ ids)), (decide (j ∈ j :: ids)) as [|Hn]; cbn;
          rewrite ?set_status_twice; try done;
          destruct Hn; apply elem_of_cons; by left.
      * rewrite lookup_insert_ne by done.
        destruct (decide (i ∈ ids)) as [Hin|Hout],
                 (decide (i ∈ j :: ids)) as [Hin'|Hout']; try done.
        -- destruct Hout'. apply elem_of_cons. by right.
        -- apply elem_of_cons in Hin' as [->|?]; done.
Qed.

Lemma traced_funded_block L steps i r :
  funded_settlements (run L steps init) !! i = Some r ->
  is_Some (funded_block r).
Proof.
  intros Hr. by destruct (tr_funded _ _ _ (run_traced L steps) i r Hr) as (_ & ? & _).
Qed.

(** X3. Whatever the ledger answers and whatever is replayed, every
    transaction the facilitator sends in a run from its initial state
    names a settlement whose SettlementCreated entry the run has
    observed: nothing is sent for a settlement that was never seen
    created. *)
Theorem no_call_for_unseen_settlement (L : Ledger) (steps : list Step) :
  Forall (fun c => call_id c ∈ created_ids steps) (sent (run L steps init)).
Proof. exact (tr_ids _ _ _ (run_traced L steps)). Qed.

(** X4. In every run from the initial state, each [executeSettlement]
    the facilitator sends comes immediately after a [confirmFinality]
    of the same settlement whose receipt had status 1: a settlement is
    never executed after a reverted or failed finality confirmation. *)
Theorem settlement_follows_confirmed_finality (L : Ledger) (steps : list Step)
    (before after : list Call) (i : string) :
  sent (run L steps init) = before ++ executeSettlement i :: after ->
  exists earlier,
    before = earlier ++ [confirmFinality i] /\
    transact L earlier (confirmFinality i) = Receipt 1.
Proof. apply (tr_guarded _ _ _ (run_traced L steps)). Qed.

Lemma settlement_follows_confirmed_finality_witness :
  let L := Examples.ledger 1 100 [] [] [] in
  exists earlier,
    [Examples.swap_aa; confirmFinality "0xaa"] = earlier ++ [confirmFinality "0xaa"] /\
    transact L earlier (confirmFinality "0xaa") = Receipt 1.
Proof.
  intros L.
  apply (settlement_follows_confirmed_finality L
           [Observe (SettlementCreated (Examples.created_aa 50 0));
            Observe (FundsPulled (Examples.pulled_aa 50 1));
            Observe (VaultFunded (Examples.funded_aa 50 2));
            CheckFinality]
           [Examples.swap_aa; confirmFinality "0xaa"] [] "0xaa").
  vm_compute. reflexivity.
Defined.

(** X5. In every run from the initial state, the two bounds of each
    [executeSwap] sent are the [maxEURC] and [requiredUSDC] of a
    SettlementCreated entry the run observed for that settlement;
    the amounts of the FundsPulled entry never reach the swap. *)
Theorem swap_bounds_come_from_creation (L : Ledger) (steps : list Step)
    (i : string) (eurc_amount min_usdc_out : Z) :
  executeSwap i eurc_amount min_usdc_out ∈ sent (run L steps init) ->
  exists event,
    Observe (SettlementCreated event) ∈ steps /\
    sc_settlementId (args event) = i /\
    eurc_amount = sc_maxEURC (args event) /\
    min_usdc_out = sc_requiredUSDC (args event).
Proof.
  intros Hin.
  pose proof (tr_swaps _ _ _ (run_traced L steps)) as Hs.
  rewrite Forall_forall in Hs. exact (Hs _ Hin).
Qed.

Lemma swap_bounds_come_from_creation_witness :
  let L := Examples.ledger 1 100 [] [] [] in
  let steps := [Observe (SettlementCreated (Examples.created_aa 50 0));
                Observe (FundsPulled
                  {| args := {| fp_settlementId := "0xaa"; fp_eurcAmount := 1;
                                fp_assetAmount := 2 |};
                     blockNumber := 50; logIndex := 1 |})] in
  sent (run L steps init) = [executeSwap "0xaa" (60 * 10 ^ 6) (55 * 10 ^ 6)] /\
  exists event,
    Observe (SettlementCreated event) ∈ steps /\
    sc_settlementId (args event) = "0xaa" /\
    60 * 10 ^ 6 = sc_maxEURC (args event) /\
    55 * 10 ^ 6 = sc_requiredUSDC (args event).
Proof.
  intros L steps. split; [vm_compute; reflexivity|].
  apply (swap_bounds_come_from_creation L steps "0xaa").
  vm_compute. apply list_elem_of_singleton. reflexivity.
Defined.

(** X6. After any run in which no settlement's creation is observed
    twice, the two registries split the tracked settlements by status:
    a pending settlement is [created] or [funds_pulled] and is not
    funded, a funded one is [funded] or [settled], carries its
    [funded_block] (so the lookup in [_check_finality] cannot fail)
    and is not pending, and the funded registry lists each of its keys
    once. *)
Theorem registries_partition_by_status (L : Ledger) (steps : list Step) :
  NoDup (created_ids steps) ->
  let st := run L steps init in
  NoDup (funded_order st) /\
  forall i,
    (i ∈ funded_order st <-> is_Some (funded_settlements st !! i)) /\
    (forall r, pending_settlements st !! i = Some r ->
               (status r = created \/ status r = funds_pulled) /\
               funded_settlements st !! i = None) /\
    (forall r, funded_settlements st !! i = Some r ->
               (status r = funded \/ status r = settled) /\
               is_Some (funded_block r) /\
               pending_settlements st !! i = None).
Proof.
  intros Hnd st.
  destruct (run_traced L steps) as [Hp Hf [Hno Ho] _ _ _].
  destruct (run_forward L steps [] init well_tracked_init Hnd) as [[_ _ Hdis] _].
  fold st in Hp, Hf, Hno, Ho, Hdis.
  split; [done|]. intros i. split; [apply Ho|]. split.
  - intros r Hr. destruct (Hp i r Hr) as (Hrank & _). split; [|by eapply Hdis].
    destruct (status r); cbn in Hrank; auto; lia.
  - intros r Hr. destruct (Hf i r Hr) as (Hrank & Hb & _).
    split; [destruct (status r); cbn in Hrank; auto; lia|]. split; [done|].
    destruct (pending_settlements st !! i) as [r'|] eqn:Hr'; [|done].
    apply Hdis in Hr'. by rewrite Hr in Hr'.
Qed.

Lemma registries_partition_by_status_witness :
  let L := Examples.ledger 1 100 [] [] [] in
  let st := run L [Observe (SettlementCreated (Examples.created_aa 50 0));
                   Observe (SettlementCreated (Examples.created_entry "0xbb" 50 1));
                   Observe (FundsPulled (Examples.pulled_aa 50 2));
                   Observe (VaultFunded (Examples.funded_aa 50 3));
                   Observe (VaultFunded (Examples.funded_aa 50 3))] init in
  funded_order st = ["0xaa"] /\
  status <$> pending_settlements st !! "0xbb" = Some created /\
  NoDup (funded_order st) /\
  (forall r, funded_settlements st !! "0xaa" = Some r ->
             (status r = funded \/ status r = settled) /\
             is_Some (funded_block r) /\
             pending_settlements st !! "0xaa" = None).
Proof.
  intros L st.
  split; [vm_compute; reflexivity|]. split; [vm_compute; reflexivity|].
  destruct (registries_partition_by_status L
              [Observe (SettlementCreated (Examples.created_aa 50 0));
               Observe (SettlementCreated (Examples.created_entry "0xbb" 50 1));
               Observe (FundsPulled (Examples.pulled_aa 50 2));
               Observe (VaultFunded (Examples.funded_aa 50 3));
               Observe (VaultFunded (Examples.funded_aa 50 3))]) as [Hnd Hall].
  - cbn. apply NoDup_cons. split.
    + intros Hin%list_elem_of_singleton. discriminate Hin.
    + apply NoDup_singleton.
  - split; [exact Hnd|]. exact (proj2 (proj2 (Hall "0xaa"))).
Defined.

Lemma check_finality_steady L steps cur :
  (forall n, block_number L n = Some cur) ->
  let st := run L steps init in
  exists k,
    _check_finality L st
    = fold_left (_finalize_settlement L)
        (filter (fun i => eligible (FINALITY_CONFIRMATIONS L) cur
                            (funded_settlements st) i = true) (funded_order st))
        (with_height_reads k st).
Proof.
  intros Hcur st.
  destruct (settlements_to_finalize_steady L (funded_settlements st) cur
              (funded_order st) (height_reads st) Hcur) as [k Hk].
  { intros i r _ Hr _. by apply (traced_funded_block L steps i r). }
  exists k. unfold _check_finality. by rewrite Hk.
Qed.

(** X7. While the chain height reads [cur], a finality check made
    after any run changes neither registry and sends nothing when every
    settlement of status [funded] has fewer than
    [FINALITY_CONFIRMATIONS] blocks on top of its funded block. *)
Theorem no_finalization_below_threshold (L : Ledger) (steps : list Step) (cur : Z) :
  (forall n, block_number L n = Some cur) ->
  let st := run L steps init in
  (forall i r B, funded_settlements st !! i = Some r -> status r = funded ->
                 funded_block r = Some B -> cur - B < FINALITY_CONFIRMATIONS L) ->
  registry (_check_finality L st) = registry st /\
  sent (_check_finality L st) = sent st.
Proof.
  intros Hcur st Hlow.
  destruct (check_finality_steady L steps cur Hcur) as [k Hk]. fold st in Hk.
  rewrite Hk, filter_none; [done|].
  intros i _. unfold eligible.
  destruct (funded_settlements st !! i) as [r|] eqn:Hr; [|done].
  destruct (funded_block r) as [B|] eqn:HB; [|done].
  destruct (decide (status r = funded)) as [Hs|Hs].
  - specialize (Hlow i r B Hr Hs HB).
    rewrite (bool_decide_eq_false_2 (cur - B >= _)) by lia.
    by rewrite andb_false_r.
  - by rewrite (bool_decide_eq_false_2 _ Hs).
Qed.

Lemma no_finalization_below_threshold_witness :
  let L := Examples.ledger 1 59 [] [] [] in
  let st := run L [Observe (SettlementCreated (Examples.created_aa 50 0));
                   Observe (VaultFunded (Examples.funded_aa 50 1))] init in
  status_of st "0xaa" = Some funded /\
  registry (_check_finality L st) = registry st /\
  sent (_check_finality L st) = sent st.
Proof.
  intros L st. split; [vm_compute; reflexivity|].
  apply (no_finalization_below_threshold L
           [Observe (SettlementCreated (Examples.created_aa 50 0));
            Observe (VaultFunded (Examples.funded_aa 50 1))] 59).
  - reflexivity.
  - intros i r B Hr _ HB.
    destruct (tr_order _ _ _
                (run_traced L
                   [Observe (SettlementCreated (Examples.created_aa 50 0));
                    Observe (VaultFunded (Examples.funded_aa 50 1))])) as [_ Ho].
    assert (Hin : i ∈ ["0xaa"]) by (apply (proj2 (Ho i)); by eexists).
    apply list_elem_of_singleton in Hin as ->.
    vm_compute in Hr. injection Hr as <-. cbn in HB. injection HB as <-.
    cbn. lia.
Defined.

(** X8. While the chain height reads [cur] and every finalization
    transaction is mined with status 1, a finality check made after any
    run sends [confirmFinality] then [executeSettlement] for exactly
    the settlements that are [funded] with at least
    [FINALITY_CONFIRMATIONS] blocks on their funded block, in the order
    they were funded, marks each of them [settled], and leaves the
    status of every other settlement as it was. *)
Theorem check_finality_settles_the_eligible (L : Ledger) (steps : list Step)
    (cur : Z) :
  (forall n, block_number L n = Some cur) ->
  (forall s i, transact L s (confirmFinality i) = Receipt 1 /\
               transact L s (executeSettlement i) = Receipt 1) ->
  let st := run L steps init in
  let sel := filter (fun i => eligible (FINALITY_CONFIRMATIONS L) cur
                                (funded_settlements st) i = true)
                    (funded_order st) in
  sent (_check_finality L st)
  = sent st ++ concat (map (fun i => [confirmFinality i; executeSettlement i]) sel) /\
  (forall i, i ∈ sel -> status_of (_check_finality L st) i = Some settled) /\
  (forall i, i ∉ sel -> status_of (_check_finality L st) i = status_of st i).
Proof.
  intros Hcur Hok st sel.
  destruct (check_finality_steady L steps cur Hcur) as [k Hk].
  fold st in Hk. fold sel in Hk. rewrite Hk.
  assert (Hsome : forall i, i ∈ sel ->
                            is_Some (funded_settlements (with_height_reads k st) !! i)).
  { intros i [Hel _]%list_elem_of_filter. unfold eligible in Hel. cbn.
    destruct (funded_settlements st !! i); [by eexists|done]. }
  destruct (fold_finalize_all_succeed L sel (with_height_reads k st) Hok Hsome)
    as (Hsent & Hpend & Hfund).
  cbn [sent pending_settlements funded_settlements with_height_reads] in *.
  split; [exact Hsent|]. split.
  - intros i Hi. unfold status_of. rewrite Hfund.
    destruct (decide (i ∈ sel)); [|done].
    destruct (Hsome i Hi) as [r Hr]. cbn in Hr. by rewrite Hr.
  - intros i Hi. unfold status_of. rewrite Hfund, Hpend.
    by destruct (decide (i ∈ sel)).
Qed.

Lemma check_finality_settles_the_eligible_witness :
  let L := Examples.ledger 1 60 [] [] [] in
  let st := run L [Observe (SettlementCreated (Examples.created_aa 50 0));
                   Observe (SettlementCreated (Examples.created_entry "0xbb" 51 0));
                   Observe (VaultFunded (Examples.funded_aa 50 1));
                   Observe (VaultFunded (Examples.funded_entry "0xbb" 51 1))] init in
  sent (_check_finality L st) = [confirmFinality "0xaa"; executeSettlement "0xaa"] /\
  status_of (_check_finality L st) "0xaa" = Some settled /\
  status_of (_check_finality L st) "0xbb" = Some funded.
Proof.
  intros L st.
  destruct (check_finality_settles_the_eligible L
              [Observe (SettlementCreated (Examples.created_aa 50 0));
               Observe (SettlementCreated (Examples.created_entry "0xbb" 51 0));
               Observe (VaultFunded (Examples.funded_aa 50 1));
               Observe (VaultFunded (Examples.funded_entry "0xbb" 51 1))] 60)
    as (Hsent & Hsel & Hother); [reflexivity|by split|].
  split; [exact Hsent|]. split.
  - apply Hsel. vm_compute. apply list_elem_of_singleton. reflexivity.
  - rewrite Hother; [vm_compute; reflexivity|].
    vm_compute. intros Hin%list_elem_of_singleton. discriminate Hin.
Defined.

(** What [handle_payment_submitted] has gone through when it answers
    200. *)
Lemma settlement_created_inv `{WireCodec} env active q header resp store' :
  Server.handle_payment_submitted env active q header
  = (Server.SettlementCreated resp, store') ->
  exists p r m,
    X402Types.parse_x402_payment_header header = Some p /\
    Server.required_amounts q = Some (r, m) /\
    X402PaymentProof.max_payment_amount p >= m /\
    Server.create_settlement env (X402PaymentProof.client_address p) q r m
    = Some (SettlementResponse.settlement_id resp) /\
    resp = {| SettlementResponse.settlement_id := SettlementResponse.settlement_id resp;
              SettlementResponse.status := "created";
              SettlementResponse.message := "Settlement created successfully";
              SettlementResponse.required_usdc := r;
              SettlementResponse.max_eurc := m;
              SettlementResponse.asset_amount := q;
              SettlementResponse.tx_hash := None |} /\
    store' = <[SettlementResponse.settlement_id resp :=
                 {| Server.client := X402PaymentProof.client_address p;
                    Server.asset_amount := q;
                    Server.required_usdc := r;
                    Server.max_eurc := m;
                    Server.status := "pending";
                    Server.created_at := Server.time_time env |}]> active.
Proof.
  unfold Server.handle_payment_submitted.
  destruct (X402Types.parse_x402_payment_header header) as [p|]; [|done].
  destruct (PyFloat.int_truediv _ _); [|done].
  destruct (Server.required_amounts q) as [[r m]|]; [|done].
  destruct (_ <? m) eqn:Hlt; [done|].
  destruct (Server.create_settlement env _ q r m) as [sid|] eqn:Hc; [|done].
  intros [= <- <-]. exists p, r, m. cbn.
  repeat split; try done. apply Z.ltb_ge in Hlt. lia.
Qed.

(** Every answer but 200 leaves [active_settlements] as it was. *)
Lemma settlement_refused_inv `{WireCodec} env active q header :
  (exists resp, fst (Server.handle_payment_submitted env active q header)
                = Server.SettlementCreated resp) \/
  snd (Server.handle_payment_submitted env active q header) = active.
Proof.
  unfold Server.handle_payment_submitted.
  destruct (X402Types.parse_x402_payment_header header) as [p|]; [|by right].
  destruct (PyFloat.int_truediv _ _); [|by right].
  destruct (Server.required_amounts q) as [[r m]|]; [|by right].
  destruct (_ <? m); [by right|].
  destruct (Server.create_settlement env _ q r m) as [sid|]; [|by right].
  left. by eexists.
Qed.

(** X9. The amount the server quotes in its 402 answer for an asset
    amount is the amount it writes into the settlement it creates for
    the same asset amount when a proof is submitted: the two handlers
    compute [required_usdc] separately and agree; the quote carries
    status 402, the seller and the vault of the configuration and, as
    deadline, the value the server's wall clock gives for the local
    date one hour ahead. *)
Theorem quoted_amount_is_settled `{WireCodec} (cfg : ServerEndpoints.Config)
    (env : Server.Env) (clock : Datetime.Clock) (q : Z)
    (active store' : gmap string Server.ActiveSettlement) (header : string)
    (body : ServerEndpoints.PaymentRequiredBody) (code : Z)
    (headers : list (string * string)) (resp : SettlementResponse.t) :
  ServerEndpoints.handle_payment_required cfg clock q = Some (body, code, headers) ->
  Server.handle_payment_submitted env active q header
  = (Server.SettlementCreated resp, store') ->
  let quote := ServerEndpoints.payment_requirement body in
  code = 402 /\
  X402PaymentRequirement.required_amount quote = SettlementResponse.required_usdc resp /\
  X402PaymentRequirement.asset_amount quote = SettlementResponse.asset_amount resp /\
  X402PaymentRequirement.seller quote = ServerEndpoints.seller_address cfg /\
  X402PaymentRequirement.settlement_vault quote
  = ServerEndpoints.SETTLEMENT_VAULT_ADDRESS cfg /\
  Datetime.now_plus clock 3600 = Some (X402PaymentRequirement.payment_deadline quote).
Proof.
  intros Hq Hs quote.
  apply settlement_created_inv in Hs as (p & r & m & _ & Hr & _ & _ & -> & _).
  apply required_amounts_spec in Hr as [Hr _].
  unfold ServerEndpoints.handle_payment_required in Hq.
  pose proof (requirement_fields clock q PyFloat.lit_1_10
                (ServerEndpoints.seller_address cfg)
                (ServerEndpoints.YIELD_POOL_SHARE_ADDRESS cfg)
                (ServerEndpoints.SETTLEMENT_VAULT_ADDRESS cfg)
                (ServerEndpoints.MOCK_USDC_ADDRESS cfg) 3600) as Hf.
  destruct (X402Types.create_x402_payment_requirement _ _ _ _ _ _ _ _) as [req|];
    [|done].
  cbn [mbind option_bind ServerEndpoints.create_x402_response] in Hq.
  destruct (PyFloat.int_truediv _ _); [|done].
  cbn [mbind option_bind] in Hq.
  injection Hq as <- <- <-. subst quote.
  cbn [ServerEndpoints.payment_requirement SettlementResponse.required_usdc
       SettlementResponse.asset_amount].
  destruct Hf as (Hreq & Hd & Ha & Hse & _ & Hv & _).
  rewrite Hr in Hreq. injection Hreq as ->. done.
Qed.

Lemma quoted_amount_is_settled_witness :
  let cfg := Scenarios.config in
  let q := 100 * 10 ^ 18 in
  let header := X402Types.create_x402_payment_header (H := RefCodec.codec)
                  (Examples.proof_of 133100000 1800000000 []) in
  (X402PaymentRequirement.required_amount
     <$> (ServerEndpoints.payment_requirement
            <$> (fst <$> (fst <$> ServerEndpoints.handle_payment_required
                                    cfg (Examples.utc_clock 1700000000) q))))
  = Some 110000000 /\
  (match fst (Server.handle_payment_submitted (H := RefCodec.codec)
                Examples.server_env ∅ q header) with
   | Server.SettlementCreated resp => Some (SettlementResponse.required_usdc resp)
   | _ => None
   end) = Some 110000000.
Proof.
  intros cfg q header.
  let v := eval vm_compute in
            (ServerEndpoints.handle_payment_required cfg
               (Examples.utc_clock 1700000000) q) in
  assert (Hq : ServerEndpoints.handle_payment_required cfg
                 (Examples.utc_clock 1700000000) q = v)
    by (vm_compute; reflexivity).
  let v := eval vm_compute in
            (Server.handle_payment_submitted (H := RefCodec.codec)
               Examples.server_env ∅ q header) in
  assert (Hs : Server.handle_payment_submitted (H := RefCodec.codec)
                 Examples.server_env ∅ q header = v)
    by (vm_compute; reflexivity).
  match type of Hq with _ = Some (?body, ?code, ?headers) =>
    match type of Hs with _ = (Server.SettlementCreated ?resp, ?store') =>
      destruct (quoted_amount_is_settled (H := RefCodec.codec) cfg
                  Examples.server_env (Examples.utc_clock 1700000000) q ∅ store'
                  header body code
                  headers resp Hq Hs) as (_ & Hreq & _)
    end
  end.
  rewrite Hq, Hs. cbn [fmap option_fmap option_map fst].
  split; [exact (f_equal Some (eq_trans Hreq eq_refl))|reflexivity].
Defined.

(** X10. A settlement the payment handler has just created can be
    fetched: [get_settlement] on the id of the 200 answer returns the
    stored entry, with the amounts of the answer and status pending
    (the answer itself says created), without asking the vault; every
    other id is answered as before.  Every answer other than 200
    leaves [active_settlements] unchanged. *)
Theorem created_settlement_is_stored `{WireCodec} (env : Server.Env)
    (active : gmap string Server.ActiveSettlement) (q : Z) (header : string) :
  let '(answer, store') := Server.handle_payment_submitted env active q header in
  match answer with
  | Server.SettlementCreated resp =>
      exists p,
        X402Types.parse_x402_payment_header header = Some p /\
        forall (Data : Type) (getSettlement : string -> option Data) settlement_id,
          ServerEndpoints.get_settlement getSettlement store' settlement_id
          = if decide (settlement_id = SettlementResponse.settlement_id resp)
            then ServerEndpoints.Stored
                   {| Server.client := X402PaymentProof.client_address p;
                      Server.asset_amount := SettlementResponse.asset_amount resp;
                      Server.required_usdc := SettlementResponse.required_usdc resp;
                      Server.max_eurc := SettlementResponse.max_eurc resp;
                      Server.status := "pending";
                      Server.created_at := Server.time_time env |}
            else ServerEndpoints.get_settlement getSettlement active settlement_id
  | _ => store' = active
  end.
Proof.
  destruct (Server.handle_payment_submitted env active q header)
    as [answer store'] eqn:Hs.
  destruct answer as [| |resp| |];
    try (destruct (settlement_refused_inv env active q header) as [[resp Hr]|Hr];
         rewrite Hs in Hr; cbn [fst snd] in Hr; [discriminate Hr|exact Hr]).
  apply settlement_created_inv in Hs as (p & r & m & Hp & _ & _ & _ & -> & ->).
  exists p. split; [exact Hp|]. intros Data getSettlement settlement_id.
  unfold ServerEndpoints.get_settlement. cbn [SettlementResponse.settlement_id
    SettlementResponse.asset_amount SettlementResponse.required_usdc
    SettlementResponse.max_eurc].
  destruct (decide (settlement_id = SettlementResponse.settlement_id resp))
    as [->|Hne].
  - by rewrite lookup_insert_eq.
  - by rewrite lookup_insert_ne.
Qed.

(** X11. Offering more than the minimum changes nothing: two proofs
    from the same client that both offer at least [max_eurc] get the
    same answer and leave the same store, and the settlement is created
    with the server's own [max_eurc], not with the amount the client
    offered. *)
Theorem offering_more_changes_nothing `{WireCodec} (env : Server.Env)
    (active : gmap string Server.ActiveSettlement) (q : Z) (h1 h2 : string)
    (p1 p2 : X402PaymentProof.t) (r m : Z) :
  X402Types.parse_x402_payment_header h1 = Some p1 ->
  X402Types.parse_x402_payment_header h2 = Some p2 ->
  X402PaymentProof.client_address p1 = X402PaymentProof.client_address p2 ->
  Server.required_amounts q = Some (r, m) ->
  is_Some (PyFloat.int_truediv (X402PaymentProof.max_payment_amount p1) (10 ^ 6)) ->
  is_Some (PyFloat.int_truediv (X402PaymentProof.max_payment_amount p2) (10 ^ 6)) ->
  X402PaymentProof.max_payment_amount p1 >= m ->
  X402PaymentProof.max_payment_amount p2 >= m ->
  Server.handle_payment_submitted env active q h1
  = Server.handle_payment_submitted env active q h2 /\
  match fst (Server.handle_payment_submitted env active q h1) with
  | Server.SettlementCreated resp => SettlementResponse.max_eurc resp = m
  | Server.SettlementFailed => True
  | _ => False
  end.
Proof.
  intros Hp1 Hp2 Hc Hq [x1 Hx1] [x2 Hx2] Hm1 Hm2.
  unfold Server.handle_payment_submitted.
  rewrite Hp1, Hp2, Hx1, Hx2, Hq, Hc.
  destruct (X402PaymentProof.max_payment_amount p1 <? m) eqn:H1;
    [apply Z.ltb_lt in H1; lia|].
  destruct (X402PaymentProof.max_payment_amount p2 <? m) eqn:H2;
    [apply Z.ltb_lt in H2; lia|].
  by destruct (Server.create_settlement env _ q r m).
Qed.

Lemma offering_more_changes_nothing_witness :
  let h1 := X402Types.create_x402_payment_header (H := RefCodec.codec)
              (Examples.proof_of 133100000 1800000000 []) in
  let h2 := X402Types.create_x402_payment_header (H := RefCodec.codec)
              (Examples.proof_of 500000000 1800000000 []) in
  Server.handle_payment_submitted (H := RefCodec.codec) Examples.server_env ∅
    (100 * 10 ^ 18) h1
  = Server.handle_payment_submitted (H := RefCodec.codec) Examples.server_env ∅
      (100 * 10 ^ 18) h2 /\
  match fst (Server.handle_payment_submitted (H := RefCodec.codec)
               Examples.server_env ∅ (100 * 10 ^ 18) h1) with
  | Server.SettlementCreated resp => SettlementResponse.max_eurc resp = 133100000
  | Server.SettlementFailed => True
  | _ => False
  end.
Proof.
  intros h1 h2.
  apply (offering_more_changes_nothing (H := RefCodec.codec) Examples.server_env ∅
           (100 * 10 ^ 18) h1 h2
           (Examples.proof_of 133100000 1800000000 [])
           (Examples.proof_of 500000000 1800000000 []) 110000000 133100000).
  - vm_compute. reflexivity.
  - vm_compute. reflexivity.
  - reflexivity.
  - vm_compute. reflexivity.
  - vm_compute. by eexists.
  - vm_compute. by eexists.
  - vm_compute. discriminate.
  - vm_compute. discriminate.
Defined.

(** X12. The route records a settlement only for a request that
    carries a non-empty X-PAYMENT header which parses to a proof
    offering at least [max_eurc] for the amount asked; every other
    request (no header, an empty header, a missing or invalid amount,
    an invalid body, an insufficient proof) leaves
    [active_settlements] unchanged. *)
Theorem route_stores_only_paid_settlements `{WireCodec}
    (int_of_str : string -> option Z) (cfg : ServerEndpoints.Config)
    (env : Server.Env) (clock : Datetime.Clock)
    (active : gmap string Server.ActiveSettlement)
    (request : ServerEndpoints.Request) :
  let '(answer, store') :=
    ServerEndpoints.buy_asset int_of_str cfg env clock active request in
  store' = active \/
  exists header p q r m resp,
    ServerEndpoints.x_payment request = Some header /\
    header <> EmptyString /\
    X402Types.parse_x402_payment_header header = Some p /\
    Server.required_amounts q = Some (r, m) /\
    X402PaymentProof.max_payment_amount p >= m /\
    answer = ServerEndpoints.PaymentSubmitted (Server.SettlementCreated resp) /\
    SettlementResponse.asset_amount resp = q /\
    q = match ServerEndpoints.method request with
        | ServerEndpoints.GET =>
            default 0 (ServerEndpoints.amount request ≫= int_of_str)
        | ServerEndpoints.POST =>
            default 0 (ServerEndpoints.sr_asset_amount
                         <$> ServerEndpoints.json_body request)
        end.
Proof.
  assert (Hsub : forall q header,
    ServerEndpoints.truthy (ServerEndpoints.x_payment request) = Some header ->
    let '(r0, store) := Server.handle_payment_submitted env active q header in
    store = active \/
    exists p r m resp,
      ServerEndpoints.x_payment request = Some header /\
      header <> EmptyString /\
      X402Types.parse_x402_payment_header header = Some p /\
      Server.required_amounts q = Some (r, m) /\
      X402PaymentProof.max_payment_amount p >= m /\
      r0 = Server.SettlementCreated resp /\
      SettlementResponse.asset_amount resp = q).
  { intros q header Hh.
    destruct (Server.handle_payment_submitted env active q header)
      as [r0 store] eqn:Hs.
    destruct (settlement_refused_inv env active q header) as [[resp Hr]|Hr];
      rewrite Hs in Hr; cbn [fst snd] in Hr; [|by left].
    subst r0. right.
    apply settlement_created_inv in Hs as (p & r & m & Hp & Hq & Hm & _ & Hresp & _).
    exists p, r, m, resp.
    destruct (ServerEndpoints.x_payment request) as [[|a s]|] eqn:Hx;
      cbn in Hh; try discriminate Hh. injection Hh as <-.
    repeat split; try done. by rewrite Hresp. }
  unfold ServerEndpoints.buy_asset.
  destruct (ServerEndpoints.method request).
  - destruct (ServerEndpoints.amount request) as [[|a s]|] eqn:Ha;
      cbn [ServerEndpoints.truthy]; try by left.
    cbn [mbind option_bind].
    destruct (int_of_str (String a s)) as [q|]; [|by left].
    destruct (ServerEndpoints.truthy (ServerEndpoints.x_payment request))
      as [header|] eqn:Hh; [|by left].
    specialize (Hsub q header eq_refl).
    destruct (Server.handle_payment_submitted env active q header) as [r0 store].
    destruct Hsub as [->|(p & r & m & resp & ? & ? & ? & ? & ? & -> & ?)];
      [by left|right].
    exists header, p, q, r, m, resp. repeat split; done.
  - destruct (ServerEndpoints.json_body request) as [body|]; [|by left].
    destruct (ServerEndpoints.truthy (ServerEndpoints.x_payment request))
      as [header|] eqn:Hh; [|by left].
    specialize (Hsub (ServerEndpoints.sr_asset_amount body) header eq_refl).
    destruct (Server.handle_payment_submitted env active _ header) as [r0 store].
    destruct Hsub as [->|(p & r & m & resp & ? & ? & ? & ? & ? & -> & ?)];
      [by left|right].
    exists header, p, (ServerEndpoints.sr_asset_amount body), r, m, resp.
    repeat split; done.
Qed.

Lemma default_budget_checked :
  forallb default_budget_falls_short (map Z.of_nat (seq 1 1000)) = true.
Proof. vm_compute. reflexivity. Qed.

Lemma default_budget_in_range k :
  1 <= k <= 1000 -> default_budget_falls_short k = true.
Proof.
  intros Hk. pose proof default_budget_checked as Hall.
  rewrite forallb_forall in Hall. apply Hall.
  apply in_map_iff. exists (Z.to_nat k). split; [lia|].
  apply in_seq. lia.
Qed.

(** X13. At the fallback rate 1.10 the budget the client computes by
    default from the server's quote is below what the server asks of a
    proof: for every whole number of units from 1 to 1000 the quote is
    [required_usdc], the client offers
    [int(required_usdc / 10**6 / 1.10 * 1.15 * 10**6)], the server asks
    [int(required_usdc * 1.10 * 1.1)], and a proof offering the
    client's budget is answered 400 with the insufficient-payment
    error and stores nothing. *)
Theorem default_budget_is_refused `{WireCodec} (env : Server.Env)
    (active : gmap string Server.ActiveSettlement) (k : Z) (header : string)
    (p : X402PaymentProof.t) :
  1 <= k <= 1000 ->
  exists required_usdc max_eurc budget,
    required_usdc_smallest (k * 10 ^ 18) PyFloat.lit_1_10 = Some required_usdc /\
    Server.required_amounts (k * 10 ^ 18) = Some (required_usdc, max_eurc) /\
    Client.default_budget required_usdc PyFloat.lit_1_10 = Some budget /\
    budget < max_eurc /\
    (X402Types.parse_x402_payment_header header = Some p ->
     X402PaymentProof.max_payment_amount p = budget ->
     Server.handle_payment_submitted env active (k * 10 ^ 18) header
     = (Server.InsufficientPayment required_usdc max_eurc budget, active)).
Proof.
  intros Hk. pose proof (default_budget_in_range k Hk) as Hc.
  unfold default_budget_falls_short in Hc.
  destruct (Server.required_amounts (k * 10 ^ 18)) as [[r m]|] eqn:Hq; [|done].
  destruct (Client.default_budget r PyFloat.lit_1_10) as [b|] eqn:Hb; [|done].
  apply andb_true_iff in Hc as [Hlt Hdiv].
  apply Z.ltb_lt in Hlt. apply bool_decide_eq_true in Hdiv as [x Hx].
  exists r, m, b. split; [by apply (required_amounts_spec _ r m)|].
  split; [done|]. split; [done|]. split; [done|].
  intros Hp Hamt. unfold Server.handle_payment_submitted.
  rewrite Hp, Hamt, Hx, Hq.
  by rewrite (proj2 (Z.ltb_lt b m) Hlt).
Qed.

Lemma default_budget_is_refused_witness :
  let header := X402Types.create_x402_payment_header (H := RefCodec.codec)
                  (Examples.proof_of 114999999 1800000000 []) in
  1 <= 100 <= 1000 /\
  Client.default_budget 110000000 PyFloat.lit_1_10 = Some 114999999 /\
  Server.handle_payment_submitted (H := RefCodec.codec) Examples.server_env ∅
    (100 * 10 ^ 18) header
  = (Server.InsufficientPayment 110000000 133100000 114999999, ∅).
Proof.
  intros header. split; [lia|].
  destruct (default_budget_is_refused (H := RefCodec.codec) Examples.server_env ∅
              100 header (Examples.proof_of 114999999 1800000000 []))
    as (r & m & b & Hr & Hq & Hb & _ & Hans); [lia|].
  assert (Hr' : r = 110000000) by (vm_compute in Hr; by injection Hr).
  subst r.
  assert (Hb' : b = 114999999) by (vm_compute in Hb; by injection Hb).
  subst b.
  assert (Hm : m = 133100000) by (vm_compute in Hq; by injection Hq).
  subst m.
  split; [exact Hb|]. apply Hans; vm_compute; reflexivity.
Defined.

Lemma client_proof_native env budget deadline v r s :
  json_native (X402PaymentProof.model_dump
                 (Client.payment_proof env budget deadline v r s)) = true.
Proof. reflexivity. Qed.

(** X14. The proof the client builds holds only JSON-native values,
    so the header it sends is read back by the server as the very
    proof the client built, offering the client's budget under the
    client's address with the permit deadline the client signed,
    whenever the library's base64 and JSON functions round-trip on
    its text. *)
Theorem client_proof_reaches_the_server `{WireCodec} (env : Client.Env)
    (budget deadline v : Z) (r s : string) :
  let p := Client.payment_proof env budget deadline v r s in
  let text := json_dumps (to_json (X402PaymentProof.model_dump p)) in
  b64decode (b64encode text) = Some text ->
  json_loads text = Some (to_json (X402PaymentProof.model_dump p)) ->
  exists q,
    X402Types.parse_x402_payment_header (X402Types.create_x402_payment_header p)
    = Some q /\
    q = p /\
    X402PaymentProof.client_address q = Client.address env /\
    X402PaymentProof.max_payment_amount q = budget /\
    X402PaymentProof.permit_deadline q = Some deadline.
Proof.
  intros p text Hb64 Hjson. exists p. split; [|done].
  unfold X402Types.parse_x402_payment_header, X402Types.create_x402_payment_header.
  fold text. rewrite header_prefix, header_payload. cbn [negb].
  rewrite Hb64. cbn [mbind option_bind]. rewrite Hjson. cbn [mbind option_bind].
  rewrite of_to_json; [apply validate_model_dump|].
  apply client_proof_native.
Qed.

Lemma client_proof_reaches_the_server_witness :
  let env := Scenarios.client_env in
  let p := Client.payment_proof env 133100000 1700003600 27 "ab" "cd" in
  X402Types.parse_x402_payment_header (H := RefCodec.codec)
    (X402Types.create_x402_payment_header (H := RefCodec.codec) p) = Some p /\
  X402PaymentProof.permit_deadline p = Some 1700003600.
Proof.
  intros env p.
  destruct (client_proof_reaches_the_server (H := RefCodec.codec) env
              133100000 1700003600 27 "ab" "cd")
    as (q & Hparse & -> & _ & _ & Hd); [vm_compute; reflexivity..|].
  split; [exact Hparse|exact Hd].
Defined.

(** X15. Whenever [buy_asset] returns a result, the client has read a
    requirement and a balance, has fixed its budget (the caller's, or
    by default the one computed from the requirement and the rate),
    which does not exceed the balance, has read from its wall clock
    the deadline for the local date one hour ahead, has signed a permit
    for exactly that budget and that deadline, and the result is the
    answer to the one header it sent: that of the proof offering this
    budget with this permit, whose signature carries the deadline
    signed. *)
Theorem client_submits_within_balance `{WireCodec} (env : Client.Env)
    (asset_amount : Z) (max_eurc_budget : option Z)
    (settlement_result : list (string * PyVal)) :
  Client.buy_asset env asset_amount max_eurc_budget = Some settlement_result ->
  exists payment_req budget eurc_balance deadline v r s,
    Client.request_payment_requirements env asset_amount = Some payment_req /\
    match max_eurc_budget with
    | Some given => budget = given
    | None =>
        Client.default_budget (X402PaymentRequirement.required_amount payment_req)
          (Client.eur_usd_rate env) = Some budget
    end /\
    Client.get_balance env = Some eurc_balance /\
    budget <= eurc_balance /\
    Datetime.now_plus (Client.clock env) 3600 = Some deadline /\
    Client.create_permit_signature env budget deadline = Some (v, r, s) /\
    let proof := Client.payment_proof env budget deadline v r s in
    X402PaymentProof.max_payment_amount proof = budget /\
    X402PaymentProof.permit_deadline proof = Some deadline /\
    Client.http_get env asset_amount (X402Types.create_x402_payment_header proof)
    = Some settlement_result.
Proof.
  unfold Client.buy_asset, Client.default_budget, Client._submit_payment.
  destruct (PyFloat.int_truediv asset_amount (10 ^ 18)) as [x0|];
    cbn [mbind option_bind]; [|done].
  destruct (Client.request_payment_requirements env asset_amount) as [req|];
    cbn [mbind option_bind]; [|done].
  destruct (PyFloat.int_truediv _ (10 ^ 6)) as [ru|] eqn:Hru;
    cbn [mbind option_bind]; [|done].
  destruct (Client.fromtimestamp_ok env _); cbn [negb]; [|done].
  destruct (Client.truediv ru (Client.eur_usd_rate env)) as [re|] eqn:Hre;
    cbn [mbind option_bind]; [|done].
  set (chosen := match max_eurc_budget with
                 | Some budget => Some budget
                 | None => _
                 end).
  destruct chosen as [budget|] eqn:Hbudget; cbn [mbind option_bind]; [|done].
  destruct (PyFloat.int_truediv budget (10 ^ 6)) as [x1|]; cbn [mbind option_bind];
    [|done].
  destruct (Client.get_balance env) as [bal|] eqn:Hbal; cbn [mbind option_bind];
    [|done].
  destruct (PyFloat.int_truediv bal (10 ^ 6)) as [x2|]; cbn [mbind option_bind];
    [|done].
  destruct (bal <? budget) eqn:Hlt; [done|].
  destruct (Datetime.now_plus (Client.clock env) 3600) as [deadline|] eqn:Hdl;
    cbn [mbind option_bind]; [|done].
  destruct (Client.create_permit_signature env budget deadline)
    as [[[v r] s]|] eqn:Hsig; cbn [mbind option_bind]; [|done].
  destruct (Client.fromtimestamp_ok env deadline); cbn [negb];
    [|done].
  destruct (Client.http_get env asset_amount _) as [res|] eqn:Hres;
    cbn [mbind option_bind]; [|done].
  destruct (_ && _); [|done]. intros [= <-].
  exists req, budget, bal, deadline, v, r, s. split; [reflexivity|]. split.
  { subst chosen. destruct max_eurc_budget as [given|]; [by injection Hbudget|].
    rewrite Hru. cbn [mbind option_bind]. rewrite Hre. exact Hbudget. }
  split; [reflexivity|]. split; [apply Z.ltb_ge in Hlt; lia|].
  split; [reflexivity|]. split; [exact Hsig|].
  split; [reflexivity|]. split; [reflexivity|exact Hres].
Qed.

Lemma client_submits_within_balance_witness :
  let env := Scenarios.client_env in
  exists budget v r s,
    budget <= 200 * 10 ^ 6 /\
    Client.http_get env (100 * 10 ^ 18)
      (X402Types.create_x402_payment_header (H := RefCodec.codec)
         (Client.payment_proof env budget 1700003600 v r s))
    = Client.buy_asset (H := RefCodec.codec) env (100 * 10 ^ 18) None.
Proof.
  intros env.
  destruct (client_submits_within_balance (H := RefCodec.codec) env (100 * 10 ^ 18)
              None
              [("settlement_id", VStr "0xaa"); ("status", VStr "created");
               ("required_usdc", VInt 110000000);
               ("max_eurc", VInt 133100000)]%string)
    as (req & budget & bal & deadline & v & r & s & _ & _ & Hbal & Hle & Hdl & _
        & _ & _ & Hget);
    [vm_compute; reflexivity|].
  exists budget, v, r, s. injection Hbal as <-.
  assert (Hd : deadline = 1700003600) by (vm_compute in Hdl; by injection Hdl).
  subst deadline. split; [exact Hle|].
  etrans; [exact Hget|]. vm_compute. reflexivity.
Defined.
